(** * awscli-local packaging scripts: a shallow embedding and its properties

    The repository holds three Python scripts that maintain one Arch Linux
    build descriptor (PKGBUILD):

    - [scripts/check_version.py]    (module [CheckVersion])
    - [scripts/generate_srcinfo.py] (module [GenerateSrcinfo])
    - [scripts/update_pkgbuild.py]  (module [UpdatePkgbuild])

    Everything the scripts do with text goes through Python's [re] module,
    so the development starts with a small backtracking matcher that follows
    [re]'s search order (leftmost match, greedy repetition, alternatives from
    left to right) and the three entry points the scripts call: [re.search],
    [re.sub] and [re.findall].  The patterns of the scripts are then written
    as terms of the pattern syntax, next to the regular expression they come
    from.

    Modelling conventions.

    - A Python [str] is a list of Unicode code points ([N]).  A file's text is
      what [open(..., 'r').read()] returns.
    - The process state is a record ([world]): the files the scripts touch,
      the [GITHUB_OUTPUT] variable, the console and the log of HTTP requests.
      A script is a state-passing computation that may stop with
      [sys.exit] ([script]).
    - The package index is a parameter ([remote]): what each of the three
      requests answers.  A request either raises [requests.RequestException]
      ([Failed]) or delivers its payload ([Fetched]).
    - [hashlib.sha256(...).hexdigest()] is a parameter of the section that
      uses it.
    - Exceptions the scripts do not catch (a malformed JSON answer, an
      unreadable but existing file) are outside the model. *)

From Stdlib Require Import String Ascii.
From Stdlib Require Import List NArith ZArith Bool Lia Arith.
Import ListNotations.

Local Open Scope list_scope.


(* ================================================================= *)
(** ** Text *)

Definition char := N.
Definition str := list char.

(** The code points of an ASCII literal. *)
Definition lit (s : string) : str := map N_of_ascii (list_ascii_of_string s).

Definition NL : char := 10%N.      (* line feed *)
Definition TAB : char := 9%N.
Definition DQ : char := 34%N.      (* double quote *)
Definition SQ : char := 39%N.      (* single quote *)
Definition LP : char := 40%N.      (* ( *)
Definition RP : char := 41%N.      (* ) *)
Definition CHECK : char := 10003%N. (* U+2713, check mark *)
Definition ARROW : char := 8594%N.  (* U+2192, rightwards arrow *)

Fixpoint str_eqb (a b : str) : bool :=
  match a, b with
  | [], [] => true
  | x :: a', y :: b' => N.eqb x y && str_eqb a' b'
  | _, _ => false
  end.

(** [strip_prefix l s] is [Some s'] when [s = l ++ s']. *)
Fixpoint strip_prefix (l s : str) : option str :=
  match l with
  | [] => Some s
  | a :: l' =>
      match s with
      | c :: s' => if N.eqb a c then strip_prefix l' s' else None
      | [] => None
      end
  end.

Definition starts_with (l s : str) : bool :=
  match strip_prefix l s with Some _ => true | None => false end.

(** Python's [needle in s]. *)
Fixpoint contains (needle s : str) : bool :=
  starts_with needle s ||
  match s with
  | [] => false
  | _ :: s' => contains needle s'
  end.

(** Number of positions of [s] at which [needle] starts. *)
Fixpoint occurrences (needle s : str) : nat :=
  (if starts_with needle s then 1 else 0) +
  match s with
  | [] => 0
  | _ :: s' => occurrences needle s'
  end.

(** Python's [sep.join(parts)]. *)
Fixpoint join (sep : str) (parts : list str) : str :=
  match parts with
  | [] => []
  | [p] => p
  | p :: rest => p ++ sep ++ join sep rest
  end.

(** A text given line by line, each line ended by a line feed. *)
Definition text (ls : list str) : str := concat (map (fun l => l ++ [NL]) ls).

(** Python's [s.split(sep)] for a non-empty [sep]: [cur] holds the piece being
    read (reversed), [skip] the characters of a separator still to pass. *)
Fixpoint split_aux (sep : str) (skip : nat) (cur : str) (s : str) : list str :=
  match s with
  | [] => [rev cur]
  | c :: s' =>
      match skip with
      | S k => split_aux sep k cur s'
      | O =>
          if starts_with sep s
          then rev cur :: split_aux sep (length sep - 1) [] s'
          else split_aux sep 0 (c :: cur) s'
      end
  end.

Definition split (sep s : str) : list str := split_aux sep 0 [] s.

(* ================================================================= *)
(** ** Character classes *)

(** [.] without DOTALL: anything but a line feed. *)
Definition dot (c : char) : bool := negb (N.eqb c NL).

(** [[^...]]: anything but the listed characters. *)
Definition none_of (l : list char) (c : char) : bool :=
  negb (existsb (N.eqb c) l).

(** [\s] in a [str] pattern: the characters for which [str.isspace] holds. *)
Definition is_space (c : char) : bool :=
  ((9 <=? c) && (c <=? 13) || (28 <=? c) && (c <=? 32)
   || (c =? 133) || (c =? 160) || (c =? 5760)
   || (8192 <=? c) && (c <=? 8202)
   || (c =? 8232) || (c =? 8233) || (c =? 8239) || (c =? 8287)
   || (c =? 12288))%N.

(** [[^\s]]. *)
Definition non_space (c : char) : bool := negb (is_space c).

(** The class of a bare array item: neither white space nor a quote of
    either kind. *)
Definition bare_char (c : char) : bool :=
  negb (is_space c || N.eqb c SQ || N.eqb c DQ).

(* ================================================================= *)
(** ** Patterns and the backtracking matcher *)

(** The fragment of [re] syntax the scripts use.  Repetition is only ever
    applied to a single character class. *)
Inductive regex : Type :=
| Lit (l : str)                  (* literal text *)
| Star (p : char -> bool)        (* [p*], greedy *)
| Plus (p : char -> bool)        (* [p+], greedy *)
| Seq (r1 r2 : regex)            (* r1 r2 *)
| Alt (r1 r2 : regex)            (* r1|r2 *)
| Grp (n : nat) (r : regex).     (* capturing group number n *)

Fixpoint seq (rs : list regex) : regex :=
  match rs with
  | [] => Lit []
  | [r] => r
  | r :: rs' => Seq r (seq rs')
  end.

(** Captured groups, most recent first. *)
Definition caps := list (nat * str).

Fixpoint lookup (n : nat) (g : caps) : option str :=
  match g with
  | [] => None
  | (k, v) :: g' => if Nat.eqb k n then Some v else lookup n g'
  end.

Definition result := option (str * caps).

(** Greedy repetition of a class: take as many characters as possible and
    give them back one at a time while the rest of the pattern fails. *)
Fixpoint star_k (p : char -> bool) (s : str) (k : str -> result) : result :=
  match s with
  | c :: s' =>
      if p c
      then match star_k p s' k with
           | Some r => Some r
           | None => k s
           end
      else k s
  | [] => k []
  end.

(** [run r s g k]: match [r] at the start of [s] with groups [g] so far and
    hand the unread text and the groups to the continuation [k]; when [k]
    fails the next way of matching [r] is tried. *)
Fixpoint run (r : regex) (s : str) (g : caps)
         (k : str -> caps -> result) : result :=
  match r with
  | Lit l =>
      match strip_prefix l s with
      | Some s' => k s' g
      | None => None
      end
  | Star p => star_k p s (fun s' => k s' g)
  | Plus p =>
      match s with
      | c :: s' => if p c then star_k p s' (fun s'' => k s'' g) else None
      | [] => None
      end
  | Seq r1 r2 => run r1 s g (fun s' g' => run r2 s' g' k)
  | Alt r1 r2 =>
      match run r1 s g k with
      | Some res => Some res
      | None => run r2 s g k
      end
  | Grp n r1 =>
      run r1 s g
          (fun s' g' => k s' ((n, firstn (length s - length s') s) :: g'))
  end.

(** [pattern.match] at the start of [s]: the unread text and the groups. *)
Definition match_here (r : regex) (s : str) : result :=
  run r s [] (fun s' g => Some (s', g)).

(** A match object: the text before the match, the match, the text after
    it, and the groups. *)
Record match_obj : Type := MatchObj {
  m_pre : str;
  m_text : str;
  m_post : str;
  m_groups : caps
}.

(** [m.group(n)]; [None] for a group that took no part in the match. *)
Definition group (m : match_obj) (n : nat) : option str :=
  lookup n (m_groups m).

(** [m.end()]. *)
Definition m_end (m : match_obj) : nat := length (m_pre m) + length (m_text m).

Definition shift (c : char) (m : match_obj) : match_obj :=
  MatchObj (c :: m_pre m) (m_text m) (m_post m) (m_groups m).

(** [re.search]: the match at the leftmost position that has one. *)
Fixpoint search (r : regex) (s : str) : option match_obj :=
  match match_here r s with
  | Some (rest, g) =>
      Some (MatchObj [] (firstn (length s - length rest) s) rest g)
  | None =>
      match s with
      | [] => None
      | c :: s' => option_map (shift c) (search r s')
      end
  end.

(** [re.sub] with a function as replacement.  [skip] counts the characters
    of the last match still to pass.  A match of no characters inserts the
    replacement and copies the next character. *)
Fixpoint sub_aux (r : regex) (repl : match_obj -> str)
         (skip : nat) (s : str) : str :=
  match s with
  | [] =>
      match skip with
      | O => match match_here r [] with
             | Some (_, g) => repl (MatchObj [] [] [] g)
             | None => []
             end
      | S _ => []
      end
  | c :: s' =>
      match skip with
      | S k => sub_aux r repl k s'
      | O =>
          match match_here r s with
          | Some (rest, g) =>
              let n := length s - length rest in
              let m := MatchObj [] (firstn n s) rest g in
              match n with
              | O => repl m ++ c :: sub_aux r repl 0 s'
              | S k => repl m ++ sub_aux r repl k s'
              end
          | None => c :: sub_aux r repl 0 s'
          end
      end
  end.

Definition sub (r : regex) (repl : match_obj -> str) (s : str) : str :=
  sub_aux r repl 0 s.

(** [re.findall] for a pattern with groups: the groups of every match, from
    left to right. *)
Fixpoint findall_aux (r : regex) (skip : nat) (s : str) : list caps :=
  match s with
  | [] =>
      match skip with
      | O => match match_here r [] with
             | Some (_, g) => [g]
             | None => []
             end
      | S _ => []
      end
  | _ :: s' =>
      match skip with
      | S k => findall_aux r k s'
      | O =>
          match match_here r s with
          | Some (rest, g) => g :: findall_aux r (length s - length rest - 1) s'
          | None => findall_aux r 0 s'
          end
      end
  end.

Definition findall (r : regex) (s : str) : list caps := findall_aux r 0 s.

(** Whether a pattern can match without reading a character. *)
Fixpoint nullable (r : regex) : bool :=
  match r with
  | Lit l => match l with [] => true | _ => false end
  | Star _ => true
  | Plus _ => false
  | Seq r1 r2 => nullable r1 && nullable r2
  | Alt r1 r2 => nullable r1 || nullable r2
  | Grp _ r1 => nullable r1
  end.

(** No match starts inside [pre] when [post] follows. *)
Definition no_match_in (r : regex) (pre post : str) : Prop :=
  forall a b, pre = a ++ b -> b <> [] -> match_here r (b ++ post) = None.

(** [m] seen from [pre] characters further left. *)
Definition move (pre : str) (m : match_obj) : match_obj :=
  MatchObj (pre ++ m_pre m) (m_text m) (m_post m) (m_groups m).

(* ================================================================= *)
(** ** The process state and the package index *)

(** Outcome of an HTTP request followed by [raise_for_status]. *)
Inductive fetch (A : Type) : Type :=
| Failed (reason : str)     (* requests.RequestException, with its text *)
| Fetched (payload : A).

Arguments Failed {A} reason.
Arguments Fetched {A} payload.

(** One entry of the [urls] list of a release record. *)
Record file_info : Type := FileInfo {
  packagetype : str;
  file_url : str;
  digest_sha256 : str
}.

(** What the index answers to the three requests the scripts make. *)
Record remote : Type := Remote {
  (* GET https://pypi.org/pypi/awscli-local/json, field info.version *)
  latest_record : fetch str;
  (* GET https://pypi.org/pypi/awscli-local/<version>/json, field urls *)
  release_record : str -> fetch (list file_info);
  (* GET <url>, the body *)
  artifact : str -> fetch (list N)
}.

Record world : Type := World {
  pkgbuild : option str;              (* text of PKGBUILD, if the file exists *)
  pkgbuild_write_error : option str;  (* the IOError opening it for writing raises *)
  srcinfo : option str;               (* text of .SRCINFO, if the file exists *)
  srcinfo_write_error : option str;
  github_output : option str;         (* os.environ.get('GITHUB_OUTPUT') *)
  output_file : str;                  (* text of the file that variable names *)
  console : list str;                 (* printed lines, oldest first *)
  requests : list str                 (* requested URLs, oldest first *)
}.

Inductive outcome (A : Type) : Type :=
| Returned (a : A)
| Exited (status : Z).      (* sys.exit(status) *)

Arguments Returned {A} a.
Arguments Exited {A} status.

Definition script (A : Type) : Type := world -> outcome A * world.

Definition ret {A} (a : A) : script A := fun w => (Returned a, w).

Definition bind {A B} (m : script A) (f : A -> script B) : script B :=
  fun w =>
    match m w with
    | (Returned a, w') => f a w'
    | (Exited n, w') => (Exited n, w')
    end.

Declare Scope script_scope.
Delimit Scope script_scope with script.
Notation "x <- m ;; k" := (bind m (fun x => k))
  (at level 61, m at next level, right associativity) : script_scope.
Notation "m ;; k" := (bind m (fun _ => k))
  (at level 61, right associativity) : script_scope.
Local Open Scope script_scope.

Definition sys_exit {A} (status : Z) : script A := fun w => (Exited status, w).

Definition print (line : str) : script unit :=
  fun w =>
    (Returned tt,
     World (pkgbuild w) (pkgbuild_write_error w) (srcinfo w)
           (srcinfo_write_error w) (github_output w) (output_file w)
           (console w ++ [line]) (requests w)).

(** [open('PKGBUILD', 'r').read()]; [None] stands for FileNotFoundError. *)
Definition read_pkgbuild : script (option str) :=
  fun w => (Returned (pkgbuild w), w).

(** [open('PKGBUILD', 'w').write(content)]; the result is the IOError, if
    any. *)
Definition write_pkgbuild (content : str) : script (option str) :=
  fun w =>
    match pkgbuild_write_error w with
    | Some e => (Returned (Some e), w)
    | None =>
        (Returned None,
         World (Some content) (pkgbuild_write_error w) (srcinfo w)
               (srcinfo_write_error w) (github_output w) (output_file w)
               (console w) (requests w))
    end.

(** [open('.SRCINFO', 'w').write(content)]. *)
Definition write_srcinfo (content : str) : script (option str) :=
  fun w =>
    match srcinfo_write_error w with
    | Some e => (Returned (Some e), w)
    | None =>
        (Returned None,
         World (pkgbuild w) (pkgbuild_write_error w) (Some content)
               (srcinfo_write_error w) (github_output w) (output_file w)
               (console w) (requests w))
    end.

Definition getenv_github_output : script (option str) :=
  fun w => (Returned (github_output w), w).

(** [open(github_output, 'a').write(line)]. *)
Definition append_output (line : str) : script unit :=
  fun w =>
    (Returned tt,
     World (pkgbuild w) (pkgbuild_write_error w) (srcinfo w)
           (srcinfo_write_error w) (github_output w) (output_file w ++ line)
           (console w) (requests w)).

(** [requests.get(url)] and [raise_for_status()]: the request is logged and
    the index's answer handed over. *)
Definition http_get {A} (url : str) (answer : fetch A) : script (fetch A) :=
  fun w =>
    (Returned answer,
     World (pkgbuild w) (pkgbuild_write_error w) (srcinfo w)
           (srcinfo_write_error w) (github_output w) (output_file w)
           (console w) (requests w ++ [url])).

(** The exit status of the process that runs [main] from [w], and the state
    it leaves behind. *)
Definition exit_status (r : outcome unit * world) : Z :=
  match fst r with
  | Returned _ => 0%Z
  | Exited n => n
  end.

Definition final (r : outcome unit * world) : world := snd r.

(** Python truth of a value that is [None] or a string. *)
Definition truthy (v : option str) : bool :=
  match v with
  | Some (_ :: _) => true
  | _ => false
  end.

(** The string behind a value known not to be [None]. *)
Definition the (v : option str) : str :=
  match v with
  | Some s => s
  | None => []
  end.

(* ================================================================= *)
(** ** scripts/check_version.py *)

Module CheckVersion.

(** [r'pkgver=(.+)'] *)
Definition re_pkgver : regex :=
  seq [Lit (lit "pkgver="); Grp 1 (Plus dot)].

Definition get_current_version : script (option str) :=
  f <- read_pkgbuild ;;
  match f with
  | Some pkgbuild_content =>
      match search re_pkgver pkgbuild_content with
      | None =>
          print (lit "ERROR: Could not find current version in PKGBUILD") ;;
          ret None
      | Some current_version_match => ret (group current_version_match 1)
      end
  | None =>
      print (lit "ERROR: PKGBUILD file not found") ;;
      ret None
  end.

Definition get_latest_version (net : remote) : script (option str) :=
  response <- http_get (lit "https://pypi.org/pypi/awscli-local/json")
                       (latest_record net) ;;
  match response with
  | Fetched version => ret (Some version)
  | Failed e =>
      print (lit "ERROR: Failed to fetch version from PyPI: " ++ e) ;;
      ret None
  end.

Definition set_github_output (key value : str) : script unit :=
  github_output <- getenv_github_output ;;
  (if truthy github_output
   then append_output (key ++ lit "=" ++ value ++ [NL])
   else ret tt) ;;
  print (lit "Output: " ++ key ++ lit "=" ++ value).

Definition main (net : remote) : script unit :=
  current_version <- get_current_version ;;
  if negb (truthy current_version) then sys_exit 1%Z else
  let current_version := the current_version in
  latest_version <- get_latest_version net ;;
  if negb (truthy latest_version) then sys_exit 1%Z else
  let latest_version := the latest_version in
  print (lit "Current version: " ++ current_version) ;;
  print (lit "Latest version: " ++ latest_version) ;;
  let needs_update := negb (str_eqb current_version latest_version) in
  print (lit "Needs update: "
         ++ (if needs_update then lit "True" else lit "False")) ;;
  set_github_output (lit "current_version") current_version ;;
  set_github_output (lit "latest_version") latest_version ;;
  set_github_output (lit "needs_update")
    (if needs_update then lit "true" else lit "false") ;;
  if needs_update
  then print ([CHECK] ++ lit " Update available: " ++ current_version
               ++ [32%N; ARROW; 32%N] ++ latest_version)
  else print ([CHECK] ++ lit " Already up to date").

End CheckVersion.

(* ================================================================= *)
(** ** scripts/generate_srcinfo.py *)

Module GenerateSrcinfo.

(** A pattern with the text it is written as, which the error message of
    [extract_field] prints. *)
Record pattern : Type := Pattern {
  pat_text : str;
  pat_re : regex
}.

(** [r'pkgname=([^\s]+)'], and likewise for [pkgver] and [pkgrel]. *)
Definition word_field (name : string) : pattern :=
  Pattern (lit name ++ lit "=([^\s]+)")
          (seq [Lit (lit name ++ lit "="); Grp 1 (Plus non_space)]).

(** [r'pkgdesc=<q>([^<q>]+)<q>'] with <q> the double quote, and likewise
    for [url]. *)
Definition quoted_field (name : string) : pattern :=
  Pattern (lit name ++ lit "=" ++ [DQ] ++ lit "([^" ++ [DQ] ++ lit "]+)"
           ++ [DQ])
          (seq [Lit (lit name ++ lit "=" ++ [DQ]);
                Grp 1 (Plus (none_of [DQ]));
                Lit [DQ]]).

(** [r"arch=\(([^)]+)\)"], and likewise for the other arrays. *)
Definition array_field (name : string) : pattern :=
  Pattern (lit name ++ lit "=\(([^)]+)\)")
          (seq [Lit (lit name ++ lit "=(");
                Grp 1 (Plus (none_of [RP]));
                Lit [RP]]).

(** The pattern of one array item: single-quoted, double-quoted or bare,
    [r"'([^']+)'|<q>([^<q>]+)<q>|([^\s'<q>]+)"]. *)
Definition re_item : regex :=
  Alt (seq [Lit [SQ]; Grp 1 (Plus (none_of [SQ])); Lit [SQ]])
      (Alt (seq [Lit [DQ]; Grp 2 (Plus (none_of [DQ])); Lit [DQ]])
           (Grp 3 (Plus bare_char))).

Definition extract_field (content : str) (pat : pattern) (required : bool)
  : script (option str) :=
  match search (pat_re pat) content with
  | Some m => ret (group m 1)
  | None =>
      if required
      then print (lit "ERROR: Could not find required field: "
                  ++ pat_text pat) ;;
           ret None
      else ret (Some [])
  end.

(** The tuple [re.findall] gives for one match: the three groups, an empty
    string for a group that took no part. *)
Definition item_tuple (g : caps) : list str :=
  [the (lookup 1 g); the (lookup 2 g); the (lookup 3 g)].

(** [next(filter(None, item), None)] *)
Definition first_nonempty (item : list str) : option str :=
  find (fun v => negb (str_eqb v [])) item.

Definition extract_array (content : str) (pat : pattern) : list str :=
  match search (pat_re pat) content with
  | Some m =>
      let array_content := the (group m 1) in
      flat_map
        (fun g =>
           let value := first_nonempty (item_tuple g) in
           if truthy value then [the value] else [])
        (findall re_item array_content)
  | None => []
  end.

Record pkg_info : Type := PkgInfo {
  pkgname : str;
  pkgver : str;
  pkgrel : str;
  pkgdesc : str;
  url : str;
  arch : list str;
  license : list str;
  depends : list str;
  makedepends : list str
}.

Definition parse_pkgbuild : script (option pkg_info) :=
  f <- read_pkgbuild ;;
  match f with
  | None =>
      print (lit "ERROR: PKGBUILD file not found") ;;
      ret None
  | Some content =>
      pkgname <- extract_field content (word_field "pkgname") true ;;
      pkgver <- extract_field content (word_field "pkgver") true ;;
      pkgrel <- extract_field content (word_field "pkgrel") true ;;
      pkgdesc <- extract_field content (quoted_field "pkgdesc") true ;;
      url <- extract_field content (quoted_field "url") true ;;
      if negb (forallb truthy [pkgname; pkgver; pkgrel; pkgdesc; url])
      then ret None
      else
        let arch := extract_array content (array_field "arch") in
        let license_arr := extract_array content (array_field "license") in
        let depends := extract_array content (array_field "depends") in
        let makedepends :=
          extract_array content (array_field "makedepends") in
        let arch := match arch with [] => [lit "any"] | _ => arch end in
        let license_arr :=
          match license_arr with [] => [lit "unknown"] | _ => license_arr end
        in
        ret (Some (PkgInfo (the pkgname) (the pkgver) (the pkgrel)
                           (the pkgdesc) (the url)
                           arch license_arr depends makedepends))
  end.

Definition generate_srcinfo (pkg_info : pkg_info) : str :=
  let lines :=
    [lit "pkgbase = " ++ pkgname pkg_info;
     [TAB] ++ lit "pkgdesc = " ++ pkgdesc pkg_info;
     [TAB] ++ lit "pkgver = " ++ pkgver pkg_info;
     [TAB] ++ lit "pkgrel = " ++ pkgrel pkg_info;
     [TAB] ++ lit "url = " ++ url pkg_info]
    ++ map (fun arch => [TAB] ++ lit "arch = " ++ arch) (arch pkg_info)
    ++ map (fun license_item => [TAB] ++ lit "license = " ++ license_item)
           (license pkg_info)
    ++ map (fun dep => [TAB] ++ lit "depends = " ++ dep) (depends pkg_info)
    ++ map (fun makedep => [TAB] ++ lit "makedepends = " ++ makedep)
           (makedepends pkg_info)
    ++ [[]; lit "pkgname = " ++ pkgname pkg_info]
  in
  join [NL] lines ++ [NL].

Definition main : script unit :=
  print (lit "Generating .SRCINFO from PKGBUILD...") ;;
  pkg_info <- parse_pkgbuild ;;
  match pkg_info with
  | None => sys_exit 1%Z
  | Some pkg_info =>
      let srcinfo_content := generate_srcinfo pkg_info in
      written <- write_srcinfo srcinfo_content ;;
      match written with
      | None => print ([CHECK] ++ lit " .SRCINFO generated successfully")
      | Some e =>
          print (lit "ERROR: Failed to write .SRCINFO: " ++ e) ;;
          sys_exit 1%Z
      end
  end.

End GenerateSrcinfo.

(* ================================================================= *)
(** ** scripts/update_pkgbuild.py *)

Module UpdatePkgbuild.

(** The dictionary [get_package_info] returns. *)
Record package_info : Type := PackageInfo {
  info_url : str;
  info_sha256 : str
}.

(** [r'pkgver=.+'] *)
Definition re_pkgver : regex := seq [Lit (lit "pkgver="); Plus dot].

(** [r'pkgrel=.+'] *)
Definition re_pkgrel : regex := seq [Lit (lit "pkgrel="); Plus dot].

(** The registry prefix of the source pattern. *)
Definition registry : str := lit "https://files.pythonhosted.org/packages/".

(** [r'(source=\([^)]*https://files\.pythonhosted\.org/packages/)[^<q>)]+([^)]*\))']
    with <q> the double quote. *)
Definition re_source_url : regex :=
  seq [Grp 1 (seq [Lit (lit "source=("); Star (none_of [RP]); Lit registry]);
       Plus (none_of [DQ; RP]);
       Grp 2 (seq [Star (none_of [RP]); Lit [RP]])].

(** The text ['sha256sums=(' + quote + 'SKIP' + quote + ')'], used both as a
    substring and, escaped, as the pattern [r"sha256sums=\('SKIP'\)"]. *)
Definition skip_sums : str := lit "sha256sums=('SKIP')".

(** [r"sha256sums=\('[^']*'\)"] *)
Definition re_sums : regex :=
  seq [Lit (lit "sha256sums=('"); Star (none_of [SQ]); Lit (lit "')")].

(** [r'source=\([^)]+\)'] *)
Definition re_source : regex :=
  seq [Lit (lit "source=("); Plus (none_of [RP]); Lit [RP]].

(** [f"sha256sums=('{sha256_hash}')"] *)
Definition sums_line (sha256_hash : str) : str :=
  lit "sha256sums=('" ++ sha256_hash ++ lit "')".

(** A replacement given as a string.  [re.sub] reads backslash escapes in
    it; the model takes it as it stands, which is what [re.sub] does when
    the string has no backslash ([plain]). *)
Definition template (t : str) : match_obj -> str := fun _ => t.

Definition plain (t : str) : Prop := ~ In 92%N t.

(** The four rewrites of [update_pkgbuild], in the order of the source. *)

(* Update version *)
Definition update_pkgver (version content : str) : str :=
  sub re_pkgver (template (lit "pkgver=" ++ version)) content.

(* Reset pkgrel to 1 for new version *)
Definition reset_pkgrel (content : str) : str :=
  sub re_pkgrel (template (lit "pkgrel=1")) content.

(* [download_url.split('packages/')[-1]] *)
Definition url_suffix (download_url : str) : str :=
  last (split (lit "packages/") download_url) [].

(* Update source URL - handle the PyPI URL pattern *)
Definition update_source (download_url content : str) : str :=
  if contains (lit "source=(") content
  then
    sub re_source_url
        (fun m => the (group m 1) ++ url_suffix download_url
                  ++ the (group m 2))
        content
  else content.

(* Update sha256sum *)
Definition update_sha256sums (sha256_hash content : str) : str :=
  if contains skip_sums content
  then sub (Lit skip_sums) (template (sums_line sha256_hash)) content
  else if contains (lit "sha256sums=(") content
  then sub re_sums (template (sums_line sha256_hash)) content
  else
    match search re_source content with
    | Some source_line =>
        let insert_pos := m_end source_line in
        firstn insert_pos content
        ++ ([NL] ++ sums_line sha256_hash)
        ++ skipn insert_pos content
    | None => content
    end.

(** The text [update_pkgbuild] writes back. *)
Definition rewrite (version : str) (info : package_info) (content : str)
  : str :=
  update_sha256sums (info_sha256 info)
    (update_source (info_url info)
       (reset_pkgrel (update_pkgver version content))).

Definition update_pkgbuild (version : str) (info : package_info)
  : script bool :=
  f <- read_pkgbuild ;;
  match f with
  | None =>
      print (lit "ERROR: PKGBUILD file not found") ;;
      ret false
  | Some content =>
      let content := rewrite version info content in
      written <- write_pkgbuild content ;;
      match written with
      | None =>
          print ([CHECK] ++ lit " PKGBUILD updated successfully") ;;
          ret true
      | Some e =>
          print (lit "ERROR: Failed to write PKGBUILD: " ++ e) ;;
          ret false
      end
  end.

Definition get_package_info (net : remote) (version : str)
  : script (option package_info) :=
  response <- http_get (lit "https://pypi.org/pypi/awscli-local/"
                        ++ version ++ lit "/json")
                       (release_record net version) ;;
  match response with
  | Fetched files =>
      (* Find the source tarball *)
      match find (fun file_info =>
                    str_eqb (packagetype file_info) (lit "sdist")) files with
      | None =>
          print (lit "ERROR: No source distribution found on PyPI") ;;
          ret None
      | Some source_file =>
          ret (Some (PackageInfo (file_url source_file)
                                 (digest_sha256 source_file)))
      end
  | Failed e =>
      print (lit "ERROR: Failed to get package info from PyPI: " ++ e) ;;
      ret None
  end.

(** The parsed command line: the positional [version] and the flag that
    [--verify] and [--no-verify] set (true by default). *)
Record args : Type := Args {
  arg_version : str;
  arg_verify : bool
}.

Section Digest.

(** [hashlib.sha256(data).hexdigest()] *)
Variable sha256_hexdigest : list N -> str.

Definition verify_checksum (net : remote) (url expected_sha256 : str)
  : script bool :=
  print (lit "Downloading package to verify checksum...") ;;
  response <- http_get url (artifact net url) ;;
  match response with
  | Fetched body =>
      let calculated_sha256 := sha256_hexdigest body in
      if negb (str_eqb expected_sha256 calculated_sha256)
      then
        print (lit "ERROR: Checksum mismatch!") ;;
        print (lit "PyPI reports: " ++ expected_sha256) ;;
        print (lit "Calculated:   " ++ calculated_sha256) ;;
        ret false
      else
        print ([CHECK] ++ lit " Checksum verification passed") ;;
        ret true
  | Failed e =>
      print (lit "ERROR: Failed to download package for verification: "
             ++ e) ;;
      ret false
  end.

Definition main (net : remote) (args : args) : script unit :=
  print (lit "Updating PKGBUILD to version " ++ arg_version args) ;;
  (* Get package information from PyPI *)
  package_info <- get_package_info net (arg_version args) ;;
  match package_info with
  | None => sys_exit 1%Z
  | Some package_info =>
      print (lit "Download URL: " ++ info_url package_info) ;;
      print (lit "SHA256: " ++ info_sha256 package_info) ;;
      (* Verify checksum if requested *)
      verified <-
        (if arg_verify args
         then verify_checksum net (info_url package_info)
                              (info_sha256 package_info)
         else ret true) ;;
      if negb verified then sys_exit 1%Z else
      (* Update PKGBUILD *)
      updated <- update_pkgbuild (arg_version args) package_info ;;
      if negb updated then sys_exit 1%Z else
      print ([CHECK] ++ lit " Successfully updated to version "
             ++ arg_version args)
  end.

End Digest.

End UpdatePkgbuild.

(* ================================================================= *)
(** * Vocabulary of the statements *)

(** [rest] does not go on with a character of class [p]. *)
Definition stops (p : char -> bool) (rest : str) : Prop :=
  rest = [] \/ exists c r, rest = c :: r /\ p c = false.

(** [needle] occurs in [s] at position [i]. *)
Definition occurs_at (needle s : str) (i : nat) : Prop :=
  exists t, skipn i s = needle ++ t.

(** The end of a line: the end of the text or a line feed. *)
Definition line_end (rest : str) : Prop :=
  rest = [] \/ exists r, rest = NL :: r.

(** [content] holds the assignment [pkgver=X] after [pre]: [X] is what
    follows [pkgver=] up to the end of the line, and is not empty. *)
Definition pkgver_line (content pre X post : str) : Prop :=
  content = pre ++ lit "pkgver=" ++ X ++ post /\
  X <> [] /\ ~ In NL X /\ line_end post.

(** Every [pkgver=] that starts within the first [n] characters of [content]
    is at the end of its line. *)
Definition no_pkgver_before (content : str) (n : nat) : Prop :=
  forall i t, i < n -> skipn i content = lit "pkgver=" ++ t -> line_end t.

(** The version field can be read: some [pkgver=] is followed by a character
    on its line. *)
Definition has_pkgver (content : str) : Prop :=
  exists a c t, content = a ++ lit "pkgver=" ++ c :: t /\ c <> NL.

(** The three lines the Version Checker appends to the file [GITHUB_OUTPUT]
    names. *)
Definition report (current latest : str) (needs_update : bool) : str :=
  text [lit "current_version=" ++ current;
        lit "latest_version=" ++ latest;
        lit "needs_update=" ++ (if needs_update then lit "true" else lit "false")].

(** What the Version Checker prints once it has both versions. *)
Definition console_report (current latest : str) (needs_update : bool)
  : list str :=
  [lit "Current version: " ++ current;
   lit "Latest version: " ++ latest;
   lit "Needs update: " ++ (if needs_update then lit "True" else lit "False");
   lit "Output: current_version=" ++ current;
   lit "Output: latest_version=" ++ latest;
   lit "Output: needs_update="
     ++ (if needs_update then lit "true" else lit "false");
   if needs_update
   then [CHECK] ++ lit " Update available: " ++ current
        ++ [32%N; ARROW; 32%N] ++ latest
   else [CHECK] ++ lit " Already up to date"].

(** A process state in which PKGBUILD holds [content], every file can be
    written, [GITHUB_OUTPUT] is not set, and nothing has been printed or
    requested yet. *)
Definition descriptor (content : str) : world :=
  World (Some content) None None None None [] [] [].

(** The same without a PKGBUILD. *)
Definition no_descriptor : world :=
  World None None None None None [] [] [].

(** An index that answers no request. *)
Definition offline : remote :=
  Remote (Failed (lit "connection refused"))
         (fun _ => Failed (lit "connection refused"))
         (fun _ => Failed (lit "connection refused")).

(** A descriptor that mentions an older version in a comment. *)
Definition commented_descriptor : str :=
  text [lit "# previous release: pkgver=0.9.0";
        lit "pkgver=1.0.0";
        lit "pkgrel=1"].

(** A descriptor with the fields the Version Checker and the Regenerator
    read. *)
Definition plain_descriptor : str :=
  text [lit "pkgname=awscli-local";
        lit "pkgver=1.0.0";
        lit "pkgrel=1"].

(** An index whose latest release is [version]. *)
Definition index_at (version : str) : remote :=
  Remote (Fetched version)
         (fun _ => Failed (lit "not found"))
         (fun _ => Failed (lit "not found")).

(** The state [w] after [lines] have been printed. *)
Definition printed (w : world) (lines : list str) : world :=
  World (pkgbuild w) (pkgbuild_write_error w) (srcinfo w)
        (srcinfo_write_error w) (github_output w) (output_file w)
        (console w ++ lines) (requests w).

(** The field [name] is absent from [content] or holds an empty quoted
    value: every [name=] with an opening double quote is followed at once by
    the closing one. *)
Definition empty_or_absent (name : string) (content : str) : Prop :=
  forall a t, content = a ++ (lit name ++ lit "=" ++ [DQ]) ++ t ->
              exists r, t = DQ :: r.

(** The error line [extract_field] prints for a pattern. *)
Definition field_error (pat : GenerateSrcinfo.pattern) : str :=
  lit "ERROR: Could not find required field: " ++ GenerateSrcinfo.pat_text pat.

(** What [extract_field] returns and prints for a required field, as
    functions of the text. *)
Definition field_value (content : str) (pat : GenerateSrcinfo.pattern)
  : option str :=
  match search (GenerateSrcinfo.pat_re pat) content with
  | Some m => group m 1
  | None => None
  end.

Definition field_errors (content : str) (pat : GenerateSrcinfo.pattern)
  : list str :=
  match search (GenerateSrcinfo.pat_re pat) content with
  | Some _ => []
  | None => [field_error pat]
  end.

(** What [parse_pkgbuild] prints for [content], and what it returns. *)
Definition parse_errors (content : str) : list str :=
  field_errors content (GenerateSrcinfo.word_field "pkgname")
  ++ field_errors content (GenerateSrcinfo.word_field "pkgver")
  ++ field_errors content (GenerateSrcinfo.word_field "pkgrel")
  ++ field_errors content (GenerateSrcinfo.quoted_field "pkgdesc")
  ++ field_errors content (GenerateSrcinfo.quoted_field "url").

Definition or_default (items : list str) (default : string) : list str :=
  match items with
  | [] => [lit default]
  | _ => items
  end.

Definition parsed (content : str) : option GenerateSrcinfo.pkg_info :=
  let pkgname := field_value content (GenerateSrcinfo.word_field "pkgname") in
  let pkgver := field_value content (GenerateSrcinfo.word_field "pkgver") in
  let pkgrel := field_value content (GenerateSrcinfo.word_field "pkgrel") in
  let pkgdesc :=
    field_value content (GenerateSrcinfo.quoted_field "pkgdesc") in
  let url := field_value content (GenerateSrcinfo.quoted_field "url") in
  if forallb truthy [pkgname; pkgver; pkgrel; pkgdesc; url]
  then
    Some (GenerateSrcinfo.PkgInfo
            (the pkgname) (the pkgver) (the pkgrel) (the pkgdesc) (the url)
            (or_default (GenerateSrcinfo.extract_array content
                           (GenerateSrcinfo.array_field "arch")) "any")
            (or_default (GenerateSrcinfo.extract_array content
                           (GenerateSrcinfo.array_field "license")) "unknown")
            (GenerateSrcinfo.extract_array content
               (GenerateSrcinfo.array_field "depends"))
            (GenerateSrcinfo.extract_array content
               (GenerateSrcinfo.array_field "makedepends")))
  else None.

(** The header block of the derived file: everything before the empty line
    and the package-name trailer. *)
Definition header (info : GenerateSrcinfo.pkg_info) : str :=
  join [NL]
    ([lit "pkgbase = " ++ GenerateSrcinfo.pkgname info;
      [TAB] ++ lit "pkgdesc = " ++ GenerateSrcinfo.pkgdesc info;
      [TAB] ++ lit "pkgver = " ++ GenerateSrcinfo.pkgver info;
      [TAB] ++ lit "pkgrel = " ++ GenerateSrcinfo.pkgrel info;
      [TAB] ++ lit "url = " ++ GenerateSrcinfo.url info]
     ++ map (fun v => [TAB] ++ lit "arch = " ++ v) (GenerateSrcinfo.arch info)
     ++ map (fun v => [TAB] ++ lit "license = " ++ v)
            (GenerateSrcinfo.license info)
     ++ map (fun v => [TAB] ++ lit "depends = " ++ v)
            (GenerateSrcinfo.depends info)
     ++ map (fun v => [TAB] ++ lit "makedepends = " ++ v)
            (GenerateSrcinfo.makedepends info)).

(** The state [w] after the Regenerator has written [derived] to .SRCINFO
    and printed [lines]. *)
Definition regenerated (w : world) (derived : str) (lines : list str) : world :=
  World (pkgbuild w) (pkgbuild_write_error w) (Some derived)
        (srcinfo_write_error w) (github_output w) (output_file w)
        (console w ++ lines) (requests w).

(** A descriptor whose description is an empty quoted value, and the same
    descriptor without that line. *)
Definition empty_pkgdesc_descriptor : str :=
  text [lit "pkgname=awscli-local";
        lit "pkgver=1.0.0";
        lit "pkgrel=1";
        lit "pkgdesc=" ++ [DQ; DQ];
        lit "url=" ++ [DQ] ++ lit "https://github.com/localstack/awscli-local"
          ++ [DQ]].

Definition absent_pkgdesc_descriptor : str :=
  text [lit "pkgname=awscli-local";
        lit "pkgver=1.0.0";
        lit "pkgrel=1";
        lit "url=" ++ [DQ] ++ lit "https://github.com/localstack/awscli-local"
          ++ [DQ]].

(** The array [name] is absent from [content] or empty: every [name=(] is
    followed at once by the closing parenthesis. *)
Definition empty_or_absent_array (name : string) (content : str) : Prop :=
  forall a t, content = a ++ (lit name ++ lit "=(") ++ t ->
              exists r, t = RP :: r.

(** A descriptor without run-time dependencies, with one build-time
    dependency and an empty architecture array. *)
Definition no_depends_descriptor : str :=
  text [lit "pkgname=awscli-local";
        lit "pkgver=1.0.0";
        lit "pkgrel=1";
        lit "pkgdesc=" ++ [DQ] ++ lit "Thin wrapper around the aws command"
          ++ [DQ];
        lit "url=" ++ [DQ] ++ lit "https://github.com/localstack/awscli-local"
          ++ [DQ];
        lit "arch=()";
        lit "license=('Apache')";
        lit "depends=()";
        lit "makedepends=('python-setuptools')"].

(** The state [w] after [lines] have been printed and [urls] requested,
    the files being what they were. *)
Definition observed (w : world) (lines urls : list str) : world :=
  World (pkgbuild w) (pkgbuild_write_error w) (srcinfo w)
        (srcinfo_write_error w) (github_output w) (output_file w)
        (console w ++ lines) (requests w ++ urls).

(** The same with [content] written to PKGBUILD. *)
Definition updated (w : world) (content : str) (lines urls : list str)
  : world :=
  World (Some content) (pkgbuild_write_error w) (srcinfo w)
        (srcinfo_write_error w) (github_output w) (output_file w)
        (console w ++ lines) (requests w ++ urls).

Definition is_sdist (f : file_info) : bool :=
  str_eqb (packagetype f) (lit "sdist").

(** The ways a stage before the rewrite fails: the release record cannot be
    fetched, it lists no source distribution, or, with verification on, the
    artifact cannot be downloaded or its digest is not the one the record
    gives. *)
Inductive stage_failure (sha256_hexdigest : list N -> str) (net : remote)
          (args : UpdatePkgbuild.args) : Prop :=
| fetch_failed e :
    release_record net (UpdatePkgbuild.arg_version args) = Failed e ->
    stage_failure sha256_hexdigest net args
| no_source_distribution files :
    release_record net (UpdatePkgbuild.arg_version args) = Fetched files ->
    find is_sdist files = None ->
    stage_failure sha256_hexdigest net args
| download_failed files f e :
    release_record net (UpdatePkgbuild.arg_version args) = Fetched files ->
    find is_sdist files = Some f ->
    UpdatePkgbuild.arg_verify args = true ->
    artifact net (file_url f) = Failed e ->
    stage_failure sha256_hexdigest net args
| digest_mismatch files f body :
    release_record net (UpdatePkgbuild.arg_version args) = Fetched files ->
    find is_sdist files = Some f ->
    UpdatePkgbuild.arg_verify args = true ->
    artifact net (file_url f) = Fetched body ->
    sha256_hexdigest body <> digest_sha256 f ->
    stage_failure sha256_hexdigest net args.

(** The stages before the rewrite pass and deliver [info]. *)
Definition stages_pass (sha256_hexdigest : list N -> str) (net : remote)
           (args : UpdatePkgbuild.args) (info : UpdatePkgbuild.package_info)
  : Prop :=
  exists files f,
    release_record net (UpdatePkgbuild.arg_version args) = Fetched files /\
    find is_sdist files = Some f /\
    info = UpdatePkgbuild.PackageInfo (file_url f) (digest_sha256 f) /\
    (UpdatePkgbuild.arg_verify args = false \/
     exists body, artifact net (file_url f) = Fetched body /\
                  sha256_hexdigest body = digest_sha256 f).

(** A stand-in digest function for examples: the data itself. *)
Definition toy_digest (data : list N) : str := data.

(** An index with one release, [2.0.0], whose record lists a wheel and a
    source distribution with digest [digest]; the artifact downloads as
    [body]. *)
Definition release_url : str :=
  lit "https://files.pythonhosted.org/packages/ab/cd/ef01/awscli-local-2.0.0.tar.gz".

Definition index_with (digest : str) (body : list N) : remote :=
  Remote (Fetched (lit "2.0.0"))
         (fun version =>
            if str_eqb version (lit "2.0.0")
            then Fetched
                   [FileInfo (lit "bdist_wheel")
                             (lit "https://files.pythonhosted.org/packages/00/11/22/awscli_local-2.0.0-py3-none-any.whl")
                             (lit "0f0f");
                    FileInfo (lit "sdist") release_url digest]
            else Failed (lit "404 Client Error"))
         (fun url =>
            if str_eqb url release_url then Fetched body
            else Failed (lit "404 Client Error")).

(** A descriptor of the packaged program before an update. *)
Definition old_descriptor : str :=
  text [lit "pkgname=awscli-local";
        lit "pkgver=1.0.0";
        lit "pkgrel=3";
        lit "source=(" ++ [DQ]
          ++ lit "https://files.pythonhosted.org/packages/source/a/awscli-local/awscli-local-$pkgver.tar.gz"
          ++ [DQ] ++ lit ")";
        lit "sha256sums=('SKIP')"].

(** A descriptor whose source URL is written between single quotes. *)
Definition single_quoted_descriptor : str :=
  text [lit "pkgname=awscli-local";
        lit "pkgver=1.0.0";
        lit "pkgrel=3";
        lit "source=('https://files.pythonhosted.org/packages/source/a/awscli-local/awscli-local-1.0.0.tar.gz')";
        lit "sha256sums=('0a0a')"].

(** The record of release 2.0.0 used in the examples. *)
Definition release_info : UpdatePkgbuild.package_info :=
  UpdatePkgbuild.PackageInfo release_url (lit "0a1b2c").

(** Number of positions within [a] at which [needle] starts in [a ++ b]. *)
Fixpoint occ_in (needle a b : str) : nat :=
  match a with
  | [] => 0
  | _ :: a' =>
      (if starts_with needle (a ++ b) then 1 else 0) + occ_in needle a' b
  end.

(** A lower-case hexadecimal digit, as [hexdigest] and the index write
    digests. *)
Definition is_hex (c : char) : bool :=
  ((48 <=? c) && (c <=? 57) || (97 <=? c) && (c <=? 102))%N.

Definition hex (digest : str) : Prop := forallb is_hex digest = true.

(** The opening of a checksum assignment and of a source assignment. *)
Definition sums_head : str := lit "sha256sums=(".
Definition source_head : str := lit "source=(".

(** The text the checksum rewrite of [update_pkgbuild] works on: the descriptor
    after the version, release and source rewrites. *)
Definition before_checksum (version : str) (info : UpdatePkgbuild.package_info)
           (content : str) : str :=
  UpdatePkgbuild.update_source (UpdatePkgbuild.info_url info)
    (UpdatePkgbuild.reset_pkgrel
       (UpdatePkgbuild.update_pkgver version content)).

(** The three states in which a text with at most one checksum assignment
    reaches the checksum rewrite, each with the text the rewrite is to
    produce for the digest [digest]:
    - its one checksum assignment is the sentinel;
    - it holds no sentinel and its one checksum assignment is a single-quoted
      value;
    - it holds no checksum assignment, and its first source assignment is
      not empty. *)
Inductive checksum_rewrite (digest : str) : str -> str -> Prop :=
| rewrite_sentinel pre post :
    occurrences sums_head (pre ++ UpdatePkgbuild.skip_sums ++ post) = 1 ->
    checksum_rewrite digest
      (pre ++ UpdatePkgbuild.skip_sums ++ post)
      (pre ++ UpdatePkgbuild.sums_line digest ++ post)
| rewrite_existing pre old post :
    contains UpdatePkgbuild.skip_sums
             (pre ++ UpdatePkgbuild.sums_line old ++ post) = false ->
    ~ In SQ old ->
    occurrences sums_head (pre ++ UpdatePkgbuild.sums_line old ++ post) = 1 ->
    checksum_rewrite digest
      (pre ++ UpdatePkgbuild.sums_line old ++ post)
      (pre ++ UpdatePkgbuild.sums_line digest ++ post)
| rewrite_append pre items post :
    contains sums_head (pre ++ source_head ++ items ++ [RP] ++ post) = false ->
    occurrences source_head (pre ++ source_head) = 1 ->
    items <> [] -> ~ In RP items ->
    checksum_rewrite digest
      (pre ++ source_head ++ items ++ [RP] ++ post)
      (pre ++ source_head ++ items ++ [RP] ++ [NL]
       ++ UpdatePkgbuild.sums_line digest ++ post).

(** A descriptor whose checksum stands between double quotes. *)
Definition double_quoted_sums_descriptor : str :=
  text [lit "pkgver=1.0.0";
        lit "pkgrel=3";
        lit "source=(" ++ [DQ]
          ++ lit "https://files.pythonhosted.org/packages/source/a/awscli-local/awscli-local-$pkgver.tar.gz"
          ++ [DQ] ++ lit ")";
        lit "sha256sums=(" ++ [DQ] ++ lit "0f0f" ++ [DQ] ++ lit ")"].

(** ** Well-formed descriptors

    A descriptor seen line by line, each line being one of the four fields
    the Updater rewrites, written from the start of the line, or a line that
    opens none of them. *)

Definition EQ : char := 61%N.        (* = *)
Definition COLON : char := 58%N.     (* : *)
Definition BACKSLASH : char := 92%N.

Definition pkgver_head : str := lit "pkgver=".
Definition pkgrel_head : str := lit "pkgrel=".

Inductive line : Type :=
| Version (value : str)
    (* pkgver=<value> *)
| Release (value : str)
    (* pkgrel=<value> *)
| RegistrySource (before path after : str)
    (* source=(<before>https://files.pythonhosted.org/packages/<path><after>) *)
| OtherSource (items : str)
    (* source=(<items>), without the registry prefix *)
| Checksum (value : str)
    (* sha256sums=('<value>') *)
| Other (content : str).
    (* a line that opens none of the four fields *)

Definition render_line (l : line) : str :=
  match l with
  | Version value => pkgver_head ++ value
  | Release value => pkgrel_head ++ value
  | RegistrySource before path after =>
      source_head ++ before ++ UpdatePkgbuild.registry ++ path ++ after ++ [RP]
  | OtherSource items => source_head ++ items ++ [RP]
  | Checksum value => UpdatePkgbuild.sums_line value
  | Other content => content
  end.

(** The text of a descriptor: its lines, joined by line feeds.  A text that
    ends with a line feed has an empty last line. *)
Definition render (doc : list line) : str := join [NL] (map render_line doc).

(** [x] holds none of the characters [l]. *)
Definition free_of (l : list char) (x : str) : Prop :=
  forallb (none_of l) x = true.

(** A letter or a digit. *)
Definition is_word (c : char) : bool :=
  ((48 <=? c) && (c <=? 57) || (65 <=? c) && (c <=? 90)
   || (97 <=? c) && (c <=? 122))%N.

(** The path of a registry URL: not empty, and ended by a double quote or
    the closing parenthesis. *)
Definition url_path (path : str) : Prop :=
  path <> [] /\ free_of [NL; RP; EQ; COLON; DQ] path.

Definition well_formed_line (l : line) : Prop :=
  match l with
  | Version value => free_of [NL; EQ] value
  | Release value => free_of [NL; EQ] value
  | RegistrySource before path after =>
      free_of [NL; RP; EQ; COLON] before /\
      url_path path /\
      free_of [NL; RP; EQ; COLON] after /\
      (after = [] \/ exists rest, after = DQ :: rest)
  | OtherSource items =>
      free_of [NL; RP; EQ] items /\
      contains UpdatePkgbuild.registry items = false
  | Checksum value => forallb is_word value = true
  | Other content =>
      free_of [NL] content /\
      contains pkgver_head content = false /\
      contains pkgrel_head content = false /\
      contains source_head content = false /\
      contains sums_head content = false
  end.

Definition well_formed (doc : list line) : Prop := Forall well_formed_line doc.

(** The arguments of a run that the well-formed descriptors are closed
    under: a version without line feed, equals sign or backslash, a download
    URL whose part after the last [packages/] is a URL path, and a
    hexadecimal digest. *)
Definition sane_arguments (version : str) (info : UpdatePkgbuild.package_info)
  : Prop :=
  free_of [NL; EQ; BACKSLASH] version /\
  url_path (UpdatePkgbuild.url_suffix (UpdatePkgbuild.info_url info)) /\
  hex (UpdatePkgbuild.info_sha256 info).

(** What each rewrite does to a line. *)
Definition new_value (old new : str) : str :=
  match old with
  | [] => []
  | _ => new
  end.

Definition set_version (version : str) (l : line) : line :=
  match l with
  | Version value => Version (new_value value version)
  | _ => l
  end.

Definition set_release (l : line) : line :=
  match l with
  | Release value => Release (new_value value (lit "1"))
  | _ => l
  end.

Definition set_path (path : str) (l : line) : line :=
  match l with
  | RegistrySource before _ after => RegistrySource before path after
  | _ => l
  end.

Definition is_sentinel (l : line) : bool :=
  match l with
  | Checksum value => str_eqb value (lit "SKIP")
  | _ => false
  end.

Definition is_checksum (l : line) : bool :=
  match l with
  | Checksum _ => true
  | _ => false
  end.

Definition set_sentinel (digest : str) (l : line) : line :=
  if is_sentinel l then Checksum digest else l.

Definition set_checksum (digest : str) (l : line) : line :=
  match l with
  | Checksum _ => Checksum digest
  | _ => l
  end.

(** A source assignment with something between the parentheses. *)
Definition has_items (l : line) : bool :=
  match l with
  | RegistrySource _ _ _ => true
  | OtherSource (_ :: _) => true
  | _ => false
  end.

Fixpoint add_checksum (digest : str) (doc : list line) : list line :=
  match doc with
  | [] => []
  | l :: doc' =>
      if has_items l then l :: Checksum digest :: doc'
      else l :: add_checksum digest doc'
  end.

Definition set_checksums (digest : str) (doc : list line) : list line :=
  if existsb is_sentinel doc then map (set_sentinel digest) doc
  else if existsb is_checksum doc then map (set_checksum digest) doc
  else add_checksum digest doc.

(** The descriptor a run leaves. *)
Definition update (version : str) (info : UpdatePkgbuild.package_info)
           (doc : list line) : list line :=
  set_checksums (UpdatePkgbuild.info_sha256 info)
    (map (set_path (UpdatePkgbuild.url_suffix (UpdatePkgbuild.info_url info)))
       (map set_release (map (set_version version) doc))).

(** Where a descriptor holds the sentinel, its other checksum assignments
    hold the sentinel or the digest. *)
Definition sentinel_alone (digest : str) (doc : list line) : Prop :=
  existsb is_sentinel doc = true ->
  forall value, In (Checksum value) doc ->
                value = lit "SKIP" \/ value = digest.

(** The first three rewrites on a line. *)
Definition set_fields (version path : str) (l : line) : line :=
  set_path path (set_release (set_version version l)).

(** The four openings. *)
Definition openings : list str :=
  [pkgver_head; pkgrel_head; source_head; sums_head].

(** [r] only matches where [head] starts. *)
Definition opens_with (r : regex) (head : str) : Prop :=
  forall s rest g, match_here r s = Some (rest, g) -> exists t, s = head ++ t.

(** The third branch of the checksum rewrite. *)
Definition append_sums (sha256_hash content : str) : str :=
  match search UpdatePkgbuild.re_source content with
  | Some source_line =>
      let insert_pos := m_end source_line in
      firstn insert_pos content
      ++ ([NL] ++ UpdatePkgbuild.sums_line sha256_hash)
      ++ skipn insert_pos content
  | None => content
  end.

(** A descriptor that holds the sentinel below a commented-out checksum. *)
Definition commented_sums_descriptor : str :=
  text [lit "pkgver=1.0.0";
        lit "pkgrel=3";
        lit "# sha256sums=('0f0f')";
        lit "sha256sums=('SKIP')"].

(** [old_descriptor], line by line. *)
Definition old_lines : list line :=
  [Other (lit "pkgname=awscli-local");
   Version (lit "1.0.0");
   Release (lit "3");
   RegistrySource [DQ] (lit "source/a/awscli-local/awscli-local-$pkgver.tar.gz")
                  [DQ];
   Checksum (lit "SKIP");
   Other []].

(** ** Runs of the Descriptor Updater

    The request for the record of release [version]. *)
Definition record_url (version : str) : str :=
  lit "https://pypi.org/pypi/awscli-local/" ++ version ++ lit "/json".

(** Whether the verification stage lets the source distribution [f]
    through: it is switched off, or the artifact downloads and has the
    digest of the record. *)
Definition verified (sha256_hexdigest : list N -> str) (net : remote)
           (args : UpdatePkgbuild.args) (f : file_info) : bool :=
  negb (UpdatePkgbuild.arg_verify args) ||
  match artifact net (file_url f) with
  | Fetched body => str_eqb (digest_sha256 f) (sha256_hexdigest body)
  | Failed _ => false
  end.

(** [a] is the beginning of [b]. *)
Definition extends {A : Type} (a b : list A) : Prop := exists c, b = a ++ c.

(** ** What the Descriptor Updater keeps

    [l'] is [l] up to the value a run sets: the version, the release
    counter, the path of a registry URL or the checksum. *)
Definition same_field (l l' : line) : Prop :=
  match l, l' with
  | Version _, Version _ => True
  | Release _, Release _ => True
  | RegistrySource before _ after, RegistrySource before' _ after' =>
      before = before' /\ after = after'
  | OtherSource items, OtherSource items' => items = items'
  | Checksum _, Checksum _ => True
  | Other content, Other content' => content = content'
  | _, _ => False
  end.

(** The lines of a descriptor that are not checksum lines. *)
Definition without_checksums (doc : list line) : list line :=
  filter (fun l => negb (is_checksum l)) doc.

(** The value of a version line, and of a release line. *)
Definition version_of (l : line) : option str :=
  match l with
  | Version value => Some value
  | _ => None
  end.

Definition release_of (l : line) : option str :=
  match l with
  | Release value => Some value
  | _ => None
  end.

(** What follows the first line in the text of a descriptor. *)
Definition following (doc : list line) : str :=
  match doc with
  | [] => []
  | _ :: _ => NL :: render doc
  end.

(** A descriptor with every field the three scripts read, line by line. *)
Definition full_lines : list line :=
  [Other (lit "pkgname=awscli-local");
   Version (lit "1.0.0");
   Release (lit "3");
   Other (lit "pkgdesc=" ++ [DQ] ++ lit "Thin wrapper around the aws command"
          ++ [DQ]);
   Other (lit "arch=('any')");
   Other (lit "url=" ++ [DQ] ++ lit "https://github.com/localstack/awscli-local"
          ++ [DQ]);
   Other (lit "license=('Apache')");
   Other (lit "depends=('aws-cli')");
   RegistrySource [DQ] (lit "source/a/awscli-local/awscli-local-$pkgver.tar.gz")
                  [DQ];
   Checksum (lit "SKIP");
   Other []].

(** ** Runs of the Metadata Regenerator

    The five patterns [parse_pkgbuild] requires a match of, in the order it
    tries them. *)
Definition required_fields : list GenerateSrcinfo.pattern :=
  [GenerateSrcinfo.word_field "pkgname";
   GenerateSrcinfo.word_field "pkgver";
   GenerateSrcinfo.word_field "pkgrel";
   GenerateSrcinfo.quoted_field "pkgdesc";
   GenerateSrcinfo.quoted_field "url"].

(** Whether a pattern finds nothing in [content]. *)
Definition missing (content : str) (pat : GenerateSrcinfo.pattern) : bool :=
  match search (GenerateSrcinfo.pat_re pat) content with
  | None => true
  | Some _ => false
  end.

(** ** Array items

    An item of an array as it is written: between single quotes, between
    double quotes, or bare. *)
Inductive item : Type :=
| Single (value : str)
| Double (value : str)
| Bare (value : str).

Definition item_text (i : item) : str :=
  match i with
  | Single value => [SQ] ++ value ++ [SQ]
  | Double value => [DQ] ++ value ++ [DQ]
  | Bare value => value
  end.

Definition item_value (i : item) : str :=
  match i with
  | Single value => value
  | Double value => value
  | Bare value => value
  end.

(** An item that can be written that way inside the parentheses: it is not
    empty and holds neither its own quote nor the closing parenthesis; a
    bare item holds no white space and no quote. *)
Definition valid_item (i : item) : Prop :=
  match i with
  | Single value => value <> [] /\ forallb (none_of [SQ; RP]) value = true
  | Double value => value <> [] /\ forallb (none_of [DQ; RP]) value = true
  | Bare value =>
      value <> [] /\ forallb bare_char value = true /\
      forallb (none_of [RP]) value = true
  end.

(** White space that may stand between two items. *)
Definition separator (sep : str) : Prop :=
  sep <> [] /\ forallb is_space sep = true.

(** The groups [re.findall] gives for an item. *)
Definition item_caps (i : item) : caps :=
  match i with
  | Single value => [(1, value)]
  | Double value => [(2, value)]
  | Bare value => [(3, value)]
  end.

(** ** The derived file

    The fields of [info] hold no line feed. *)
Definition one_line (v : str) : Prop := ~ In NL v.

Definition one_line_each (info : GenerateSrcinfo.pkg_info) : Prop :=
  one_line (GenerateSrcinfo.pkgname info) /\
  one_line (GenerateSrcinfo.pkgdesc info) /\
  one_line (GenerateSrcinfo.pkgver info) /\
  one_line (GenerateSrcinfo.pkgrel info) /\
  one_line (GenerateSrcinfo.url info) /\
  Forall one_line (GenerateSrcinfo.arch info) /\
  Forall one_line (GenerateSrcinfo.license info) /\
  Forall one_line (GenerateSrcinfo.depends info) /\
  Forall one_line (GenerateSrcinfo.makedepends info).

(** The lines of the derived file. *)
Definition srcinfo_lines (info : GenerateSrcinfo.pkg_info) : list str :=
  [lit "pkgbase = " ++ GenerateSrcinfo.pkgname info;
   [TAB] ++ lit "pkgdesc = " ++ GenerateSrcinfo.pkgdesc info;
   [TAB] ++ lit "pkgver = " ++ GenerateSrcinfo.pkgver info;
   [TAB] ++ lit "pkgrel = " ++ GenerateSrcinfo.pkgrel info;
   [TAB] ++ lit "url = " ++ GenerateSrcinfo.url info]
  ++ map (app ([TAB] ++ lit "arch = ")) (GenerateSrcinfo.arch info)
  ++ map (app ([TAB] ++ lit "license = ")) (GenerateSrcinfo.license info)
  ++ map (app ([TAB] ++ lit "depends = ")) (GenerateSrcinfo.depends info)
  ++ map (app ([TAB] ++ lit "makedepends = "))
         (GenerateSrcinfo.makedepends info)
  ++ [[]; lit "pkgname = " ++ GenerateSrcinfo.pkgname info].

(** A record as [parse_pkgbuild] returns it. *)
Definition sample_info : GenerateSrcinfo.pkg_info :=
  GenerateSrcinfo.PkgInfo
    (lit "awscli-local") (lit "1.0.0") (lit "1")
    (lit "Thin wrapper around the aws command")
    (lit "https://github.com/localstack/awscli-local")
    [lit "any"] [lit "Apache"] [lit "aws-cli"; lit "python"] [].

(* ================================================================= *)
(** * Properties *)

(** Literals stay folded in goals; they are computed where needed. *)
Arguments lit : simpl never.

(* ----------------------------------------------------------------- *)
(** ** Text *)

Lemma str_eqb_eq (a b : str) : str_eqb a b = true <-> a = b.
Proof.
  revert b; induction a as [|x a IH]; intros [|y b]; simpl;
    try (split; [discriminate | congruence]); try tauto.
  rewrite andb_true_iff, N.eqb_eq, IH. split.
  - intros [-> ->]; reflexivity.
  - intros H; inversion H; auto.
Qed.

Lemma str_eqb_refl (a : str) : str_eqb a a = true.
Proof. apply str_eqb_eq; reflexivity. Qed.

Lemma str_eqb_neq (a b : str) : str_eqb a b = false <-> a <> b.
Proof.
  rewrite <- str_eqb_eq. destruct (str_eqb a b); split; congruence.
Qed.

Lemma strip_prefix_app (l s : str) : strip_prefix l (l ++ s) = Some s.
Proof.
  induction l as [|a l IH]; simpl; [reflexivity|].
  rewrite N.eqb_refl; exact IH.
Qed.

Lemma strip_prefix_Some (l s s' : str) :
  strip_prefix l s = Some s' -> s = l ++ s'.
Proof.
  revert s; induction l as [|a l IH]; intros s; simpl.
  - intros H; inversion H; reflexivity.
  - destruct s as [|c s]; [discriminate|].
    destruct (N.eqb a c) eqn:E; [|discriminate].
    apply N.eqb_eq in E; subst c. intros H; rewrite (IH _ H); reflexivity.
Qed.

Lemma strip_prefix_None (l s : str) :
  strip_prefix l s = None <-> forall s', s <> l ++ s'.
Proof.
  split.
  - intros H s' ->. rewrite strip_prefix_app in H; discriminate.
  - intros H. destruct (strip_prefix l s) eqn:E; [|reflexivity].
    apply strip_prefix_Some in E. destruct (H _ E).
Qed.

Lemma starts_with_true (l s : str) :
  starts_with l s = true <-> exists s', s = l ++ s'.
Proof.
  unfold starts_with. destruct (strip_prefix l s) eqn:E.
  - apply strip_prefix_Some in E. split; eauto.
  - split; [discriminate|]. intros [s' ->].
    rewrite strip_prefix_app in E; discriminate.
Qed.

Lemma starts_with_app (l s : str) : starts_with l (l ++ s) = true.
Proof. apply starts_with_true; eauto. Qed.

Lemma contains_true (needle s : str) :
  contains needle s = true <-> exists a b, s = a ++ needle ++ b.
Proof.
  induction s as [|c s IH]; simpl.
  - rewrite orb_false_r, starts_with_true. split.
    + intros [s' H]. exists [], s'. exact H.
    + intros [a [b H]]. destruct a; simpl in H; [eauto|discriminate].
  - rewrite orb_true_iff, starts_with_true, IH. split.
    + intros [[s' H]|[a [b H]]].
      * exists [], s'. exact H.
      * exists (c :: a), b. rewrite H; reflexivity.
    + intros [[|x a] [b H]]; simpl in H.
      * left; eauto.
      * right. inversion H; subst. eauto.
Qed.

Lemma contains_false (needle s : str) :
  contains needle s = false <-> forall a b, s <> a ++ needle ++ b.
Proof.
  split.
  - intros H a b E. assert (contains needle s = true)
      by (apply contains_true; eauto). congruence.
  - intros H. destruct (contains needle s) eqn:E; [|reflexivity].
    apply contains_true in E. destruct E as [a [b E]]. destruct (H _ _ E).
Qed.

(* ----------------------------------------------------------------- *)
(** ** The matcher *)

Lemma app_same_length (A : Type) (a b c d : list A) :
  a ++ b = c ++ d -> length a = length c -> a = c /\ b = d.
Proof.
  revert c; induction a as [|x a IH]; intros [|y c]; simpl; try discriminate.
  - auto.
  - intros E L. inversion E; subst.
    destruct (IH c) as [-> ->]; auto.
Qed.

(** A greedy repetition followed by [k] succeeds as soon as [k] succeeds
    after some run of class characters. *)
Lemma star_k_complete (p : char -> bool) (k : str -> result) m s' r :
  forallb p m = true -> k s' = Some r ->
  exists r', star_k p (m ++ s') k = Some r'.
Proof.
  intros Pm K. induction m as [|a m IH]; simpl in *.
  - destruct s' as [|d s']; simpl; eauto.
    destruct (p d); eauto. destruct (star_k p s' k); eauto.
  - apply andb_true_iff in Pm as [Pa Pm]. rewrite Pa.
    destruct (IH Pm) as [r' ->]. eauto.
Qed.

(** What it finds: a run of class characters after which [k] succeeds, no
    longer run having that property. *)
Lemma star_k_sound (p : char -> bool) (k : str -> result) s res :
  star_k p s k = Some res ->
  exists m s', s = m ++ s' /\ forallb p m = true /\ k s' = Some res /\
    (forall m2 s2, s = m2 ++ s2 -> forallb p m2 = true ->
                   length m < length m2 -> k s2 = None).
Proof.
  induction s as [|c s IH]; simpl.
  - intros H. exists [], []. repeat split; auto.
    intros m2 s2 E _ L. destruct m2; simpl in *; [lia|discriminate].
  - assert (Stop : k (c :: s) = Some res ->
                   (p c = false \/ star_k p s k = None) ->
                   exists m s', c :: s = m ++ s' /\ forallb p m = true /\
                     k s' = Some res /\
                     (forall m2 s2, c :: s = m2 ++ s2 -> forallb p m2 = true ->
                                    length m < length m2 -> k s2 = None)).
    { intros K Why. exists [], (c :: s). repeat split; auto.
      intros m2 s2 E2 P2 L. destruct m2 as [|c2 m2]; simpl in *; [lia|].
      inversion E2; subst. apply andb_true_iff in P2 as [Pc P2].
      destruct Why as [Why|Why]; [congruence|].
      destruct (k s2) eqn:K2; [|reflexivity].
      destruct (star_k_complete p k m2 s2 _ P2 K2) as [r' X]. congruence. }
    destruct (p c) eqn:Pc; [|auto].
    destruct (star_k p s k) as [r|] eqn:R; [|auto].
    intros H; inversion H; subst r.
    destruct (IH eq_refl) as [m [s' [E [Pm [K Max]]]]].
    exists (c :: m), s'. simpl. rewrite Pc, Pm, E. repeat split; auto.
    intros m2 s2 E2 P2 L. destruct m2 as [|c2 m2]; simpl in *; [lia|].
    inversion E2; subst. apply andb_true_iff in P2 as [_ P2].
    eapply Max; eauto. lia.
Qed.

Lemma star_k_intro (p : char -> bool) (k : str -> result) m s' res :
  forallb p m = true -> k s' = Some res ->
  (forall m2 s2, m ++ s' = m2 ++ s2 -> forallb p m2 = true ->
                 length m < length m2 -> k s2 = None) ->
  star_k p (m ++ s') k = Some res.
Proof.
  intros Pm K Max.
  destruct (star_k_complete p k m s' _ Pm K) as [r' R].
  destruct (star_k_sound _ _ _ _ R) as [m1 [s1 [E [Pm1 [K1 Max1]]]]].
  destruct (Nat.lt_trichotomy (length m) (length m1)) as [L|[L|L]].
  - rewrite (Max m1 s1 E Pm1 L) in K1. discriminate.
  - destruct (app_same_length _ _ _ _ _ E L) as [-> ->]. congruence.
  - rewrite (Max1 m s' eq_refl Pm L) in K. discriminate.
Qed.

(** It fails exactly when [k] fails after every run of class characters. *)
Lemma star_k_None (p : char -> bool) (k : str -> result) s :
  star_k p s k = None <->
  forall m s', s = m ++ s' -> forallb p m = true -> k s' = None.
Proof.
  split.
  - intros H m s' -> Pm. destruct (k s') eqn:K; [|reflexivity].
    destruct (star_k_complete p k m s' _ Pm K) as [r' X]. congruence.
  - intros H. destruct (star_k p s k) eqn:R; [|reflexivity].
    destruct (star_k_sound _ _ _ _ R) as [m [s' [E [Pm [K _]]]]].
    rewrite (H m s' E Pm) in K. discriminate.
Qed.

(** The continuation is only ever called on what is left of the text after
    a matched prefix, which is not empty unless the pattern is nullable. *)
Lemma run_split (r : regex) : forall s g k res,
  run r s g k = Some res ->
  exists m s' g', s = m ++ s' /\ (nullable r = false -> m <> []) /\
                  k s' g' = Some res.
Proof.
  induction r as [l|p|p|r1 IH1 r2 IH2|r1 IH1 r2 IH2|n r1 IH1];
    intros s g k res; simpl.
  - destruct (strip_prefix l s) as [s'|] eqn:E; [|discriminate].
    apply strip_prefix_Some in E. intros K. exists l, s', g.
    repeat split; auto. destruct l; [discriminate|]. intros _ X; discriminate.
  - intros H. apply star_k_sound in H as [m [s' [E [_ [K _]]]]].
    exists m, s', g. repeat split; auto. discriminate.
  - destruct s as [|c s]; [discriminate|]. destruct (p c); [|discriminate].
    intros H. apply star_k_sound in H as [m [s' [E [_ [K _]]]]].
    exists (c :: m), s', g. subst s. repeat split; auto. intros _ X; discriminate.
  - intros H. apply IH1 in H as [m1 [s1 [g1 [E1 [N1 H]]]]].
    apply IH2 in H as [m2 [s2 [g2 [E2 [N2 H]]]]].
    exists (m1 ++ m2), s2, g2. subst. rewrite app_assoc. repeat split; auto.
    intros N X. apply app_eq_nil in X as [-> ->].
    apply andb_false_iff in N as [N|N]; [apply N1 in N|apply N2 in N];
      congruence.
  - destruct (run r1 s g k) eqn:R1.
    + intros H; inversion H; subst.
      apply IH1 in R1 as [m [s' [g' [E [N K]]]]].
      exists m, s', g'. repeat split; auto.
      intros X. apply orb_false_iff in X as [X _]. auto.
    + intros H. apply IH2 in H as [m [s' [g' [E [N K]]]]].
      exists m, s', g'. repeat split; auto.
      intros X. apply orb_false_iff in X as [_ X]. auto.
  - intros H. apply IH1 in H as [m [s' [g' [E [N K]]]]]. eauto 8.
Qed.

Lemma match_here_split (r : regex) s rest g :
  match_here r s = Some (rest, g) ->
  exists m, s = m ++ rest /\ (nullable r = false -> m <> []).
Proof.
  unfold match_here. intros H.
  apply run_split in H as [m [s' [g' [E [N K]]]]].
  inversion K; subst. eauto.
Qed.

Lemma firstn_length_app (m rest : str) :
  firstn (length (m ++ rest) - length rest) (m ++ rest) = m.
Proof.
  rewrite length_app, Nat.add_sub, firstn_app, Nat.sub_diag, firstn_all.
  simpl. apply app_nil_r.
Qed.

(* ----------------------------------------------------------------- *)
(** ** [re.search] *)

Lemma no_match_in_nil (r : regex) post : no_match_in r [] post.
Proof.
  intros a b E N. symmetry in E. apply app_eq_nil in E as [_ ->].
  congruence.
Qed.

Lemma no_match_in_cons (r : regex) c pre post :
  no_match_in r (c :: pre) post ->
  match_here r (c :: pre ++ post) = None /\ no_match_in r pre post.
Proof.
  intros H. split.
  - apply (H [] (c :: pre)); [reflexivity|discriminate].
  - intros a b E N. apply (H (c :: a) b); [rewrite E; reflexivity|exact N].
Qed.

Lemma search_unfold (r : regex) s :
  search r s =
  match match_here r s with
  | Some (rest, g) =>
      Some (MatchObj [] (firstn (length s - length rest) s) rest g)
  | None =>
      match s with
      | [] => None
      | c :: s' => option_map (shift c) (search r s')
      end
  end.
Proof. destruct s; reflexivity. Qed.

Lemma search_here (r : regex) m rest g :
  match_here r (m ++ rest) = Some (rest, g) ->
  search r (m ++ rest) = Some (MatchObj [] m rest g).
Proof.
  intros H. rewrite search_unfold, H, firstn_length_app. reflexivity.
Qed.

Lemma search_skip (r : regex) pre post :
  no_match_in r pre post ->
  search r (pre ++ post) = option_map (move pre) (search r post).
Proof.
  induction pre as [|c pre IH]; intros H.
  - simpl. destruct (search r post) as [[? ? ? ?]|]; reflexivity.
  - apply no_match_in_cons in H as [H0 H]. simpl. rewrite H0, (IH H).
    destruct (search r post) as [[? ? ? ?]|]; reflexivity.
Qed.

(** The match [re.search] returns, given where the first match is. *)
Lemma search_first (r : regex) pre m rest g :
  no_match_in r pre (m ++ rest) ->
  match_here r (m ++ rest) = Some (rest, g) ->
  search r (pre ++ m ++ rest) = Some (MatchObj pre m rest g).
Proof.
  intros H M. rewrite (search_skip _ _ _ H), (search_here _ _ _ _ M).
  unfold move; simpl. rewrite app_nil_r. reflexivity.
Qed.

Lemma search_None (r : regex) s :
  search r s = None <-> forall a b, s = a ++ b -> match_here r b = None.
Proof.
  induction s as [|c s IH]; simpl.
  - destruct (match_here r []) as [[rest g]|] eqn:M.
    + split; [discriminate|]. intros H. rewrite (H [] [] eq_refl) in M; discriminate.
    + split; [|reflexivity]. intros _ a b E.
      symmetry in E; apply app_eq_nil in E as [_ ->]. exact M.
  - destruct (match_here r (c :: s)) as [[rest g]|] eqn:M.
    + split; [discriminate|]. intros H. rewrite (H [] (c :: s) eq_refl) in M; discriminate.
    + destruct (search r s) as [m|] eqn:S; simpl.
      * split; [discriminate|]. intros H.
        assert (X : Some m = None); [|discriminate].
        apply IH. intros a b E. apply (H (c :: a) b). rewrite E; reflexivity.
      * split; [|reflexivity]. intros _ [|x a] b E; simpl in E.
        -- subst b. exact M.
        -- inversion E; subst. destruct IH as [IH _]. eapply IH; eauto.
Qed.

(** What a match returned by [re.search] says about the text. *)
Lemma search_Some (r : regex) s m :
  search r s = Some m ->
  s = m_pre m ++ m_text m ++ m_post m /\
  match_here r (m_text m ++ m_post m) = Some (m_post m, m_groups m) /\
  no_match_in r (m_pre m) (m_text m ++ m_post m).
Proof.
  revert m; induction s as [|c s IH]; intros m; rewrite search_unfold.
  - destruct (match_here r []) as [[rest g]|] eqn:M; [|discriminate].
    intros [= <-]; cbn [m_pre m_text m_post m_groups].
    destruct (match_here_split _ _ _ _ M) as [x [E _]].
    symmetry in E; apply app_eq_nil in E as [-> ->]. simpl.
    repeat split; auto. apply no_match_in_nil.
  - destruct (match_here r (c :: s)) as [[rest g]|] eqn:M.
    + destruct (match_here_split _ _ _ _ M) as [x [E _]].
      rewrite E in M |- *. rewrite firstn_length_app.
      intros [= <-]; cbn [m_pre m_text m_post m_groups].
      repeat split; auto. apply no_match_in_nil.
    + destruct (search r s) as [m'|] eqn:S; [|discriminate].
      intros [= <-]; cbn [shift m_pre m_text m_post m_groups].
      destruct (IH m' eq_refl) as [E [M' N]].
      repeat split; auto.
      * rewrite E at 1. reflexivity.
      * intros [|x a] b Eb Nb; simpl in Eb.
        -- subst b. simpl. rewrite <- E. exact M.
        -- inversion Eb; subst. eapply N; eauto.
Qed.

Lemma m_end_split (m : match_obj) s :
  s = m_pre m ++ m_text m ++ m_post m ->
  firstn (m_end m) s = m_pre m ++ m_text m /\ skipn (m_end m) s = m_post m.
Proof.
  intros ->. unfold m_end. rewrite app_assoc, <- length_app. split.
  - rewrite firstn_app, Nat.sub_diag, firstn_all. simpl. apply app_nil_r.
  - rewrite skipn_app, Nat.sub_diag, skipn_all. reflexivity.
Qed.

(* ----------------------------------------------------------------- *)
(** ** [re.sub] *)

Lemma sub_aux_skip (r : regex) f : forall k s,
  k <= length s -> sub_aux r f k s = sub_aux r f 0 (skipn k s).
Proof.
  induction k as [|k IH]; intros s L; [reflexivity|].
  destruct s as [|c s]; simpl in *; [lia|].
  apply IH. lia.
Qed.

Lemma sub_nil (r : regex) f : match_here r [] = None -> sub r f [] = [].
Proof. unfold sub; simpl. intros ->. reflexivity. Qed.

Lemma sub_no_match (r : regex) f c s :
  match_here r (c :: s) = None -> sub r f (c :: s) = c :: sub r f s.
Proof. unfold sub; simpl. intros ->. reflexivity. Qed.

Lemma sub_cons_unfold (r : regex) f c s :
  sub r f (c :: s) =
  match match_here r (c :: s) with
  | Some (rest, g) =>
      let n := length (c :: s) - length rest in
      let m := MatchObj [] (firstn n (c :: s)) rest g in
      match n with
      | O => f m ++ c :: sub_aux r f 0 s
      | S k => f m ++ sub_aux r f k s
      end
  | None => c :: sub r f s
  end.
Proof. reflexivity. Qed.

Lemma sub_match (r : regex) f m rest g :
  m <> [] ->
  match_here r (m ++ rest) = Some (rest, g) ->
  sub r f (m ++ rest) = f (MatchObj [] m rest g) ++ sub r f rest.
Proof.
  intros N M. destruct m as [|c m]; [congruence|].
  change ((c :: m) ++ rest) with (c :: (m ++ rest)) in *.
  rewrite sub_cons_unfold, M. cbv zeta.
  assert (L : length (c :: m ++ rest) - length rest = S (length m))
    by (change (length (c :: m ++ rest)) with (S (length (m ++ rest)));
        rewrite length_app; lia).
  assert (F : firstn (S (length m)) (c :: m ++ rest) = c :: m).
  { simpl. f_equal. rewrite firstn_app, Nat.sub_diag, firstn_all. simpl.
    apply app_nil_r. }
  rewrite L, F. f_equal.
  rewrite sub_aux_skip by (rewrite length_app; lia).
  rewrite skipn_app, Nat.sub_diag, skipn_all. reflexivity.
Qed.

Lemma sub_skip (r : regex) f pre post :
  no_match_in r pre post ->
  post <> [] \/ match_here r [] = None ->
  sub r f (pre ++ post) = pre ++ sub r f post.
Proof.
  induction pre as [|c pre IH]; intros H E; [reflexivity|].
  apply no_match_in_cons in H as [H0 H].
  simpl app. rewrite sub_no_match by exact H0. rewrite IH; auto.
Qed.

(** A text in which the pattern matches nowhere is left as it is. *)
Lemma sub_id (r : regex) f s :
  search r s = None -> sub r f s = s.
Proof.
  intros H. rewrite search_None in H.
  induction s as [|c s IH].
  - apply sub_nil. apply (H [] []); reflexivity.
  - rewrite sub_no_match by (apply (H [] (c :: s)); reflexivity).
    rewrite IH; auto. intros a b E. apply (H (c :: a) b).
    rewrite E; reflexivity.
Qed.

(* ----------------------------------------------------------------- *)
(** ** Runs of a character class *)

Lemma stops_dec (p : char -> bool) rest :
  stops p rest \/ exists c r, rest = c :: r /\ p c = true.
Proof.
  destruct rest as [|c r]; [left; left; reflexivity|].
  destruct (p c) eqn:E; [right|left; right]; eauto.
Qed.

Lemma longer_run (p : char -> bool) x rest m2 s2 :
  x ++ rest = m2 ++ s2 -> forallb p m2 = true -> length x < length m2 ->
  exists c r, rest = c :: r /\ p c = true.
Proof.
  revert m2; induction x as [|a x IH]; intros [|b m2] E P L;
    simpl in *; try lia.
  - subst rest. apply andb_true_iff in P as [P _]. eauto.
  - inversion E; subst. apply andb_true_iff in P as [_ P].
    eapply IH; eauto. lia.
Qed.

Lemma stops_no_longer_run (p : char -> bool) x rest m2 s2 :
  stops p rest -> x ++ rest = m2 ++ s2 -> forallb p m2 = true ->
  length m2 <= length x.
Proof.
  intros St E P. destruct (Nat.le_gt_cases (length m2) (length x)); auto.
  destruct (longer_run _ _ _ _ _ E P) as [c [r [-> Pc]]]; auto.
  destruct St as [St|[c' [r' [St Pc']]]]; [discriminate|].
  inversion St; subst. congruence.
Qed.

Lemma app_split_le (A : Type) (x rest m s' : list A) :
  x ++ rest = m ++ s' -> length m <= length x ->
  exists b, x = m ++ b /\ s' = b ++ rest.
Proof.
  revert m; induction x as [|a x IH]; intros [|b m] E L; simpl in *;
    try lia.
  - exists []; auto.
  - exists (a :: x); auto.
  - inversion E; subst. destruct (IH m) as [b' [-> ->]]; auto; try lia.
    eauto.
Qed.

(** A maximal run after which [k] succeeds is the one taken. *)
Lemma star_k_max (p : char -> bool) x rest k res :
  forallb p x = true -> stops p rest -> k rest = Some res ->
  star_k p (x ++ rest) k = Some res.
Proof.
  intros P St K. apply star_k_intro; auto.
  intros m2 s2 E P2 L.
  pose proof (stops_no_longer_run _ _ _ _ _ St E P2). lia.
Qed.

(** If [k] fails wherever a maximal run can be cut, the repetition fails. *)
Lemma star_k_max_None (p : char -> bool) x rest k :
  stops p rest ->
  (forall a b, x = a ++ b -> k (b ++ rest) = None) ->
  star_k p (x ++ rest) k = None.
Proof.
  intros St K. apply star_k_None. intros m s' E P.
  pose proof (stops_no_longer_run _ _ _ _ _ St E P) as L.
  destruct (app_split_le _ _ _ _ _ E L) as [b [-> ->]]. eauto.
Qed.

Lemma star_k_inv_total (p : char -> bool) s k res :
  (forall s', k s' <> None) ->
  star_k p s k = Some res ->
  exists x rest, s = x ++ rest /\ forallb p x = true /\ stops p rest /\
                 k rest = Some res.
Proof.
  intros Tot H. apply star_k_sound in H as [m [s' [E [P [K Max]]]]].
  exists m, s'. repeat split; auto.
  destruct (stops_dec p s') as [St|[c [r [-> Pc]]]]; auto.
  exfalso. apply (Tot r). apply (Max (m ++ [c]) r).
  - rewrite E, <- app_assoc. reflexivity.
  - rewrite forallb_app, P. simpl. rewrite Pc. reflexivity.
  - rewrite length_app. simpl. lia.
Qed.

Lemma run_seq (r1 r2 : regex) s g k :
  run (Seq r1 r2) s g k = run r1 s g (fun s' g' => run r2 s' g' k).
Proof. reflexivity. Qed.

Lemma run_grp n (r : regex) s g k :
  run (Grp n r) s g k
  = run r s g (fun s' g' => k s' ((n, firstn (length s - length s') s) :: g')).
Proof. reflexivity. Qed.

Lemma run_lit (l s : str) g k : run (Lit l) (l ++ s) g k = k s g.
Proof. simpl. rewrite strip_prefix_app. reflexivity. Qed.

Lemma run_lit_inv (l s : str) g k res :
  run (Lit l) s g k = Some res -> exists s', s = l ++ s' /\ k s' g = Some res.
Proof.
  simpl. destruct (strip_prefix l s) as [s'|] eqn:E; [|discriminate].
  apply strip_prefix_Some in E. eauto.
Qed.

Lemma run_lit_None (l s : str) g k :
  (forall s', s <> l ++ s') -> run (Lit l) s g k = None.
Proof.
  intros H. simpl. destruct (strip_prefix l s) as [s'|] eqn:E; auto.
  apply strip_prefix_Some in E. destruct (H _ E).
Qed.

Lemma run_plus_max (p : char -> bool) x rest g k res :
  x <> [] -> forallb p x = true -> stops p rest -> k rest g = Some res ->
  run (Plus p) (x ++ rest) g k = Some res.
Proof.
  intros N P St K. destruct x as [|c x]; [congruence|]. simpl in *.
  apply andb_true_iff in P as [Pc P]. rewrite Pc.
  apply star_k_max; auto.
Qed.

Lemma run_plus_inv_total (p : char -> bool) s g k res :
  (forall s', k s' g <> None) ->
  run (Plus p) s g k = Some res ->
  exists x rest, s = x ++ rest /\ x <> [] /\ forallb p x = true /\
                 stops p rest /\ k rest g = Some res.
Proof.
  intros Tot. simpl. destruct s as [|c s]; [discriminate|].
  destruct (p c) eqn:Pc; [|discriminate]. intros H.
  apply star_k_inv_total in H as [x [rest [E [P [St K]]]]]; auto.
  exists (c :: x), rest. subst s. simpl. rewrite Pc, P.
  repeat split; auto. discriminate.
Qed.

(** A literal followed by a captured maximal run: the shape of
    [name=(.+)] and [name=([^\s]+)]. *)
Lemma match_lit_run (l : str) n (p : char -> bool) x rest :
  x <> [] -> forallb p x = true -> stops p rest ->
  match_here (Seq (Lit l) (Grp n (Plus p))) (l ++ x ++ rest)
  = Some (rest, [(n, x)]).
Proof.
  intros N P St. unfold match_here.
  rewrite run_seq, run_lit, run_grp.
  apply run_plus_max; auto. rewrite firstn_length_app. reflexivity.
Qed.

Lemma match_lit_run_inv (l : str) n (p : char -> bool) s rest g :
  match_here (Seq (Lit l) (Grp n (Plus p))) s = Some (rest, g) ->
  exists x, s = l ++ x ++ rest /\ x <> [] /\ forallb p x = true /\
            stops p rest /\ g = [(n, x)].
Proof.
  unfold match_here. cbn [run]. intros H.
  destruct (strip_prefix l s) as [s1|] eqn:E; [|discriminate].
  apply strip_prefix_Some in E. subst s.
  apply (run_plus_inv_total p s1 []
           (fun s'' g' =>
              Some (s'', (n, firstn (length s1 - length s'') s1) :: g')))
    in H; [|discriminate].
  destruct H as [x [r [E [N [P [St K]]]]]]. inversion K; subst.
  rewrite firstn_length_app. eauto 10.
Qed.

Lemma match_lit_run_None (l : str) n (p : char -> bool) s :
  match_here (Seq (Lit l) (Grp n (Plus p))) s = None <->
  forall c t, s = l ++ c :: t -> p c = false.
Proof.
  split.
  - intros H c t ->. destruct (p c) eqn:Pc; [|reflexivity].
    exfalso. revert H. unfold match_here. cbn [run].
    rewrite strip_prefix_app, Pc.
    intros H. rewrite star_k_None in H.
    specialize (H [] t eq_refl eq_refl). discriminate.
  - intros H. unfold match_here. cbn [run].
    destruct (strip_prefix l s) as [s1|] eqn:E; [|reflexivity].
    apply strip_prefix_Some in E. destruct s1 as [|c t]; [reflexivity|].
    rewrite (H c t E). reflexivity.
Qed.

(* ================================================================= *)
(** ** The Version Checker *)

Module CheckVersionFacts.
Import CheckVersion.

Lemma dot_run (x : str) : ~ In NL x <-> forallb dot x = true.
Proof.
  rewrite forallb_forall. unfold dot. split.
  - intros H c Hc. apply negb_true_iff, N.eqb_neq. intros ->. auto.
  - intros H Hin. apply H in Hin. rewrite N.eqb_refl in Hin. discriminate.
Qed.

Lemma dot_false (c : char) : dot c = false <-> c = NL.
Proof. unfold dot. rewrite negb_false_iff. apply N.eqb_eq. Qed.

Lemma line_end_stops (rest : str) : line_end rest <-> stops dot rest.
Proof.
  unfold line_end, stops. split; (intros [H|H]; [left; exact H|right]).
  - destruct H as [r ->]. exists NL, r. split; reflexivity.
  - destruct H as [c [r [-> H]]]. apply dot_false in H. subst. eauto.
Qed.

(** The pattern finds nothing exactly in the texts without a readable
    version field. *)
Lemma search_pkgver_None (content : str) :
  search re_pkgver content = None <-> ~ has_pkgver content.
Proof.
  rewrite search_None. unfold has_pkgver, re_pkgver. cbn [seq]. split.
  - intros H [a [c [t [E Nc]]]].
    specialize (H a _ E). rewrite match_lit_run_None in H.
    apply Nc, dot_false. eapply H. reflexivity.
  - intros H a b E. apply match_lit_run_None. intros c t Eb.
    apply dot_false. destruct (N.eq_dec c NL) as [|Nc]; auto.
    exfalso. apply H. exists a, c, t. subst. auto.
Qed.

(** What a found match holds. *)
Lemma search_pkgver_Some (content : str) m :
  search re_pkgver content = Some m ->
  exists X, pkgver_line content (m_pre m) X (m_post m) /\
            group m 1 = Some X /\
            no_pkgver_before content (length (m_pre m)).
Proof.
  intros H. apply search_Some in H as [E [M N]].
  unfold re_pkgver in M, N. cbn [seq] in M, N.
  apply match_lit_run_inv in M as [X [Et [NX [PX [St G]]]]].
  exists X. unfold pkgver_line, group. rewrite G. simpl.
  assert (Ec : content = m_pre m ++ lit "pkgver=" ++ X ++ m_post m)
    by (rewrite E, Et; reflexivity).
  repeat split; auto.
  - apply dot_run; exact PX.
  - apply line_end_stops; exact St.
  - intros i t Li Ei.
    assert (Sp : m_pre m = firstn i (m_pre m) ++ skipn i (m_pre m))
      by (symmetry; apply firstn_skipn).
    assert (Nb : skipn i (m_pre m) <> []).
    { intros X0. apply (f_equal (@length _)) in X0.
      rewrite length_skipn in X0. simpl in X0. lia. }
    specialize (N _ _ Sp Nb). rewrite match_lit_run_None in N.
    rewrite E, skipn_app in Ei.
    replace (i - length (m_pre m)) with 0 in Ei by lia. simpl in Ei.
    destruct t as [|c t]; [left; reflexivity|].
    right. exists t. f_equal. apply dot_false. eapply N. exact Ei.
Qed.

Lemma get_current_version_found w content m :
  pkgbuild w = Some content ->
  search re_pkgver content = Some m ->
  get_current_version w = (Returned (group m 1), w).
Proof.
  intros Hw Hs. unfold get_current_version, bind, read_pkgbuild.
  rewrite Hw, Hs. reflexivity.
Qed.

Lemma get_current_version_inv w current :
  fst (get_current_version w) = Returned (Some current) ->
  get_current_version w = (Returned (Some current), w) /\ current <> [] /\
  exists content, pkgbuild w = Some content /\ has_pkgver content.
Proof.
  unfold get_current_version, bind, read_pkgbuild.
  destruct (pkgbuild w) as [content|] eqn:Hw; [|simpl; discriminate].
  destruct (search re_pkgver content) as [m|] eqn:Hs; [|simpl; discriminate].
  simpl. intros [= G]. rewrite G.
  destruct (search_pkgver_Some _ _ Hs) as [X [[E [NX [NN _]]] [GX _]]].
  assert (X = current) by congruence. subst X.
  repeat split; auto. exists content. split; auto.
  destruct current as [|c t]; [congruence|].
  exists (m_pre m), c, (t ++ m_post m). split; [exact E|].
  intros ->. apply NN. left; reflexivity.
Qed.

Lemma no_pkgver_before_no_match content pre rest :
  content = pre ++ rest ->
  no_pkgver_before content (length pre) ->
  no_match_in re_pkgver pre rest.
Proof.
  intros E H a b Ea Nb. unfold re_pkgver. cbn [seq].
  apply match_lit_run_None. intros c t Eb. apply dot_false.
  assert (L : length a < length pre).
  { rewrite Ea, length_app. destruct b; [congruence|simpl; lia]. }
  assert (Sk : skipn (length a) content = lit "pkgver=" ++ c :: t).
  { rewrite E, Ea, <- app_assoc, skipn_app, Nat.sub_diag, skipn_all.
    simpl. exact Eb. }
  destruct (H _ _ L Sk) as [X|[r X]]; [discriminate|].
  inversion X; reflexivity.
Qed.

(** C5, as amended: when the text holds the line part [pkgver=X] and every
    earlier [pkgver=] in it ends its line, [get_current_version] returns
    exactly [X] and leaves the process state as it was. *)
Theorem get_current_version_first_line w content pre X post :
  pkgbuild w = Some content ->
  pkgver_line content pre X post ->
  no_pkgver_before content (length pre) ->
  get_current_version w = (Returned (Some X), w).
Proof.
  intros Hw [E [NX [NN LE]]] Hno.
  assert (M : match_here re_pkgver ((lit "pkgver=" ++ X) ++ post)
              = Some (post, [(1, X)])).
  { rewrite <- app_assoc. apply match_lit_run; auto.
    - apply dot_run; exact NN.
    - apply line_end_stops; exact LE. }
  assert (S : search re_pkgver content
              = Some (MatchObj pre (lit "pkgver=" ++ X) post [(1, X)])).
  { assert (E' : content = pre ++ (lit "pkgver=" ++ X) ++ post)
      by (rewrite E, <- app_assoc; reflexivity).
    rewrite E'. apply search_first; auto.
    apply no_pkgver_before_no_match with (content := content); auto. }
  rewrite (get_current_version_found _ _ _ Hw S). reflexivity.
Qed.

Lemma get_current_version_first_line_witness :
  get_current_version (descriptor plain_descriptor)
  = (Returned (Some (lit "1.0.0")), descriptor plain_descriptor).
Proof.
  apply (get_current_version_first_line
           (descriptor plain_descriptor) plain_descriptor
           (text [lit "pkgname=awscli-local"]) (lit "1.0.0")
           (NL :: text [lit "pkgrel=1"])).
  - reflexivity.
  - repeat split.
    + discriminate.
    + vm_compute. intuition discriminate.
    + right. eexists. reflexivity.
  - intros i t Li. vm_compute in Li.
    do 21 (destruct i as [|i]; [vm_compute; discriminate|]).
    lia.
Defined.

(** C5, as stated, fails: the text below holds the line [pkgver=1.0.0],
    yet the version read from it is the [0.9.0] of the comment above
    that line. *)
Lemma later_pkgver_line_not_extracted :
  ~ (forall w content pre X post,
        pkgbuild w = Some content ->
        pkgver_line content pre X post ->
        fst (get_current_version w) = Returned (Some X)).
Proof.
  intros H.
  specialize (H (descriptor commented_descriptor) commented_descriptor
                (text [lit "# previous release: pkgver=0.9.0"])
                (lit "1.0.0") (NL :: text [lit "pkgrel=1"]) eq_refl).
  assert (L : pkgver_line commented_descriptor
                (text [lit "# previous release: pkgver=0.9.0"])
                (lit "1.0.0") (NL :: text [lit "pkgrel=1"])).
  { repeat split.
    - discriminate.
    - vm_compute. intuition discriminate.
    - right. eexists. reflexivity. }
  specialize (H L). vm_compute in H. discriminate.
Qed.


Lemma get_current_version_missing w :
  pkgbuild w = None ->
  fst (get_current_version w) = Returned None /\
  requests (snd (get_current_version w)) = requests w.
Proof.
  intros Hw. unfold get_current_version, bind, read_pkgbuild.
  rewrite Hw. split; reflexivity.
Qed.

Lemma get_current_version_no_field w content :
  pkgbuild w = Some content -> ~ has_pkgver content ->
  fst (get_current_version w) = Returned None /\
  requests (snd (get_current_version w)) = requests w.
Proof.
  intros Hw Hn. apply search_pkgver_None in Hn.
  unfold get_current_version, bind, read_pkgbuild.
  rewrite Hw, Hn. split; reflexivity.
Qed.

Lemma str_neq_nil_truthy (v : str) : v <> [] -> truthy (Some v) = true.
Proof. destruct v; [congruence|reflexivity]. Qed.

(** Equality of Python strings is equality of their code points. *)
Lemma needs_update_spec (current latest : str) :
  negb (str_eqb current latest) = true <-> current <> latest.
Proof. rewrite negb_true_iff. apply str_eqb_neq. Qed.

(** What [main] does once both versions are there. *)
Lemma main_compares net w current latest :
  fst (get_current_version w) = Returned (Some current) ->
  latest_record net = Fetched latest -> latest <> [] ->
  let needs_update := negb (str_eqb current latest) in
  main net w =
  (Returned tt,
   World (pkgbuild w) (pkgbuild_write_error w) (srcinfo w)
         (srcinfo_write_error w) (github_output w)
         (output_file w
          ++ (if truthy (github_output w)
              then report current latest needs_update else []))
         (console w ++ console_report current latest needs_update)
         (requests w ++ [lit "https://pypi.org/pypi/awscli-local/json"])).
Proof.
  intros Hc Hl Nl.
  destruct (get_current_version_inv _ _ Hc) as [Hg [Nc _]].
  unfold main, bind. rewrite Hg.
  rewrite (str_neq_nil_truthy _ Nc). cbn [negb the].
  unfold get_latest_version, bind, http_get. rewrite Hl.
  cbn [ret]. rewrite (str_neq_nil_truthy _ Nl). cbn [negb the].
  unfold set_github_output, bind, getenv_github_output, print,
    append_output, ret, report, console_report, text.
  destruct (github_output w) as [[|c p]|]; destruct (str_eqb current latest);
    cbn -[lit]; rewrite <- ?app_assoc, ?app_nil_r; reflexivity.
Qed.




(** The examples of the specification, and two that an ordering of
    versions would treat differently: an older release on the index and a
    difference of case. *)
Example same_version_needs_no_update :
  final (main (index_at (lit "1.0.0")) (World (Some plain_descriptor) None
                 None None (Some (lit "out")) [] [] []))
  = World (Some plain_descriptor) None None None (Some (lit "out"))
          (report (lit "1.0.0") (lit "1.0.0") false)
          (console_report (lit "1.0.0") (lit "1.0.0") false)
          [lit "https://pypi.org/pypi/awscli-local/json"].
Proof. reflexivity. Qed.

Example newer_version_needs_update :
  output_file (final (main (index_at (lit "1.1.0"))
                 (World (Some plain_descriptor) None None None
                        (Some (lit "out")) [] [] [])))
  = report (lit "1.0.0") (lit "1.1.0") true.
Proof. reflexivity. Qed.

Example older_version_needs_update :
  output_file (final (main (index_at (lit "0.9.0"))
                 (World (Some plain_descriptor) None None None
                        (Some (lit "out")) [] [] [])))
  = report (lit "1.0.0") (lit "0.9.0") true.
Proof. reflexivity. Qed.

Example case_matters :
  output_file (final (main (index_at (lit "1.0.0RC1"))
                 (World (Some (text [lit "pkgver=1.0.0rc1"])) None None None
                        (Some (lit "out")) [] [] [])))
  = report (lit "1.0.0rc1") (lit "1.0.0RC1") true.
Proof. reflexivity. Qed.

Lemma has_pkgver_read w content :
  pkgbuild w = Some content -> has_pkgver content ->
  exists current, fst (get_current_version w) = Returned (Some current).
Proof.
  intros Hw Hp. destruct (search re_pkgver content) as [m|] eqn:Hs.
  - rewrite (get_current_version_found _ _ _ Hw Hs).
    destruct (search_pkgver_Some _ _ Hs) as [X [_ [G _]]].
    exists X. rewrite G. reflexivity.
  - apply search_pkgver_None in Hs. contradiction.
Qed.

Lemma main_not_read net w :
  fst (get_current_version w) = Returned None ->
  requests (snd (get_current_version w)) = requests w ->
  exit_status (main net w) = 1%Z /\
  requests (final (main net w)) = requests w.
Proof.
  intros Hf Hr. unfold main, bind, exit_status, final.
  destruct (get_current_version w) as [o w']. simpl in Hf, Hr. subst o.
  simpl. auto.
Qed.

Lemma main_not_answered net w current :
  fst (get_current_version w) = Returned (Some current) ->
  (exists e, latest_record net = Failed e) \/ latest_record net = Fetched [] ->
  exit_status (main net w) = 1%Z /\
  requests (final (main net w))
  = requests w ++ [lit "https://pypi.org/pypi/awscli-local/json"].
Proof.
  intros Hc Hl.
  destruct (get_current_version_inv _ _ Hc) as [Hg [Nc _]].
  unfold main, bind, exit_status, final. rewrite Hg.
  rewrite (str_neq_nil_truthy _ Nc). cbn [negb the].
  unfold get_latest_version, bind, http_get.
  destruct Hl as [[e ->]| ->]; simpl; auto.
Qed.



End CheckVersionFacts.

(* ================================================================= *)
(** ** The Metadata Regenerator *)

Module GenerateSrcinfoFacts.
Import GenerateSrcinfo.

Lemma printed_nil w : printed w [] = w.
Proof. destruct w. unfold printed. simpl. rewrite app_nil_r. reflexivity. Qed.

Lemma printed_printed w a b : printed (printed w a) b = printed w (a ++ b).
Proof. unfold printed. simpl. rewrite app_assoc. reflexivity. Qed.

Lemma print_printed w line : print line w = (Returned tt, printed w [line]).
Proof. reflexivity. Qed.

Lemma extract_field_spec content pat w :
  extract_field content pat true w
  = (Returned (field_value content pat),
     printed w (field_errors content pat)).
Proof.
  unfold extract_field, field_value, field_errors.
  destruct (search (pat_re pat) content).
  - unfold ret. rewrite printed_nil. reflexivity.
  - reflexivity.
Qed.

Lemma parse_pkgbuild_spec w content :
  pkgbuild w = Some content ->
  parse_pkgbuild w
  = (Returned (parsed content), printed w (parse_errors content)).
Proof.
  intros Hw. unfold parse_pkgbuild, bind at 1, read_pkgbuild. rewrite Hw.
  unfold bind. rewrite !extract_field_spec, !printed_printed.
  unfold parsed, parse_errors.
  destruct (forallb truthy _); reflexivity.
Qed.

Lemma parse_pkgbuild_missing w :
  pkgbuild w = None ->
  parse_pkgbuild w
  = (Returned None, printed w [lit "ERROR: PKGBUILD file not found"]).
Proof.
  intros Hw. unfold parse_pkgbuild, bind, read_pkgbuild. rewrite Hw.
  reflexivity.
Qed.

Lemma join_app (sep : str) (ls ms : list str) :
  ls <> [] -> ms <> [] ->
  join sep (ls ++ ms) = join sep ls ++ sep ++ join sep ms.
Proof.
  intros Nl Nm. induction ls as [|l ls IH]; [congruence|].
  destruct ls as [|l' ls].
  - destruct ms; [congruence|]. reflexivity.
  - change (join sep ((l :: l' :: ls) ++ ms))
      with (l ++ sep ++ join sep ((l' :: ls) ++ ms)).
    rewrite IH by discriminate.
    change (join sep (l :: l' :: ls)) with (l ++ sep ++ join sep (l' :: ls)).
    rewrite <- !app_assoc. reflexivity.
Qed.

(** The derived text is the header block, an empty line, the package-name
    trailer and a final line feed. *)
Lemma generate_srcinfo_trailer info :
  generate_srcinfo info
  = header info ++ [NL; NL] ++ lit "pkgname = " ++ pkgname info ++ [NL].
Proof.
  unfold generate_srcinfo, header.
  rewrite !app_assoc. rewrite join_app; [|discriminate|discriminate].
  rewrite <- !app_assoc. reflexivity.
Qed.

(** What a run does, by cases. *)
Lemma main_spec w :
  main w =
  match pkgbuild w with
  | None =>
      (Exited 1%Z,
       printed w [lit "Generating .SRCINFO from PKGBUILD...";
                  lit "ERROR: PKGBUILD file not found"])
  | Some content =>
      let lines :=
        lit "Generating .SRCINFO from PKGBUILD..." :: parse_errors content in
      match parsed content with
      | None => (Exited 1%Z, printed w lines)
      | Some info =>
          match srcinfo_write_error w with
          | None =>
              (Returned tt,
               regenerated w (generate_srcinfo info)
                 (lines ++ [[CHECK] ++ lit " .SRCINFO generated successfully"]))
          | Some e =>
              (Exited 1%Z,
               printed w
                 (lines ++ [lit "ERROR: Failed to write .SRCINFO: " ++ e]))
          end
      end
  end.
Proof.
  unfold main, bind at 1. rewrite print_printed. unfold bind at 1.
  destruct (pkgbuild w) as [content|] eqn:Hw.
  - rewrite (parse_pkgbuild_spec (printed w _) content) by exact Hw.
    rewrite printed_printed. cbv zeta.
    destruct (parsed content) as [info|]; [|reflexivity].
    unfold bind, write_srcinfo, print, sys_exit, printed, regenerated.
    cbn [srcinfo_write_error].
    destruct (srcinfo_write_error w) as [e|];
      cbn -[lit generate_srcinfo]; rewrite <- !app_assoc; reflexivity.
  - rewrite (parse_pkgbuild_missing (printed w _)) by exact Hw.
    rewrite printed_printed. reflexivity.
Qed.

(** C9: a run leaves PKGBUILD as it is; a second run right after it ends
    with the same status and leaves the same .SRCINFO; another process
    state with the same PKGBUILD gets the same status and, on success, the
    same .SRCINFO; and a successful run writes a text that ends with an
    empty line, the package-name trailer and a line feed. *)
(** Case analysis on what a run meets: no PKGBUILD, a required field
    missing, .SRCINFO not writable, or success. *)
Ltac by_cases w :=
  destruct (pkgbuild w) as [?content|] eqn:?Hp;
  [destruct (parsed content) as [?info|] eqn:?Hi;
   [destruct (srcinfo_write_error w) as [?e|] eqn:?He|]|];
  unfold exit_status, final, printed, regenerated; simpl;
  repeat split; intros; try discriminate; try congruence; auto.

Theorem regeneration_is_deterministic w :
  let r1 := main w in
  let r2 := main (final r1) in
  pkgbuild (final r1) = pkgbuild w /\
  exit_status r2 = exit_status r1 /\
  srcinfo (final r2) = srcinfo (final r1) /\
  (forall w',
      pkgbuild w' = pkgbuild w ->
      srcinfo_write_error w' = srcinfo_write_error w ->
      exit_status (main w') = exit_status r1 /\
      (exit_status r1 = 0%Z ->
       srcinfo (final (main w')) = srcinfo (final r1))) /\
  (exit_status r1 = 0%Z ->
   exists head name,
     srcinfo (final r1)
     = Some (head ++ [NL; NL] ++ lit "pkgname = " ++ name ++ [NL])).
Proof.
  cbv zeta.
  assert (Same : forall w', pkgbuild w' = pkgbuild w ->
                   srcinfo_write_error w' = srcinfo_write_error w ->
                   exit_status (main w') = exit_status (main w) /\
                   (exit_status (main w) = 0%Z ->
                    srcinfo (final (main w')) = srcinfo (final (main w))) /\
                   (exit_status (main w) <> 0%Z ->
                    srcinfo (final (main w')) = srcinfo w')).
  { intros w' Hp He. rewrite (main_spec w'), (main_spec w), Hp, He.
    by_cases w. }
  assert (Frame : pkgbuild (final (main w)) = pkgbuild w /\
                  srcinfo_write_error (final (main w))
                  = srcinfo_write_error w /\
                  (exit_status (main w) <> 0%Z ->
                   srcinfo (final (main w)) = srcinfo w)).
  { rewrite (main_spec w). by_cases w. }
  destruct Frame as [Fp [Fe Fs]].
  destruct (Same (final (main w)) Fp Fe) as [S1 [S2 S3]].
  split; [exact Fp|]. split; [exact S1|]. split.
  - destruct (Z.eq_dec (exit_status (main w)) 0) as [Z|Z]; auto.
  - split.
    + intros w' Hp He. destruct (Same w' Hp He) as [T1 [T2 _]]. auto.
    + rewrite (main_spec w).
      destruct (pkgbuild w) as [content|];
        [destruct (parsed content) as [info|];
         [destruct (srcinfo_write_error w)|]|];
        unfold exit_status, final; simpl; try discriminate.
      intros _. exists (header info), (pkgname info).
      rewrite generate_srcinfo_trailer. reflexivity.
Qed.


(** A quoted field that is absent or empty is not found. *)
Lemma quoted_field_None name content :
  empty_or_absent name content ->
  search (pat_re (quoted_field name)) content = None.
Proof.
  intros H. apply search_None. intros a b E.
  unfold quoted_field. cbn [pat_re seq]. unfold match_here.
  rewrite run_seq.
  destruct (strip_prefix (lit name ++ lit "=" ++ [DQ]) b) as [t|] eqn:Eb.
  - apply strip_prefix_Some in Eb. subst b.
    destruct (H a t E) as [r ->]. rewrite run_lit. reflexivity.
  - apply run_lit_None. apply strip_prefix_None. exact Eb.
Qed.

Lemma parsed_None_pkgdesc content :
  field_value content (quoted_field "pkgdesc") = None ->
  parsed content = None.
Proof.
  intros H. unfold parsed. rewrite H. cbn [forallb truthy].
  repeat match goal with |- context [truthy ?v] => destruct (truthy v) end;
    reflexivity.
Qed.

Lemma parsed_None_url content :
  field_value content (quoted_field "url") = None ->
  parsed content = None.
Proof.
  intros H. unfold parsed. rewrite H. cbn [forallb truthy].
  repeat match goal with |- context [truthy ?v] => destruct (truthy v) end;
    reflexivity.
Qed.



(** The empty value and the missing line give the same outcome. *)
Example empty_pkgdesc_as_absent :
  main (descriptor empty_pkgdesc_descriptor)
  = (Exited 1%Z,
     printed (descriptor empty_pkgdesc_descriptor)
       [lit "Generating .SRCINFO from PKGBUILD...";
        field_error (quoted_field "pkgdesc")]) /\
  main (descriptor absent_pkgdesc_descriptor)
  = (Exited 1%Z,
     printed (descriptor absent_pkgdesc_descriptor)
       [lit "Generating .SRCINFO from PKGBUILD...";
        field_error (quoted_field "pkgdesc")]).
Proof. split; reflexivity. Qed.


(** An array that is absent or empty yields no items. *)
Lemma empty_array_no_items name content :
  empty_or_absent_array name content ->
  extract_array content (array_field name) = [].
Proof.
  intros H. unfold extract_array.
  assert (S : search (pat_re (array_field name)) content = None);
    [|rewrite S; reflexivity].
  apply search_None. intros a b E.
  unfold array_field. cbn [pat_re seq]. unfold match_here.
  rewrite run_seq.
  destruct (strip_prefix (lit name ++ lit "=(") b) as [t|] eqn:Eb.
  - apply strip_prefix_Some in Eb. subst b.
    destruct (H a t E) as [r ->]. rewrite run_lit. reflexivity.
  - apply run_lit_None. apply strip_prefix_None. exact Eb.
Qed.

(** The defaults of the architecture and license arrays, and the absence
    of a default for the build-time dependencies. *)
Lemma array_defaults content info :
  parsed content = Some info ->
  (empty_or_absent_array "arch" content -> arch info = [lit "any"]) /\
  (empty_or_absent_array "license" content ->
   license info = [lit "unknown"]) /\
  (empty_or_absent_array "depends" content -> depends info = []) /\
  (empty_or_absent_array "makedepends" content -> makedepends info = []).
Proof.
  unfold parsed. destruct (forallb truthy _); [|discriminate].
  intros [= <-]. cbn [arch license depends makedepends].
  repeat split; intros H; rewrite (empty_array_no_items _ _ H); reflexivity.
Qed.

(** Items may be single-quoted, double-quoted or bare. *)
Example three_kinds_of_items :
  extract_array
    (lit "license=('Apache' " ++ [DQ] ++ lit "MIT" ++ [DQ] ++ lit " GPL)")
    (array_field "license")
  = [lit "Apache"; lit "MIT"; lit "GPL"].
Proof. reflexivity. Qed.

(** C6, where the code departs from it: the descriptor below has an empty
    [depends] array, yet the derived file lists the build-time dependency
    as a run-time dependency too, because the pattern of [depends] also
    matches inside [makedepends=(...)].  The empty [arch] array is rendered
    as [arch = any], as the claim says. *)
Theorem empty_depends_takes_makedepends :
  main (descriptor no_depends_descriptor)
  = (Returned tt,
     regenerated (descriptor no_depends_descriptor)
       (text [lit "pkgbase = awscli-local";
              [TAB] ++ lit "pkgdesc = Thin wrapper around the aws command";
              [TAB] ++ lit "pkgver = 1.0.0";
              [TAB] ++ lit "pkgrel = 1";
              [TAB] ++ lit "url = https://github.com/localstack/awscli-local";
              [TAB] ++ lit "arch = any";
              [TAB] ++ lit "license = Apache";
              [TAB] ++ lit "depends = python-setuptools";
              [TAB] ++ lit "makedepends = python-setuptools";
              [];
              lit "pkgname = awscli-local"])
       [lit "Generating .SRCINFO from PKGBUILD...";
        [CHECK] ++ lit " .SRCINFO generated successfully"]).
Proof. reflexivity. Qed.

End GenerateSrcinfoFacts.

(* ================================================================= *)
(** ** The Descriptor Updater: the pipeline *)

Module UpdatePkgbuildFacts.
Import UpdatePkgbuild.

Section Pipeline.

Variable sha256_hexdigest : list N -> str.
Variable net : remote.
Variable args : args.

Lemma get_package_info_failed w :
  (exists e, release_record net (arg_version args) = Failed e) \/
  (exists files,
      release_record net (arg_version args) = Fetched files /\
      find is_sdist files = None) ->
  exists lines,
    get_package_info net (arg_version args) w
    = (Returned None,
       observed w lines
         [lit "https://pypi.org/pypi/awscli-local/"
          ++ arg_version args ++ lit "/json"]).
Proof.
  unfold get_package_info, bind, http_get, observed.
  intros [[e ->]|[files [-> F]]].
  - eexists. unfold print, ret. cbn -[lit]. reflexivity.
  - fold is_sdist. rewrite F.
    eexists. unfold print, ret. cbn -[lit]. reflexivity.
Qed.

Lemma get_package_info_found w files f :
  release_record net (arg_version args) = Fetched files ->
  find is_sdist files = Some f ->
  get_package_info net (arg_version args) w
  = (Returned (Some (PackageInfo (file_url f) (digest_sha256 f))),
     observed w []
       [lit "https://pypi.org/pypi/awscli-local/"
        ++ arg_version args ++ lit "/json"]).
Proof.
  unfold get_package_info, bind, http_get, observed.
  intros -> F. fold is_sdist. rewrite F.
  unfold ret. rewrite app_nil_r. reflexivity.
Qed.

Lemma verify_checksum_spec w url expected :
  exists lines,
    verify_checksum sha256_hexdigest net url expected w
    = (Returned
         match artifact net url with
         | Fetched body => str_eqb expected (sha256_hexdigest body)
         | Failed _ => false
         end,
       observed w lines [url]).
Proof.
  unfold verify_checksum, bind, http_get, print, ret, observed.
  cbn -[lit str_eqb].
  destruct (artifact net url) as [e|body].
  - eexists. cbn -[lit]. rewrite <- app_assoc. reflexivity.
  - destruct (str_eqb expected (sha256_hexdigest body));
      eexists; cbn -[lit]; rewrite <- ?app_assoc; reflexivity.
Qed.

Lemma observed_observed w a b c d :
  observed (observed w a b) c d = observed w (a ++ c) (b ++ d).
Proof. unfold observed. simpl. rewrite !app_assoc. reflexivity. Qed.

Lemma print_observed w line : print line w = (Returned tt, observed w [line] []).
Proof. unfold print, observed. rewrite app_nil_r. reflexivity. Qed.

(** C3: when the release record cannot be fetched, lists no source
    distribution, or, with verification on, the artifact cannot be
    downloaded or does not have the digest of the record, the run ends
    with status 1 and every file, PKGBUILD included, is what it was. *)
Theorem failed_stage_leaves_descriptor w :
  stage_failure sha256_hexdigest net args ->
  exit_status (main sha256_hexdigest net args w) = 1%Z /\
  pkgbuild (final (main sha256_hexdigest net args w)) = pkgbuild w /\
  exists lines urls,
    final (main sha256_hexdigest net args w) = observed w lines urls.
Proof.
  intros F.
  assert (G : exists lines urls,
             main sha256_hexdigest net args w
             = (Exited 1%Z, observed w lines urls)).
  { unfold main, bind at 1. rewrite print_observed. unfold bind at 1.
    destruct F as [e R|files R N|files f e R S V D|files f body R S V D M].
    - match goal with |- context [get_package_info _ _ ?w1] =>
        destruct (get_package_info_failed w1 (or_introl (ex_intro _ e R)))
          as [lines ->]
      end.
      rewrite observed_observed. unfold sys_exit. do 2 eexists; reflexivity.
    - match goal with |- context [get_package_info _ _ ?w1] =>
        destruct (get_package_info_failed w1
                    (or_intror (ex_intro _ files (conj R N))))
          as [lines ->]
      end.
      rewrite observed_observed. unfold sys_exit. do 2 eexists; reflexivity.
    - rewrite (get_package_info_found _ _ _ R S), observed_observed.
      unfold bind at 1. rewrite print_observed, observed_observed.
      unfold bind at 1. rewrite print_observed, observed_observed.
      unfold bind at 1. rewrite V. cbn [info_url info_sha256].
      match goal with |- context [verify_checksum _ _ _ _ ?w1] =>
        destruct (verify_checksum_spec w1 (file_url f) (digest_sha256 f))
          as [lines ->]
      end.
      rewrite D, observed_observed. unfold sys_exit. cbn [negb]. do 2 eexists; reflexivity.
    - rewrite (get_package_info_found _ _ _ R S), observed_observed.
      unfold bind at 1. rewrite print_observed, observed_observed.
      unfold bind at 1. rewrite print_observed, observed_observed.
      unfold bind at 1. rewrite V. cbn [info_url info_sha256].
      match goal with |- context [verify_checksum _ _ _ _ ?w1] =>
        destruct (verify_checksum_spec w1 (file_url f) (digest_sha256 f))
          as [lines ->]
      end.
      rewrite D, observed_observed.
      assert (E : str_eqb (digest_sha256 f) (sha256_hexdigest body) = false)
        by (apply str_eqb_neq; congruence).
      rewrite E. unfold sys_exit. cbn [negb]. do 2 eexists; reflexivity. }
  destruct G as [lines [urls ->]].
  split; [reflexivity|]. split; [reflexivity|].
  exists lines, urls. reflexivity.
Qed.


Lemma update_pkgbuild_written w version info content :
  pkgbuild w = Some content -> pkgbuild_write_error w = None ->
  update_pkgbuild version info w
  = (Returned true,
     updated w (rewrite version info content)
       [[CHECK] ++ lit " PKGBUILD updated successfully"] []).
Proof.
  intros Hw He. unfold update_pkgbuild, bind, read_pkgbuild, write_pkgbuild.
  unfold print, ret, updated. rewrite Hw. cbn -[lit rewrite].
  rewrite He. cbn -[lit rewrite]. rewrite ?He, ?app_nil_r. reflexivity.
Qed.

(** A run whose stages all pass writes the rewritten text and ends with
    status 0. *)
Lemma main_success w info content :
  stages_pass sha256_hexdigest net args info ->
  pkgbuild w = Some content -> pkgbuild_write_error w = None ->
  exists lines urls,
    main sha256_hexdigest net args w
    = (Returned tt,
       updated w (rewrite (arg_version args) info content) lines urls).
Proof.
  intros [files [f [R [S [-> V]]]]] Hw He.
  unfold main, bind at 1. rewrite print_observed. unfold bind at 1.
  rewrite (get_package_info_found _ _ _ R S), observed_observed.
  unfold bind at 1. rewrite print_observed, observed_observed.
  unfold bind at 1. rewrite print_observed, observed_observed.
  unfold bind at 1. cbn [info_url info_sha256].
  assert (Go : forall w1 lines urls,
             w1 = observed w lines urls ->
             exists lines' urls',
               bind (update_pkgbuild (arg_version args)
                       (PackageInfo (file_url f) (digest_sha256 f)))
                    (fun updated =>
                       if negb updated then sys_exit 1%Z
                       else print ([CHECK]
                              ++ lit " Successfully updated to version "
                              ++ arg_version args)) w1
               = (Returned tt,
                  updated w (rewrite (arg_version args)
                               (PackageInfo (file_url f) (digest_sha256 f))
                               content) lines' urls')).
  { intros w1 lines urls ->. unfold bind.
    rewrite (update_pkgbuild_written _ _ _ content) by assumption.
    cbn [negb]. unfold print, updated, observed. cbn -[lit rewrite].
    do 2 eexists. rewrite <- !app_assoc. reflexivity. }
  destruct V as [V|[body [D M]]].
  - rewrite V. unfold ret at 1. cbn [negb]. eapply Go. reflexivity.
  - destruct (arg_verify args).
    + match goal with |- context [verify_checksum _ _ _ _ ?w1] =>
        destruct (verify_checksum_spec w1 (file_url f) (digest_sha256 f))
          as [lines ->]
      end.
      rewrite D, M, str_eqb_refl, observed_observed. cbn [negb].
      eapply Go. reflexivity.
    + unfold ret at 1. cbn [negb]. eapply Go. reflexivity.
Qed.

End Pipeline.

Lemma failed_stage_leaves_descriptor_witness :
  let net := index_with (lit "0a1b2c") (lit "tampered") in
  let args := Args (lit "2.0.0") true in
  let w := descriptor old_descriptor in
  exit_status (main toy_digest net args w) = 1%Z /\
  pkgbuild (final (main toy_digest net args w)) = pkgbuild w /\
  exists lines urls,
    final (main toy_digest net args w) = observed w lines urls.
Proof.
  apply (failed_stage_leaves_descriptor toy_digest
           (index_with (lit "0a1b2c") (lit "tampered"))
           (Args (lit "2.0.0") true) (descriptor old_descriptor)).
  apply (digest_mismatch toy_digest _ _
           [FileInfo (lit "bdist_wheel")
              (lit "https://files.pythonhosted.org/packages/00/11/22/awscli_local-2.0.0-py3-none-any.whl")
              (lit "0f0f");
            FileInfo (lit "sdist") release_url (lit "0a1b2c")]
           (FileInfo (lit "sdist") release_url (lit "0a1b2c"))
           (lit "tampered")).
  - reflexivity.
  - reflexivity.
  - reflexivity.
  - reflexivity.
  - vm_compute. discriminate.
Defined.

(* ----------------------------------------------------------------- *)
(** *** The source URL *)

(** The source pattern matches only where the registry prefix follows. *)
Lemma match_source_url_registry s rest g :
match_here re_source_url s = Some (rest, g) ->
exists a t, s = lit "source=(" ++ a ++ registry ++ t.
Proof.
unfold match_here, re_source_url. cbn [seq].
rewrite run_seq, run_grp, run_seq. intros H.
apply run_lit_inv in H as [s1 [-> H]]. rewrite run_seq in H.
change (run (Star (none_of [RP])) s1 [] ?k) with
  (star_k (none_of [RP]) s1 (fun s' => k s' [])) in H.
cbn [run] in H.
apply star_k_sound in H as [a [s2 [-> [_ [H _]]]]].
destruct (strip_prefix registry s2) as [t|] eqn:E; [|discriminate].
apply strip_prefix_Some in E. subst s2. eauto.
Qed.

(** A text without the registry prefix keeps its source field, and every
    other character, as it is. *)
Lemma update_source_without_registry download_url content :
contains registry content = false ->
update_source download_url content = content.
Proof.
intros H. unfold update_source.
destruct (contains (lit "source=(") content); [|reflexivity].
apply sub_id. apply search_None. intros a b E.
destruct (match_here re_source_url b) as [[rest g]|] eqn:M; [|reflexivity].
exfalso. apply match_source_url_registry in M as [a' [t ->]].
rewrite contains_false in H. apply (H (a ++ lit "source=(" ++ a') t).
rewrite E, <- !app_assoc. reflexivity.
Qed.

(** C7, where the code departs from it: in the descriptor below the source
    URL stands between single quotes.  The run of characters the pattern
    replaces ends at a double quote or a closing parenthesis only, so the
    closing single quote, which is not part of the download path, is replaced
    together with the path and is missing from the rewritten source line. *)
Theorem single_quoted_source_loses_quote :
update_source release_url single_quoted_descriptor
= text [lit "pkgname=awscli-local";
        lit "pkgver=1.0.0";
        lit "pkgrel=3";
        lit "source=('https://files.pythonhosted.org/packages/ab/cd/ef01/awscli-local-2.0.0.tar.gz)";
        lit "sha256sums=('0a0a')"] /\
rewrite (lit "2.0.0") release_info single_quoted_descriptor
= text [lit "pkgname=awscli-local";
        lit "pkgver=2.0.0";
        lit "pkgrel=1";
        lit "source=('https://files.pythonhosted.org/packages/ab/cd/ef01/awscli-local-2.0.0.tar.gz)";
        lit "sha256sums=('0a1b2c')"].
Proof. split; reflexivity. Qed.

End UpdatePkgbuildFacts.

(* ================================================================= *)
(** ** Counting occurrences *)

Lemma occurrences_cons (needle : str) c s :
  occurrences needle (c :: s)
  = (if starts_with needle (c :: s) then 1 else 0) + occurrences needle s.
Proof. reflexivity. Qed.

Lemma occurrences_app (needle a b : str) :
  occurrences needle (a ++ b) = occ_in needle a b + occurrences needle b.
Proof.
  induction a as [|c a IH]; [reflexivity|].
  simpl app. rewrite occurrences_cons, IH. simpl occ_in. lia.
Qed.

Lemma occ_in_app (needle x y b : str) :
  occ_in needle (x ++ y) b = occ_in needle x (y ++ b) + occ_in needle y b.
Proof.
  induction x as [|c x IH]; [reflexivity|].
  simpl. rewrite IH, <- app_assoc. lia.
Qed.

Lemma occ_in_zero (needle a b : str) :
  occ_in needle a b = 0 <->
  forall a1 a2, a = a1 ++ a2 -> a2 <> [] -> starts_with needle (a2 ++ b) = false.
Proof.
  induction a as [|c a IH]; simpl.
  - split; [|reflexivity]. intros _ a1 a2 E N.
    symmetry in E. apply app_eq_nil in E as [_ ->]. congruence.
  - split.
    + intros H [|x a1] a2 E N; simpl in E.
      * subst a2. simpl. destruct (starts_with needle (c :: a ++ b)); [lia|auto].
      * inversion E; subst. apply IH with (a1 := a1); auto.
        destruct (starts_with needle _); lia.
    + intros H.
      assert (X := H [] (c :: a) eq_refl ltac:(discriminate)).
      simpl in X. rewrite X.
      simpl. apply IH. intros a1 a2 E N. apply (H (c :: a1) a2); auto.
      rewrite E. reflexivity.
Qed.

Lemma occurrences_zero (needle s : str) :
  needle <> [] -> (occurrences needle s = 0 <-> contains needle s = false).
Proof.
  intros N. induction s as [|c s IH]; simpl.
  - destruct needle; [congruence|]. simpl. tauto.
  - rewrite orb_false_iff, <- IH.
    destruct (starts_with needle (c :: s)); split; intros H;
      try lia; try (destruct H; discriminate); auto.
Qed.

(** Whether [needle] starts a text is decided by as many characters as
    [needle] has. *)
Lemma starts_with_ext (needle u x y : str) :
  length needle <= length u ->
  starts_with needle (u ++ x) = starts_with needle (u ++ y).
Proof.
  unfold starts_with. revert u.
  induction needle as [|k needle IH]; intros u L; [reflexivity|].
  destruct u as [|c u]; simpl in L; [lia|]. simpl.
  destruct (N.eqb k c); [|reflexivity]. apply IH. lia.
Qed.

Lemma occ_in_same_head (needle a x y : str) :
  occ_in needle a (needle ++ x) = occ_in needle a (needle ++ y).
Proof.
  induction a as [|c a IH]; [reflexivity|].
  simpl. rewrite IH. f_equal.
  change (c :: a ++ needle ++ x) with ((c :: a) ++ needle ++ x).
  change (c :: a ++ needle ++ y) with ((c :: a) ++ needle ++ y).
  rewrite !app_assoc.
  rewrite (starts_with_ext needle ((c :: a) ++ needle) x y);
    [reflexivity|rewrite length_app; lia].
Qed.

Lemma starts_with_cons_neq (k : char) (needle : str) c s :
  c <> k -> starts_with (k :: needle) (c :: s) = false.
Proof.
  intros N. unfold starts_with. simpl.
  destruct (N.eqb k c) eqn:E; [|reflexivity].
  apply N.eqb_eq in E. congruence.
Qed.

Lemma occ_in_no_first (k : char) (needle a b : str) :
  ~ In k a -> occ_in (k :: needle) a b = 0.
Proof.
  induction a as [|c a IH]; [reflexivity|]. intros H.
  simpl occ_in. rewrite IH by (intros X; apply H; right; exact X).
  change ((c :: a) ++ b) with (c :: a ++ b).
  rewrite starts_with_cons_neq; [reflexivity|].
  intros ->. apply H. left; reflexivity.
Qed.

(** A needle without line feed does not start in [a] and run across a line
    feed that follows [a]. *)
Lemma occ_in_before_newline (needle a b b' : str) :
  ~ In NL needle -> occ_in needle a b = 0 -> occ_in needle a (NL :: b') = 0.
Proof.
  intros NN H. rewrite occ_in_zero in *. intros a1 a2 E N.
  specialize (H a1 a2 E N).
  destruct (starts_with needle (a2 ++ NL :: b')) eqn:S; [|reflexivity].
  apply starts_with_true in S as [t S].
  destruct (Nat.le_gt_cases (length needle) (length a2)) as [L|L].
  - destruct (app_split_le _ _ _ _ _ S L) as [d [-> _]].
    rewrite <- app_assoc, starts_with_app in H. discriminate.
  - exfalso. apply NN.
    assert (L' : length a2 <= length needle) by lia. symmetry in S.
    destruct (app_split_le _ _ _ _ _ S L') as [d [-> D]].
    destruct d as [|x d]; [rewrite length_app in L; simpl in L; lia|].
    inversion D; subst. apply in_or_app. right. left. reflexivity.
Qed.

(** With a single occurrence of [needle], its place is determined. *)
Lemma single_occurrence (needle a x a' x' : str) :
  occurrences needle (a ++ needle ++ x) = 1 ->
  a' ++ needle ++ x' = a ++ needle ++ x ->
  a' = a /\ x' = x.
Proof.
  assert (Two : forall p d q y,
             d <> [] -> p ++ needle ++ q = p ++ d ++ needle ++ y ->
             2 <= occurrences needle (p ++ d ++ needle ++ y)).
  { intros p d q y N E. apply app_inv_head in E.
    rewrite occurrences_app, occurrences_app.
    assert (1 <= occ_in needle d (needle ++ y)).
    { destruct d as [|c d]; [congruence|]. simpl occ_in.
      change ((c :: d) ++ needle ++ y) with (c :: d ++ needle ++ y) in *.
      rewrite <- E, starts_with_app. lia. }
    assert (1 <= occurrences needle (needle ++ y)).
    { destruct (needle ++ y) as [|c t] eqn:Ey.
      - simpl. destruct needle; [simpl; lia|discriminate].
      - rewrite occurrences_cons, <- Ey, starts_with_app. lia. }
    lia. }
  intros One E.
  destruct (Nat.lt_trichotomy (length a') (length a)) as [L|[L|L]].
  - assert (L' : length a' <= length a) by lia. symmetry in E.
    destruct (app_split_le _ _ _ _ _ E L') as [d [-> D]].
    destruct d as [|c d]; [rewrite length_app in L; simpl in L; lia|].
    rewrite <- app_assoc in One.
    assert (X := Two a' (c :: d) x' x).
    rewrite <- app_assoc in E. symmetry in E.
    specialize (X ltac:(discriminate) E). lia.
  - destruct (app_same_length _ _ _ _ _ E L) as [-> E'].
    apply app_inv_head in E'. auto.
  - assert (L' : length a <= length a') by lia.
    destruct (app_split_le _ _ _ _ _ E L') as [d [-> D]].
    destruct d as [|c d]; [rewrite length_app in L; simpl in L; lia|].
    rewrite <- app_assoc in E.
    assert (X := Two a (c :: d) x x' ltac:(discriminate)).
    rewrite <- E in X. specialize (X eq_refl).
    rewrite E in X. lia.
Qed.

(* ================================================================= *)
(** ** The Descriptor Updater: the checksum rewrite *)

Module ChecksumFacts.
Import UpdatePkgbuild.

Lemma sums_line_head digest :
  sums_line digest = sums_head ++ [SQ] ++ digest ++ lit "')".
Proof. reflexivity. Qed.

Lemma skip_sums_line : skip_sums = sums_line (lit "SKIP").
Proof. reflexivity. Qed.

Lemma none_of_run (l : list char) (x : str) :
  (forall c, In c l -> ~ In c x) -> forallb (none_of l) x = true.
Proof.
  intros H. apply forallb_forall. intros c Hc. unfold none_of.
  apply negb_true_iff. destruct (existsb (N.eqb c) l) eqn:E; [|reflexivity].
  apply existsb_exists in E as [d [Hd E]]. apply N.eqb_eq in E. subst d.
  destruct (H c Hd Hc).
Qed.

Lemma none_of_one (k : char) (x : str) :
  ~ In k x -> forallb (none_of [k]) x = true.
Proof.
  intros H. apply none_of_run. intros c [<-|[]]. exact H.
Qed.

Lemma stops_at (k : char) (rest : str) : stops (none_of [k]) (k :: rest).
Proof.
  right. exists k, rest. split; [reflexivity|].
  unfold none_of. simpl. rewrite N.eqb_refl. reflexivity.
Qed.

(** The matches of the two checksum patterns and of the source pattern of
    the third branch. *)
Lemma match_sentinel rest :
  match_here (Lit skip_sums) (skip_sums ++ rest) = Some (rest, []).
Proof. unfold match_here. apply run_lit. Qed.

Lemma match_sentinel_head s rest g :
  match_here (Lit skip_sums) s = Some (rest, g) ->
  exists t, s = sums_head ++ t.
Proof.
  unfold match_here. intros H. apply run_lit_inv in H as [s' [-> _]].
  exists (lit "'SKIP')" ++ s'). reflexivity.
Qed.

Lemma match_sums_line old rest :
  ~ In SQ old ->
  match_here re_sums (sums_line old ++ rest) = Some (rest, []).
Proof.
  intros H. unfold match_here, re_sums, sums_line. cbn [seq].
  rewrite <- !app_assoc, run_seq, run_lit, run_seq.
  change (run (Star (none_of [SQ])) ?s [] ?k)
    with (star_k (none_of [SQ]) s (fun s' => k s' [])).
  apply star_k_max.
  - apply none_of_one; exact H.
  - apply stops_at.
  - apply run_lit.
Qed.

Lemma match_sums_head s rest g :
  match_here re_sums s = Some (rest, g) -> exists t, s = sums_head ++ t.
Proof.
  unfold match_here, re_sums. cbn [seq]. rewrite run_seq. intros H.
  apply run_lit_inv in H as [s' [-> _]].
  exists (SQ :: s'). reflexivity.
Qed.

Lemma match_source items rest :
  items <> [] -> ~ In RP items ->
  match_here re_source (source_head ++ items ++ [RP] ++ rest)
  = Some (rest, []).
Proof.
  intros N H. unfold match_here, re_source, source_head. cbn [seq].
  rewrite run_seq, run_lit, run_seq.
  apply run_plus_max;
    [exact N|apply none_of_one; exact H|apply stops_at|apply (run_lit [RP])].
Qed.

Lemma match_source_head s rest g :
  match_here re_source s = Some (rest, g) -> exists t, s = source_head ++ t.
Proof.
  unfold match_here, re_source. cbn [seq]. rewrite run_seq. intros H.
  apply run_lit_inv in H as [s' [-> _]]. eauto.
Qed.

(** A pattern that only matches at an opening [head] finds nothing where
    [head] does not start. *)
Lemma no_head_no_match (r : regex) (head pre rest : str) :
  (forall s rest' g, match_here r s = Some (rest', g) ->
                     exists t, s = head ++ t) ->
  occ_in head pre rest = 0 ->
  no_match_in r pre rest.
Proof.
  intros Hd Z a b E N.
  destruct (match_here r (b ++ rest)) as [[rest' g]|] eqn:M; [|reflexivity].
  apply Hd in M as [t M]. rewrite occ_in_zero in Z.
  specialize (Z a b E N). rewrite M, starts_with_app in Z. discriminate.
Qed.

Lemma no_head_no_search (r : regex) (head s : str) :
  head <> [] ->
  (forall s rest' g, match_here r s = Some (rest', g) ->
                     exists t, s = head ++ t) ->
  occurrences head s = 0 ->
  search r s = None.
Proof.
  intros Nh Hd Z. apply search_None. intros a b E.
  destruct (match_here r b) as [[rest' g]|] eqn:M; [|reflexivity].
  apply Hd in M as [t M]. apply occurrences_zero in Z; [|exact Nh].
  rewrite contains_false in Z. destruct (Z a t). rewrite E, M. reflexivity.
Qed.

(** What a single occurrence of [head] in [pre ++ m ++ post], at the start
    of [m], says about the three parts. *)
Lemma single_head_parts (head pre t post : str) :
  head <> [] ->
  occurrences head (pre ++ (head ++ t) ++ post) = 1 ->
  occ_in head pre ((head ++ t) ++ post) = 0 /\ occurrences head post = 0 /\
  (forall x, occ_in head pre (head ++ x) = 0).
Proof.
  intros Nh One. rewrite occurrences_app in One.
  destruct head as [|k head]; [congruence|].
  assert (S : starts_with (k :: head) (((k :: head) ++ t) ++ post) = true)
    by (rewrite <- app_assoc; apply starts_with_app).
  assert (O : occurrences (k :: head) (((k :: head) ++ t) ++ post)
              = 1 + occurrences (k :: head) ((head ++ t) ++ post)).
  { change (((k :: head) ++ t) ++ post) with (k :: (head ++ t) ++ post) in *.
    rewrite occurrences_cons, S. reflexivity. }
  rewrite O, occurrences_app in One.
  split; [lia|]. split; [lia|].
  intros x. rewrite (occ_in_same_head _ _ x (t ++ post)), app_assoc. lia.
Qed.

(** Replacing the one checksum assignment of a text. *)
Lemma sub_single (r : regex) (T pre t post : str) g :
  (forall s rest' g', match_here r s = Some (rest', g') ->
                      exists t', s = sums_head ++ t') ->
  match_here r ((sums_head ++ t) ++ post) = Some (post, g) ->
  occurrences sums_head (pre ++ (sums_head ++ t) ++ post) = 1 ->
  sub r (template T) (pre ++ (sums_head ++ t) ++ post) = pre ++ T ++ post.
Proof.
  intros Hd M One.
  destruct (single_head_parts sums_head pre t post ltac:(discriminate) One)
    as [Zpre [Zpost _]].
  rewrite sub_skip.
  - rewrite sub_match with (g := g); [|discriminate|exact M].
    rewrite sub_id; [reflexivity|].
    apply no_head_no_search with (head := sums_head); auto. discriminate.
  - apply no_head_no_match with (head := sums_head); auto.
  - left. discriminate.
Qed.

Lemma hex_no_s (digest : str) : hex digest -> ~ In 115%N digest.
Proof.
  unfold hex. rewrite forallb_forall. intros H X. apply H in X.
  discriminate.
Qed.

Lemma hex_no_quote (digest : str) : hex digest -> ~ In SQ digest.
Proof.
  unfold hex. rewrite forallb_forall. intros H X. apply H in X.
  discriminate.
Qed.

(** A checksum assignment of a hexadecimal digest opens once. *)
Lemma occurrences_sums_line digest post :
  hex digest -> occurrences sums_head post = 0 ->
  occurrences sums_head (sums_line digest ++ post) = 1.
Proof.
  intros Hx Z. unfold sums_line.
  rewrite <- !app_assoc, occurrences_app, occurrences_app, occurrences_app, Z.
  assert (X : occ_in sums_head digest (lit "')" ++ post) = 0)
    by (apply (occ_in_no_first 115%N (lit "ha256sums=("));
        apply hex_no_s; exact Hx).
  rewrite X. reflexivity.
Qed.

Lemma count_after_replacement digest pre t post :
  hex digest ->
  occurrences sums_head (pre ++ (sums_head ++ t) ++ post) = 1 ->
  occurrences sums_head (pre ++ sums_line digest ++ post) = 1.
Proof.
  intros Hx One.
  destruct (single_head_parts sums_head pre t post ltac:(discriminate) One)
    as [_ [Zpost Zpre]].
  rewrite occurrences_app, occurrences_sums_line by assumption.
  rewrite sums_line_head, <- app_assoc, Zpre. reflexivity.
Qed.

Lemma contains_mid (needle pre post : str) :
  contains needle (pre ++ needle ++ post) = true.
Proof. apply contains_true. eauto. Qed.

Lemma contains_longer (n1 n2 s : str) :
  contains n1 s = false -> contains (n1 ++ n2) s = false.
Proof.
  rewrite !contains_false. intros H a b E. apply (H a (n2 ++ b)).
  rewrite E, <- app_assoc. reflexivity.
Qed.

(** The checksum rewrite in each of the three states. *)
Lemma checksum_stage digest c c' :
  hex digest -> checksum_rewrite digest c c' ->
  update_sha256sums digest c = c' /\
  occurrences sums_head c' = 1 /\
  contains (sums_line digest) c' = true.
Proof.
  intros Hx [pre post One|pre old post NoSkip Q One|pre items post No First N R].
  - split; [|split].
    + unfold update_sha256sums. rewrite contains_mid.
      apply (sub_single (Lit skip_sums) _ pre (lit "'SKIP')") post []);
        [apply match_sentinel_head|apply match_sentinel|exact One].
    + apply (count_after_replacement _ pre (lit "'SKIP')") post); auto.
    + apply contains_mid.
  - split; [|split].
    + unfold update_sha256sums. rewrite NoSkip.
      assert (C : contains (lit "sha256sums=(")
                    (pre ++ sums_line old ++ post) = true).
      { apply contains_true. exists pre, ([SQ] ++ old ++ lit "')" ++ post).
        rewrite sums_line_head, <- !app_assoc. reflexivity. }
      rewrite C.
      assert (E : sums_line old = sums_head ++ [SQ] ++ old ++ lit "')")
        by reflexivity.
      rewrite E in *.
      apply (sub_single re_sums _ pre ([SQ] ++ old ++ lit "')") post []);
        [apply match_sums_head| |exact One].
      rewrite <- E. apply match_sums_line. exact Q.
    + rewrite sums_line_head in One.
      apply (count_after_replacement _ pre ([SQ] ++ old ++ lit "')") post);
        auto.
    + apply contains_mid.
  - assert (Z : occurrences sums_head
                  (pre ++ source_head ++ items ++ [RP] ++ post) = 0)
      by (apply occurrences_zero; [discriminate|exact No]).
    assert (A : pre ++ source_head ++ items ++ [RP] ++ post
                = (pre ++ source_head ++ items ++ [RP]) ++ post)
      by (rewrite <- !app_assoc; reflexivity).
    rewrite A, occurrences_app in Z.
    assert (S : search re_source (pre ++ source_head ++ items ++ [RP] ++ post)
                = Some (MatchObj pre (source_head ++ items ++ [RP]) post [])).
    { replace (pre ++ source_head ++ items ++ [RP] ++ post)
        with (pre ++ (source_head ++ items ++ [RP]) ++ post)
        by (rewrite <- !app_assoc; reflexivity).
      apply search_first.
      - apply no_head_no_match with (head := source_head);
          [apply match_source_head|].
        rewrite occurrences_app in First.
        replace ((source_head ++ items ++ [RP]) ++ post)
          with (source_head ++ (items ++ [RP] ++ post))
          by (rewrite <- !app_assoc; reflexivity).
        rewrite (occ_in_same_head _ _ _ []), app_nil_r.
        change (occurrences source_head source_head) with 1 in First. lia.
      - rewrite <- !app_assoc. apply match_source; auto. }
    split; [|split].
    + unfold update_sha256sums.
      rewrite (contains_longer _ (lit "'SKIP')") _ No : contains skip_sums _ = false).
      change (lit "sha256sums=(") with sums_head. rewrite No, S.
      destruct (m_end_split (MatchObj pre (source_head ++ items ++ [RP]) post [])
                  (pre ++ source_head ++ items ++ [RP] ++ post)) as [F K].
      { cbn [m_pre m_text m_post]. rewrite <- !app_assoc. reflexivity. }
      rewrite F, K. cbn [m_pre m_text m_post].
      rewrite <- !app_assoc. reflexivity.
    + replace (pre ++ source_head ++ items ++ [RP] ++ [NL]
               ++ sums_line digest ++ post)
        with ((pre ++ source_head ++ items ++ [RP])
              ++ NL :: sums_line digest ++ post)
        by (rewrite <- !app_assoc; reflexivity).
      rewrite occurrences_app, occurrences_cons.
      rewrite (occ_in_before_newline sums_head _ post) by
        (try (vm_compute; intuition discriminate); lia).
      rewrite occurrences_sums_line by (auto; lia).
      reflexivity.
    + apply contains_true.
      exists (pre ++ source_head ++ items ++ [RP] ++ [NL]), post.
      rewrite <- !app_assoc. reflexivity.
Qed.




(** The other two states, on the text alone. *)
Example existing_checksum_is_replaced :
  rewrite (lit "2.0.0") release_info
    (text [lit "pkgver=1.0.0";
           lit "source=(" ++ [DQ] ++ lit "https://files.pythonhosted.org/packages/source/a/awscli-local/awscli-local-1.0.0.tar.gz" ++ [DQ] ++ lit ")";
           lit "sha256sums=('0f0f')"])
  = text [lit "pkgver=2.0.0";
          lit "source=(" ++ [DQ] ++ release_url ++ [DQ] ++ lit ")";
          lit "sha256sums=('0a1b2c')"].
Proof. reflexivity. Qed.

Example missing_checksum_is_appended :
  rewrite (lit "2.0.0") release_info
    (text [lit "pkgver=1.0.0";
           lit "source=(" ++ [DQ] ++ lit "https://files.pythonhosted.org/packages/source/a/awscli-local/awscli-local-1.0.0.tar.gz" ++ [DQ] ++ lit ")";
           lit "package() {";
           lit "}"])
  = text [lit "pkgver=2.0.0";
          lit "source=(" ++ [DQ] ++ release_url ++ [DQ] ++ lit ")";
          lit "sha256sums=('0a1b2c')";
          lit "package() {";
          lit "}"].
Proof. reflexivity. Qed.


End ChecksumFacts.


(* ================================================================= *)
(** ** Well-formed descriptors, line by line *)

Module DocumentFacts.
Import UpdatePkgbuild.

Lemma new_value_twice old new :
  new_value (new_value old new) new = new_value old new.
Proof. destruct old, new; reflexivity. Qed.

Lemma hex_is_word digest : hex digest -> forallb is_word digest = true.
Proof.
  unfold hex. rewrite !forallb_forall. intros H c Hc. specialize (H c Hc).
  unfold is_hex in H. unfold is_word.
  apply orb_true_iff in H as [H|H]; [rewrite H; reflexivity|].
  apply andb_true_iff in H as [H1 H2].
  apply N.leb_le in H1, H2.
  assert (A : (97 <=? c)%N = true) by (apply N.leb_le; lia).
  assert (B : (c <=? 122)%N = true) by (apply N.leb_le; lia).
  rewrite A, B, orb_true_r. reflexivity.
Qed.

Lemma hex_not_sentinel digest : hex digest -> str_eqb digest (lit "SKIP") = false.
Proof.
  intros H. apply str_eqb_neq. intros ->. vm_compute in H. discriminate.
Qed.

Lemma free_of_weaken (l l' : list char) (x : str) :
  incl l' l -> free_of l x -> free_of l' x.
Proof.
  unfold free_of. rewrite !forallb_forall. intros I H c Hc.
  specialize (H c Hc). unfold none_of in *.
  apply negb_true_iff in H. apply negb_true_iff.
  destruct (existsb (N.eqb c) l') eqn:E; [|reflexivity].
  apply existsb_exists in E as [d [Hd E]].
  assert (X : existsb (N.eqb c) l = true)
    by (apply existsb_exists; exists d; auto).
  congruence.
Qed.

Lemma free_of_not_in (l : list char) (x : str) (c : char) :
  free_of l x -> In c l -> ~ In c x.
Proof.
  unfold free_of. rewrite forallb_forall. intros H Hc Hx.
  specialize (H c Hx). unfold none_of in H. apply negb_true_iff in H.
  assert (X : existsb (N.eqb c) l = true)
    by (apply existsb_exists; exists c; split; [exact Hc|apply N.eqb_refl]).
  congruence.
Qed.

Section Update.

Variable version : str.
Variable info : package_info.
Hypothesis sane : sane_arguments version info.

Local Abbreviation digest := (info_sha256 info).
Local Abbreviation path := (url_suffix (info_url info)).

Lemma set_version_well_formed l :
  well_formed_line l -> well_formed_line (set_version version l).
Proof.
  destruct sane as [V _].
  destruct l as [value| | | | |]; simpl; auto.
  intros _. destruct value; [reflexivity|]. simpl.
  apply (free_of_weaken [NL; EQ; BACKSLASH]); [|exact V].
  intros x [<-|[<-|[]]]; simpl; auto.
Qed.

Lemma set_release_well_formed l :
  well_formed_line l -> well_formed_line (set_release l).
Proof.
  destruct l as [|value| | | |]; simpl; auto.
  intros _. destruct value; reflexivity.
Qed.

Lemma set_path_well_formed l :
  well_formed_line l -> well_formed_line (set_path path l).
Proof.
  destruct sane as [_ [P _]].
  destruct l; simpl; auto. intros [A [_ [B C]]]. auto.
Qed.

Lemma set_sentinel_well_formed l :
  well_formed_line l -> well_formed_line (set_sentinel digest l).
Proof.
  destruct sane as [_ [_ H]]. unfold set_sentinel.
  destruct (is_sentinel l); auto. intros _. apply hex_is_word. exact H.
Qed.

Lemma set_checksum_well_formed l :
  well_formed_line l -> well_formed_line (set_checksum digest l).
Proof.
  destruct sane as [_ [_ H]].
  destruct l; simpl; auto. intros _. apply hex_is_word. exact H.
Qed.

Lemma add_checksum_well_formed doc :
  well_formed doc -> well_formed (add_checksum digest doc).
Proof.
  destruct sane as [_ [_ H]]. unfold well_formed.
  induction doc as [|l doc IH]; simpl; auto.
  intros W. inversion W; subst.
  destruct (has_items l); repeat constructor; auto.
  apply hex_is_word. exact H.
Qed.

Lemma map_well_formed (f : line -> line) doc :
  (forall l, well_formed_line l -> well_formed_line (f l)) ->
  well_formed doc -> well_formed (map f doc).
Proof.
  unfold well_formed. intros H W. induction W; simpl; constructor; auto.
Qed.

Lemma set_checksums_well_formed doc :
  well_formed doc -> well_formed (set_checksums digest doc).
Proof.
  intros W. unfold set_checksums.
  destruct (existsb is_sentinel doc);
    [apply map_well_formed; auto; apply set_sentinel_well_formed|].
  destruct (existsb is_checksum doc);
    [apply map_well_formed; auto; apply set_checksum_well_formed|].
  apply add_checksum_well_formed; exact W.
Qed.

(** The updated descriptor is well formed. *)
Lemma update_well_formed doc :
  well_formed doc -> well_formed (update version info doc).
Proof.
  intros W. unfold update. apply set_checksums_well_formed.
  apply map_well_formed; [apply set_path_well_formed|].
  apply map_well_formed; [apply set_release_well_formed|].
  apply map_well_formed; [apply set_version_well_formed|]. exact W.
Qed.

(** The first three rewrites leave the checksum lines alone, and the
    checksum rewrite the other lines. *)
Local Abbreviation fields := (set_fields version path).

Lemma map_fields doc :
  map (set_path path) (map set_release (map (set_version version) doc))
  = map fields doc.
Proof. rewrite !map_map. reflexivity. Qed.

Lemma fields_twice l : fields (fields l) = fields l.
Proof.
  destruct l; unfold set_fields; simpl; try reflexivity;
    rewrite new_value_twice; reflexivity.
Qed.

Lemma is_sentinel_fields l : is_sentinel (fields l) = is_sentinel l.
Proof. destruct l; reflexivity. Qed.

Lemma is_checksum_fields l : is_checksum (fields l) = is_checksum l.
Proof. destruct l; reflexivity. Qed.

Lemma has_items_fields l : has_items (fields l) = has_items l.
Proof. destruct l; reflexivity. Qed.

Lemma fields_set_sentinel l :
  fields (set_sentinel digest l) = set_sentinel digest (fields l).
Proof.
  unfold set_sentinel. rewrite is_sentinel_fields.
  destruct l; try reflexivity. simpl. destruct (str_eqb _ _); reflexivity.
Qed.

Lemma fields_set_checksum l :
  fields (set_checksum digest l) = set_checksum digest (fields l).
Proof. destruct l; reflexivity. Qed.

Lemma fields_add_checksum doc :
  map fields (add_checksum digest doc) = add_checksum digest (map fields doc).
Proof.
  induction doc as [|l doc IH]; [reflexivity|]. simpl.
  rewrite has_items_fields. destruct (has_items l); simpl; [reflexivity|].
  rewrite IH. reflexivity.
Qed.

Lemma existsb_map_fields (p : line -> bool) doc :
  (forall l, p (fields l) = p l) ->
  existsb p (map fields doc) = existsb p doc.
Proof.
  intros H. induction doc as [|l doc IH]; [reflexivity|].
  simpl. rewrite H, IH. reflexivity.
Qed.

Lemma map_fields_set_checksums doc :
  map fields (set_checksums digest doc)
  = set_checksums digest (map fields doc).
Proof.
  unfold set_checksums.
  rewrite (existsb_map_fields is_sentinel), (existsb_map_fields is_checksum)
    by (apply is_sentinel_fields || apply is_checksum_fields).
  destruct (existsb is_sentinel doc).
  - rewrite !map_map. apply map_ext. apply fields_set_sentinel.
  - destruct (existsb is_checksum doc).
    + rewrite !map_map. apply map_ext. apply fields_set_checksum.
    + apply fields_add_checksum.
Qed.

Lemma map_fields_twice doc : map fields (map fields doc) = map fields doc.
Proof. rewrite map_map. apply map_ext. apply fields_twice. Qed.

(** The checksum rewrite, applied to its own result. *)
Lemma no_sentinel_after_set_sentinel doc :
  sentinel_alone digest doc ->
  existsb is_sentinel (map (set_sentinel digest) doc) = false.
Proof.
  destruct sane as [_ [_ H]].
  intros _. induction doc as [|l doc IH]; [reflexivity|].
  simpl. rewrite IH, orb_false_r. unfold set_sentinel.
  destruct (is_sentinel l) eqn:E; [|exact E].
  simpl. apply hex_not_sentinel. exact H.
Qed.

Lemma existsb_checksum_set_sentinel doc :
  existsb is_checksum (map (set_sentinel digest) doc)
  = existsb is_checksum doc.
Proof.
  induction doc as [|l doc IH]; [reflexivity|]. simpl. rewrite IH.
  f_equal. unfold set_sentinel. destruct l; try reflexivity.
  simpl. destruct (str_eqb _ _); reflexivity.
Qed.

Lemma sentinel_is_checksum doc :
  existsb is_sentinel doc = true -> existsb is_checksum doc = true.
Proof.
  rewrite !existsb_exists. intros [l [I S]]. exists l. split; auto.
  destruct l; try discriminate. reflexivity.
Qed.

Lemma set_checksums_twice doc :
  sentinel_alone digest doc ->
  set_checksums digest (set_checksums digest doc) = set_checksums digest doc.
Proof.
  destruct sane as [_ [_ H]]. intros Alone.
  destruct (existsb is_sentinel doc) eqn:S.
  - assert (E : set_checksums digest doc = map (set_sentinel digest) doc)
      by (unfold set_checksums; rewrite S; reflexivity).
    rewrite E. unfold set_checksums.
    rewrite no_sentinel_after_set_sentinel by exact Alone.
    rewrite existsb_checksum_set_sentinel, (sentinel_is_checksum _ S).
    rewrite map_map. apply map_ext_in. intros l I.
    unfold set_sentinel. destruct l; try reflexivity. simpl.
    destruct (str_eqb value (lit "SKIP")) eqn:Q; [reflexivity|].
    simpl. destruct (Alone S value I) as [X|X].
    + subst value. vm_compute in Q. discriminate.
    + subst value. reflexivity.
  - destruct (existsb is_checksum doc) eqn:C.
    + assert (E : set_checksums digest doc = map (set_checksum digest) doc)
        by (unfold set_checksums; rewrite S, C; reflexivity).
      rewrite E. unfold set_checksums.
      assert (S' : existsb is_sentinel (map (set_checksum digest) doc) = false).
      { clear - H. induction doc as [|l doc IH]; [reflexivity|].
        simpl. rewrite IH, orb_false_r. destruct l; try reflexivity.
        simpl. apply hex_not_sentinel. exact H. }
      assert (C' : existsb is_checksum (map (set_checksum digest) doc) = true).
      { rewrite <- C. clear. induction doc as [|l doc IH]; [reflexivity|].
        simpl. rewrite IH. f_equal. destruct l; reflexivity. }
      rewrite S', C', map_map. apply map_ext. intros l.
      destruct l; reflexivity.
    + assert (E : set_checksums digest doc = add_checksum digest doc)
        by (unfold set_checksums; rewrite S, C; reflexivity).
      rewrite E. unfold set_checksums.
      assert (Gen : forall d,
                 existsb is_sentinel d = false ->
                 existsb is_checksum d = false ->
                 (existsb is_sentinel (add_checksum digest d) = false /\
                  (if existsb is_checksum (add_checksum digest d)
                   then map (set_checksum digest) (add_checksum digest d)
                   else add_checksum digest (add_checksum digest d))
                  = add_checksum digest d)).
      { induction d as [|l d IH]; [auto|]. simpl.
        intros S0 C0. apply orb_false_iff in S0 as [S1 S2].
        apply orb_false_iff in C0 as [C1 C2].
        destruct (has_items l) eqn:I.
        - simpl. rewrite S1, S2, (hex_not_sentinel digest H), C1. simpl.
          split; [reflexivity|].
          assert (Fix : forall d', existsb is_checksum d' = false ->
                          map (set_checksum digest) d' = d').
          { clear. induction d' as [|x d' IH]; [reflexivity|]. simpl.
            intros X. apply orb_false_iff in X as [X1 X2].
            rewrite IH by exact X2. destruct x; try reflexivity.
            discriminate. }
          rewrite Fix by exact C2. destruct l; try reflexivity. discriminate.
        - simpl. rewrite S1, C1, I. simpl.
          destruct (IH S2 C2) as [A B]. split; [exact A|].
          destruct (existsb is_checksum (add_checksum digest d)).
          + simpl. rewrite B. destruct l; try reflexivity. discriminate.
          + rewrite B. reflexivity. }
      destruct (Gen doc S C) as [A B]. rewrite A. exact B.
Qed.

Lemma sentinel_alone_fields doc :
  sentinel_alone digest doc -> sentinel_alone digest (map fields doc).
Proof.
  unfold sentinel_alone.
  rewrite (existsb_map_fields is_sentinel) by apply is_sentinel_fields.
  intros H S value I. apply (H S). apply in_map_iff in I as [l [E I]].
  destruct l; try discriminate. simpl in E. inversion E; subst. exact I.
Qed.

(** On lines, running twice is running once. *)
Lemma update_twice doc :
  sentinel_alone digest doc ->
  update version info (update version info doc) = update version info doc.
Proof.
  intros Alone. unfold update. rewrite !map_fields.
  fold digest. rewrite map_fields_set_checksums, map_fields_twice.
  apply set_checksums_twice. apply sentinel_alone_fields. exact Alone.
Qed.

End Update.
End DocumentFacts.


(* ================================================================= *)
(** ** Where the field openings can occur in a line *)

Module LineFacts.
Import UpdatePkgbuild.
Import DocumentFacts.

(** An opening that holds the character [e] does not start within a run
    free of [e], when the run is followed by nothing or by a character the
    opening does not hold. *)
Lemma occ_in_marker_stop (head : str) (e : char) (x b : str) :
  In e head -> ~ In e x ->
  (b = [] \/ exists c b', b = c :: b' /\ ~ In c head) ->
  occ_in head x b = 0.
Proof.
  intros He Hx Hb. apply occ_in_zero. intros a1 a2 E N.
  destruct (starts_with head (a2 ++ b)) eqn:S; [exfalso|reflexivity].
  apply starts_with_true in S as [t S].
  destruct (Nat.le_gt_cases (length head) (length a2)) as [L|L].
  - destruct (app_split_le _ _ _ _ _ S L) as [d [-> _]].
    apply Hx. rewrite E. apply in_or_app. right.
    apply in_or_app. left. exact He.
  - assert (L' : length a2 <= length head) by lia. symmetry in S.
    destruct (app_split_le _ _ _ _ _ S L') as [d [-> D]].
    destruct d as [|c0 d]; [rewrite length_app in L; simpl in L; lia|].
    destruct Hb as [->|[c [b' [-> Hc]]]]; [discriminate|].
    inversion D; subst. apply Hc. apply in_or_app. right. left. reflexivity.
Qed.

(** The same when the text that follows the run does not bring [e] soon
    enough. *)
Lemma occ_in_marker_far (head : str) (e : char) (x b : str) :
  In e head -> ~ In e x -> ~ In e (firstn (length head - 1) b) ->
  occ_in head x b = 0.
Proof.
  intros He Hx Hb. apply occ_in_zero. intros a1 a2 E N.
  destruct (starts_with head (a2 ++ b)) eqn:S; [exfalso|reflexivity].
  apply starts_with_true in S as [t S].
  destruct (Nat.le_gt_cases (length head) (length a2)) as [L|L].
  - destruct (app_split_le _ _ _ _ _ S L) as [d [-> _]].
    apply Hx. rewrite E. apply in_or_app. right.
    apply in_or_app. left. exact He.
  - assert (L' : length a2 <= length head) by lia. symmetry in S.
    destruct (app_split_le _ _ _ _ _ S L') as [d [Eh D]].
    rewrite Eh in He. apply in_app_or in He as [He|He].
    + apply Hx. rewrite E. apply in_or_app. right. exact He.
    + apply Hb. rewrite D.
      assert (Ld : length d <= length head - 1).
      { rewrite Eh, length_app. destruct a2; [congruence|simpl; lia]. }
      rewrite firstn_app. apply in_or_app. left.
      rewrite firstn_all2 by exact Ld. exact He.
Qed.

Lemma occ_in_line_end (head x rest : str) :
  ~ In NL head -> occ_in head x [] = 0 -> line_end rest ->
  occ_in head x rest = 0.
Proof.
  intros Hn Z [->|[r ->]]; [exact Z|].
  apply occ_in_before_newline with (b := []); assumption.
Qed.

Lemma occ_in_of_contains (head x : str) :
  head <> [] -> contains head x = false -> occ_in head x [] = 0.
Proof.
  intros N C. apply occurrences_zero in C; [|exact N].
  rewrite <- (app_nil_r x), occurrences_app in C. lia.
Qed.

Lemma contains_of_occ_in (head x : str) :
  head <> [] -> occ_in head x [] = 0 -> contains head x = false.
Proof.
  intros N Z. apply occurrences_zero; [exact N|].
  rewrite <- (app_nil_r x), occurrences_app, Z.
  destruct head; [congruence|reflexivity].
Qed.

Lemma opening_facts head :
  In head openings -> head <> [] /\ ~ In NL head /\ In EQ head /\
                      ~ In SQ head /\ ~ In RP head /\ ~ In DQ head.
Proof.
  intros [<-|[<-|[<-|[<-|[]]]]]; vm_compute; intuition discriminate.
Qed.

(** A run free of [=] and followed by the end of its line opens nothing. *)
Lemma run_opens_nothing head x rest :
  In head openings -> free_of [NL; EQ] x -> line_end rest ->
  occ_in head x rest = 0.
Proof.
  intros Hh Fx Le.
  destruct (opening_facts head Hh) as [_ [Hn [He _]]].
  apply occ_in_line_end; auto.
  apply (occ_in_marker_stop head EQ); auto.
  apply (free_of_not_in [NL; EQ]); simpl; auto.
Qed.

Lemma version_opens head value rest :
  In head [pkgrel_head; source_head; sums_head] ->
  free_of [NL; EQ] value -> line_end rest ->
  occ_in head (render_line (Version value)) rest = 0.
Proof.
  intros Hh Fv Le. unfold render_line. rewrite occ_in_app.
  assert (Z : occ_in head value rest = 0)
    by (apply run_opens_nothing; auto; unfold openings; simpl in *; intuition).
  rewrite Z.
  destruct Hh as [<-|[<-|[<-|[]]]]; reflexivity.
Qed.

Lemma release_opens head value rest :
  In head [pkgver_head; source_head; sums_head] ->
  free_of [NL; EQ] value -> line_end rest ->
  occ_in head (render_line (Release value)) rest = 0.
Proof.
  intros Hh Fv Le. unfold render_line. rewrite occ_in_app.
  assert (Z : occ_in head value rest = 0)
    by (apply run_opens_nothing; auto; unfold openings; simpl in *; intuition).
  rewrite Z.
  destruct Hh as [<-|[<-|[<-|[]]]]; reflexivity.
Qed.

Lemma is_word_free value :
  forallb is_word value = true -> free_of [NL; EQ; SQ; RP; DQ] value.
Proof.
  unfold free_of. rewrite !forallb_forall. intros H c Hc.
  specialize (H c Hc). unfold is_word in H. unfold none_of. simpl.
  apply negb_true_iff.
  destruct (N.eqb c NL) eqn:E1; [apply N.eqb_eq in E1; subst; discriminate|].
  destruct (N.eqb c EQ) eqn:E2; [apply N.eqb_eq in E2; subst; discriminate|].
  destruct (N.eqb c SQ) eqn:E3; [apply N.eqb_eq in E3; subst; discriminate|].
  destruct (N.eqb c RP) eqn:E4; [apply N.eqb_eq in E4; subst; discriminate|].
  destruct (N.eqb c DQ) eqn:E5; [apply N.eqb_eq in E5; subst; discriminate|].
  reflexivity.
Qed.

Lemma checksum_opens head value rest :
  In head [pkgver_head; pkgrel_head; source_head] ->
  forallb is_word value = true -> line_end rest ->
  occ_in head (render_line (Checksum value)) rest = 0.
Proof.
  intros Hh Wv Le. unfold render_line, sums_line.
  rewrite occ_in_app, occ_in_app.
  assert (Hh' : In head openings) by (unfold openings; simpl in *; intuition).
  destruct (opening_facts head Hh') as [_ [_ [He [Hq _]]]].
  rewrite (occ_in_marker_stop head EQ value (lit "')" ++ rest)); auto.
  - destruct Hh as [<-|[<-|[<-|[]]]]; reflexivity.
  - apply (free_of_not_in [NL; EQ; SQ; RP; DQ]);
      [apply is_word_free; exact Wv|simpl; auto].
  - right. exists SQ, (RP :: rest). auto.
Qed.

Lemma other_opens head content rest :
  In head openings -> well_formed_line (Other content) -> line_end rest ->
  occ_in head (render_line (Other content)) rest = 0.
Proof.
  intros Hh [Fn [C1 [C2 [C3 C4]]]] Le.
  destruct (opening_facts head Hh) as [Ne [Hn _]].
  apply occ_in_line_end; auto. apply occ_in_of_contains; auto.
  destruct Hh as [<-|[<-|[<-|[<-|[]]]]]; assumption.
Qed.

Lemma registry_source_opens head before p after rest :
  In head [pkgver_head; pkgrel_head; sums_head] ->
  well_formed_line (RegistrySource before p after) ->
  occ_in head (render_line (RegistrySource before p after)) rest = 0.
Proof.
  intros Hh [Fb [[_ Fp] [Fa Qa]]]. unfold render_line.
  assert (Hh' : In head openings) by (unfold openings; simpl in *; intuition).
  destruct (opening_facts head Hh') as [_ [_ [He [_ [Hr Hd]]]]].
  rewrite occ_in_app, occ_in_app, occ_in_app, occ_in_app, occ_in_app.
  rewrite <- !app_assoc.
  rewrite (occ_in_marker_far head EQ before); auto.
  - rewrite (occ_in_marker_stop head EQ p); auto.
    + rewrite (occ_in_marker_stop head EQ after); auto.
      * destruct Hh as [<-|[<-|[<-|[]]]]; reflexivity.
      * apply (free_of_not_in [NL; RP; EQ; COLON]); simpl; auto.
      * right. exists RP, rest. auto.
    + apply (free_of_not_in [NL; RP; EQ; COLON; DQ]); simpl; auto.
    + right. destruct Qa as [->|[r ->]].
      * exists RP, rest. auto.
      * exists DQ, (r ++ [RP] ++ rest). auto.
  - apply (free_of_not_in [NL; RP; EQ; COLON]); simpl; auto.
  - destruct Hh as [<-|[<-|[<-|[]]]]; vm_compute; intuition discriminate.
Qed.

Lemma other_source_opens head items rest :
  In head [pkgver_head; pkgrel_head; sums_head] ->
  well_formed_line (OtherSource items) ->
  occ_in head (render_line (OtherSource items)) rest = 0.
Proof.
  intros Hh [Fi _]. unfold render_line.
  assert (Hh' : In head openings) by (unfold openings; simpl in *; intuition).
  destruct (opening_facts head Hh') as [_ [_ [He [_ [Hr _]]]]].
  rewrite occ_in_app, occ_in_app, <- !app_assoc.
  rewrite (occ_in_marker_stop head EQ items); auto.
  - destruct Hh as [<-|[<-|[<-|[]]]]; reflexivity.
  - apply (free_of_not_in [NL; RP; EQ]); simpl; auto.
  - right. exists RP, rest. auto.
Qed.


(* ----------------------------------------------------------------- *)
(** *** A substitution, line by line *)

Lemma opens_with_seq_lit (l : str) (r : regex) : opens_with (Seq (Lit l) r) l.
Proof.
  intros s rest g. unfold match_here. rewrite run_seq. intros H.
  apply run_lit_inv in H as [s' [-> _]]. eauto.
Qed.

Lemma opens_with_nil (r : regex) (head : str) :
  opens_with r head -> head <> [] -> match_here r [] = None.
Proof.
  intros O N. destruct (match_here r []) as [[rest g]|] eqn:M; [|reflexivity].
  apply O in M as [t M]. destruct head; [congruence|discriminate].
Qed.

Lemma opens_with_newline (r : regex) (head : str) x :
  opens_with r head -> head <> [] -> ~ In NL head ->
  match_here r (NL :: x) = None.
Proof.
  intros O N Hn.
  destruct (match_here r (NL :: x)) as [[rest g]|] eqn:M; [|reflexivity].
  apply O in M as [t M]. destruct head as [|c head]; [congruence|].
  inversion M; subst. destruct Hn. left; reflexivity.
Qed.

Lemma no_match_in_cons_intro (r : regex) c pre post :
  match_here r (c :: pre ++ post) = None -> no_match_in r pre post ->
  no_match_in r (c :: pre) post.
Proof.
  intros M H [|x a] b E N; simpl in E.
  - subst b. exact M.
  - inversion E; subst. apply (H a b); auto.
Qed.

(** A line in which the opening of [r] does not start is copied. *)
Lemma line_fixed (r : regex) f (head l rest : str) :
  opens_with r head -> head <> [] ->
  occ_in head l rest = 0 ->
  sub r f (l ++ rest) = l ++ sub r f rest.
Proof.
  intros O N Z. apply sub_skip.
  - apply ChecksumFacts.no_head_no_match with (head := head); auto.
  - right. apply opens_with_nil with (head := head); auto.
Qed.

(** A line that is one match is replaced. *)
Lemma line_replaced (r : regex) f (l rest l' : str) g :
  l <> [] -> match_here r (l ++ rest) = Some (rest, g) ->
  f (MatchObj [] l rest g) = l' ->
  sub r f (l ++ rest) = l' ++ sub r f rest.
Proof. intros N M <-. apply sub_match; auto. Qed.

(** A substitution that works within the lines of a descriptor can be read
    line by line. *)
Lemma sub_render (r : regex) f (head : str) (step : line -> line) doc :
  opens_with r head -> head <> [] -> ~ In NL head ->
  (forall l rest, In l doc -> line_end rest ->
                  sub r f (render_line l ++ rest)
                  = render_line (step l) ++ sub r f rest) ->
  sub r f (render doc) = render (map step doc).
Proof.
  intros O N Hn H. unfold render.
  induction doc as [|l doc IH].
  - simpl. apply sub_nil. apply opens_with_nil with (head := head); auto.
  - destruct doc as [|l2 doc].
    + simpl. rewrite <- (app_nil_r (render_line l)).
      rewrite H; [|left; reflexivity|left; reflexivity].
      rewrite sub_nil by (apply opens_with_nil with (head := head); auto).
      rewrite !app_nil_r. reflexivity.
    + change (join [NL] (map render_line (l :: l2 :: doc)))
        with (render_line l ++ NL :: join [NL] (map render_line (l2 :: doc))).
      rewrite H; [|left; reflexivity|right; eauto].
      rewrite sub_no_match
        by (apply opens_with_newline with (head := head); auto).
      rewrite IH by (intros; apply H; auto; right; assumption).
      reflexivity.
Qed.

Lemma match_lit_plus (l : str) (p : char -> bool) x rest :
  x <> [] -> forallb p x = true -> stops p rest ->
  match_here (Seq (Lit l) (Plus p)) (l ++ x ++ rest) = Some (rest, []).
Proof.
  intros N P St. unfold match_here. rewrite run_seq, run_lit.
  apply run_plus_max; auto.
Qed.

Lemma match_lit_plus_stop (l : str) (p : char -> bool) rest :
  stops p rest -> match_here (Seq (Lit l) (Plus p)) (l ++ rest) = None.
Proof.
  intros St. unfold match_here. rewrite run_seq, run_lit.
  destruct St as [->|[c [r [-> Pc]]]]; simpl; [reflexivity|].
  rewrite Pc. reflexivity.
Qed.

(* ----------------------------------------------------------------- *)
(** *** The version and the release counter *)

Lemma free_of_newline_run x :
  free_of [NL; EQ] x -> forallb dot x = true.
Proof.
  intros F. apply CheckVersionFacts.dot_run.
  apply (free_of_not_in [NL; EQ]); simpl; auto.
Qed.

(** A line of the shape [name=value] under the pattern [name=.+]. *)
Lemma assignment_line (head value new rest : str) :
  In head [pkgver_head; pkgrel_head] ->
  free_of [NL; EQ] value -> line_end rest ->
  sub (Seq (Lit head) (Plus dot)) (template (head ++ new))
      ((head ++ value) ++ rest)
  = (head ++ new_value value new)
    ++ sub (Seq (Lit head) (Plus dot)) (template (head ++ new)) rest.
Proof.
  intros Hh Fv Le.
  assert (St : stops dot rest) by (apply CheckVersionFacts.line_end_stops; auto).
  destruct value as [|c value].
  - simpl new_value. rewrite app_nil_r. apply sub_skip.
    + assert (E : exists k t, head = k :: t /\ occ_in head t rest = 0).
      { destruct Hh as [<-|[<-|[]]]; eexists; eexists; split;
          try reflexivity; reflexivity. }
      destruct E as [k [t [E Z]]]. rewrite E at 2.
      apply no_match_in_cons_intro.
      * change (k :: t ++ rest) with ((k :: t) ++ rest). rewrite <- E.
        apply match_lit_plus_stop. exact St.
      * apply ChecksumFacts.no_head_no_match with (head := head); auto.
        apply opens_with_seq_lit.
    + right. apply opens_with_nil with (head := head);
        [apply opens_with_seq_lit|].
      destruct Hh as [<-|[<-|[]]]; discriminate.
  - simpl new_value. apply line_replaced with (g := []).
    + destruct Hh as [<-|[<-|[]]]; discriminate.
    + rewrite <- app_assoc. apply match_lit_plus; auto;
        [discriminate|apply free_of_newline_run; exact Fv].
    + reflexivity.
Qed.

Section Stages.

Variable version : str.

Lemma pkgver_stage_line l rest :
  well_formed_line l -> line_end rest ->
  sub re_pkgver (template (lit "pkgver=" ++ version)) (render_line l ++ rest)
  = render_line (set_version version l)
    ++ sub re_pkgver (template (lit "pkgver=" ++ version)) rest.
Proof.
  intros W Le. unfold re_pkgver. cbn [seq].
  destruct l as [value|value|before p after|items|value|content];
    cbn [set_version].
  - apply (assignment_line pkgver_head); simpl; auto.
  - apply line_fixed with (head := pkgver_head);
      [apply opens_with_seq_lit|discriminate|].
    apply release_opens; simpl; auto.
  - apply line_fixed with (head := pkgver_head);
      [apply opens_with_seq_lit|discriminate|].
    apply registry_source_opens; simpl; auto.
  - apply line_fixed with (head := pkgver_head);
      [apply opens_with_seq_lit|discriminate|].
    apply other_source_opens; simpl; auto.
  - apply line_fixed with (head := pkgver_head);
      [apply opens_with_seq_lit|discriminate|].
    apply checksum_opens; simpl; auto.
  - apply line_fixed with (head := pkgver_head);
      [apply opens_with_seq_lit|discriminate|].
    apply other_opens; unfold openings; simpl; auto.
Qed.

Lemma pkgrel_stage_line l rest :
  well_formed_line l -> line_end rest ->
  sub re_pkgrel (template (lit "pkgrel=1")) (render_line l ++ rest)
  = render_line (set_release l)
    ++ sub re_pkgrel (template (lit "pkgrel=1")) rest.
Proof.
  intros W Le. unfold re_pkgrel. cbn [seq].
  destruct l as [value|value|before p after|items|value|content];
    cbn [set_release].
  - apply line_fixed with (head := pkgrel_head);
      [apply opens_with_seq_lit|discriminate|].
    apply version_opens; simpl; auto.
  - apply (assignment_line pkgrel_head value (lit "1")); simpl; auto.
  - apply line_fixed with (head := pkgrel_head);
      [apply opens_with_seq_lit|discriminate|].
    apply registry_source_opens; simpl; auto.
  - apply line_fixed with (head := pkgrel_head);
      [apply opens_with_seq_lit|discriminate|].
    apply other_source_opens; simpl; auto.
  - apply line_fixed with (head := pkgrel_head);
      [apply opens_with_seq_lit|discriminate|].
    apply checksum_opens; simpl; auto.
  - apply line_fixed with (head := pkgrel_head);
      [apply opens_with_seq_lit|discriminate|].
    apply other_opens; unfold openings; simpl; auto.
Qed.

Lemma update_pkgver_render doc :
  well_formed doc ->
  update_pkgver version (render doc) = render (map (set_version version) doc).
Proof.
  intros W. unfold update_pkgver.
  apply sub_render with (head := pkgver_head).
  - apply opens_with_seq_lit.
  - discriminate.
  - vm_compute. intuition discriminate.
  - intros l rest I Le. apply pkgver_stage_line; auto.
    unfold well_formed in W. rewrite Forall_forall in W. auto.
Qed.

Lemma reset_pkgrel_render doc :
  well_formed doc ->
  reset_pkgrel (render doc) = render (map set_release doc).
Proof.
  intros W. unfold reset_pkgrel.
  apply sub_render with (head := pkgrel_head).
  - apply opens_with_seq_lit.
  - discriminate.
  - vm_compute. intuition discriminate.
  - intros l rest I Le. apply pkgrel_stage_line; auto.
    unfold well_formed in W. rewrite Forall_forall in W. auto.
Qed.

End Stages.


(* ----------------------------------------------------------------- *)
(** *** The source URL *)

Lemma registry_colon :
  registry = lit "https" ++ COLON :: lit "//files.pythonhosted.org/packages/".
Proof. reflexivity. Qed.

Lemma registry_free : free_of [RP; NL; DQ; EQ] registry.
Proof. reflexivity. Qed.

(** The registry prefix does not start again before the parenthesis that
    closes a source assignment without further colon. *)
Lemma registry_once x rest :
  ~ In COLON x ->
  occ_in registry (lit "ttps://files.pythonhosted.org/packages/" ++ x)
         (RP :: rest) = 0.
Proof.
  intros Hx. rewrite occ_in_app.
  rewrite (occ_in_marker_stop registry COLON x (RP :: rest)).
  - reflexivity.
  - rewrite registry_colon. apply in_or_app. right. left. reflexivity.
  - exact Hx.
  - right. exists RP, rest. split; [reflexivity|].
    apply (free_of_not_in [RP; NL; DQ; EQ]); [exact registry_free|].
    left; reflexivity.
Qed.

Lemma opens_with_source_url : opens_with re_source_url source_head.
Proof.
  intros s rest g. unfold match_here, re_source_url. cbn [seq].
  rewrite run_seq, run_grp, run_seq. intros H.
  apply run_lit_inv in H as [s' [-> _]]. eauto.
Qed.

Lemma not_in_app (c : char) (x y : str) :
  ~ In c x -> ~ In c y -> ~ In c (x ++ y).
Proof. intros Hx Hy H. apply in_app_or in H as [H|H]; auto. Qed.

Lemma run_star (p : char -> bool) s g k :
  run (Star p) s g k = star_k p s (fun s' => k s' g).
Proof. reflexivity. Qed.

Lemma registry_source_match before p after rest :
  well_formed_line (RegistrySource before p after) ->
  match_here re_source_url (render_line (RegistrySource before p after) ++ rest)
  = Some (rest, [(2, after ++ [RP]); (1, source_head ++ before ++ registry)]).
Proof.
  intros [Fb [[Np Fp] [Fa Qa]]].
  unfold match_here, re_source_url, render_line. cbn [seq].
  rewrite run_seq, run_grp, run_seq. rewrite <- !app_assoc.
  rewrite run_lit. cbn beta. rewrite run_seq, run_star.
  apply star_k_intro.
  - apply (free_of_weaken [NL; RP; EQ; COLON]); [|exact Fb].
    intros c [<-|[]]; simpl; auto.
  - cbn beta. rewrite run_lit. cbn beta.
    assert (G1 : firstn
                   (length (source_head ++ before ++ registry ++ p ++ after
                            ++ [RP] ++ rest)
                    - length (p ++ after ++ [RP] ++ rest))
                   (source_head ++ before ++ registry ++ p ++ after
                    ++ [RP] ++ rest)
                 = source_head ++ before ++ registry).
    { replace (source_head ++ before ++ registry ++ p ++ after ++ [RP] ++ rest)
        with ((source_head ++ before ++ registry)
              ++ (p ++ after ++ [RP] ++ rest))
        by (rewrite <- !app_assoc; reflexivity).
      apply firstn_length_app. }
    rewrite G1. rewrite run_seq.
    apply run_plus_max.
    + exact Np.
    + apply (free_of_weaken [NL; RP; EQ; COLON; DQ]); [|exact Fp].
      intros c [<-|[<-|[]]]; simpl; auto 6.
    + destruct Qa as [->|[r ->]]; right.
      * exists RP, rest. split; reflexivity.
      * exists DQ, (r ++ [RP] ++ rest). split; reflexivity.
    + cbn beta. rewrite run_grp, run_seq, run_star.
      apply star_k_max.
      * apply (free_of_weaken [NL; RP; EQ; COLON]); [|exact Fa].
        intros c [<-|[]]; simpl; auto.
      * apply ChecksumFacts.stops_at.
      * cbn beta. rewrite run_lit.
        replace (after ++ [RP] ++ rest) with ((after ++ [RP]) ++ rest)
          by (rewrite <- app_assoc; reflexivity).
        rewrite firstn_length_app. reflexivity.
  - intros m2 s2 E P2 L. cbn beta.
    apply run_lit_None. intros t S.
    assert (Le : length m2 <= length (before ++ registry ++ p ++ after)).
    { apply (stops_no_longer_run (none_of [RP]) _ ([RP] ++ rest) m2 s2);
        [apply ChecksumFacts.stops_at| |exact P2].
      rewrite <- E, <- !app_assoc. reflexivity. }
    assert (E' : (before ++ registry ++ p ++ after) ++ [RP] ++ rest
                 = m2 ++ s2) by (rewrite <- E, <- !app_assoc; reflexivity).
    destruct (app_split_le _ _ _ _ _ E' Le) as [b [Eb Es]].
    assert (Lb : length before <= length m2) by lia.
    symmetry in Eb.
    destruct (app_split_le _ _ _ _ _ Eb Lb) as [d [Em Ed]].
    destruct d as [|h d];
      [rewrite app_nil_r in Em; rewrite Em in L; lia|].
    change registry
      with (104%N :: lit "ttps://files.pythonhosted.org/packages/") in Ed.
    assert (Z := registry_once (p ++ after) rest
                   (not_in_app COLON p after
                      (free_of_not_in [NL; RP; EQ; COLON; DQ] p COLON Fp
                         ltac:(simpl; auto 6))
                      (free_of_not_in [NL; RP; EQ; COLON] after COLON Fa
                         ltac:(simpl; auto 6)))).
    rewrite occ_in_zero in Z.
    destruct b as [|x b].
    + rewrite S in Es. discriminate Es.
    + change ((104%N :: lit "ttps://files.pythonhosted.org/packages/")
              ++ p ++ after)
        with (104%N :: (lit "ttps://files.pythonhosted.org/packages/"
                        ++ p ++ after)) in Ed.
      change ((h :: d) ++ x :: b) with (h :: (d ++ x :: b)) in Ed.
      injection Ed as Eh Et.
      specialize (Z d (x :: b) Et ltac:(discriminate)).
      change (RP :: rest) with ([RP] ++ rest) in Z.
      rewrite <- Es, S, starts_with_app in Z. discriminate.
Qed.


(** A text that starts within a run followed by a character it does not
    hold lies within the run. *)
Lemma starts_in_run (needle x : str) (c : char) (rest t : str) :
  x ++ c :: rest = needle ++ t -> ~ In c needle ->
  exists u, x = needle ++ u.
Proof.
  intros E Hc.
  destruct (Nat.le_gt_cases (length needle) (length x)) as [L|L].
  - destruct (app_split_le _ _ _ _ _ E L) as [b [-> _]]. eauto.
  - exfalso. assert (L' : length x <= length needle) by lia.
    symmetry in E. destruct (app_split_le _ _ _ _ _ E L') as [b [Eb Ec]].
    destruct b as [|c0 b].
    + rewrite Eb, app_nil_r in L. lia.
    + injection Ec as <- _. apply Hc. rewrite Eb.
      apply in_or_app. right. left. reflexivity.
Qed.

Lemma other_source_no_match items rest :
  well_formed_line (OtherSource items) ->
  no_match_in re_source_url (render_line (OtherSource items)) rest.
Proof.
  intros [Fi Ci]. unfold render_line.
  change (source_head ++ items ++ [RP])
    with (115%N :: (lit "ource=(" ++ items ++ [RP])).
  apply no_match_in_cons_intro.
  - change (match_here re_source_url ((source_head ++ items ++ [RP]) ++ rest)
            = None).
    rewrite <- !app_assoc.
    unfold match_here, re_source_url. cbn [seq].
    rewrite run_seq, run_grp, run_seq, run_lit. cbn beta.
    rewrite run_seq, run_star.
    apply star_k_None. intros m s' E Pm. cbn beta.
    apply run_lit_None. intros t S.
    assert (Le : length m <= length items).
    { apply (stops_no_longer_run (none_of [RP]) _ ([RP] ++ rest) m s');
        [apply ChecksumFacts.stops_at|exact E|exact Pm]. }
    destruct (app_split_le _ _ _ _ _ E Le) as [b [Ei Es]].
    rewrite S in Es. symmetry in Es.
    destruct (starts_in_run registry b RP rest t Es) as [u Eu].
    + apply (free_of_not_in [RP; NL; DQ; EQ]); [exact registry_free|].
      left; reflexivity.
    + rewrite contains_false in Ci. apply (Ci m u).
      rewrite Ei, Eu. reflexivity.
  - apply ChecksumFacts.no_head_no_match with (head := source_head);
      [apply opens_with_source_url|].
    rewrite occ_in_app, occ_in_app.
    rewrite (occ_in_marker_stop source_head EQ items ([RP] ++ rest)).
    + reflexivity.
    + vm_compute. auto 10.
    + apply (free_of_not_in [NL; RP; EQ]); simpl; auto.
    + right. exists RP, rest. split; [reflexivity|].
      vm_compute. intuition discriminate.
Qed.

Section SourceStage.

Variable suffix : str.

Local Abbreviation replacement :=
  (fun m => the (group m 1) ++ suffix ++ the (group m 2)).

Lemma source_stage_line l rest :
  well_formed_line l -> line_end rest ->
  sub re_source_url replacement (render_line l ++ rest)
  = render_line (set_path suffix l) ++ sub re_source_url replacement rest.
Proof.
  intros W Le.
  destruct l as [value|value|before p after|items|value|content];
    cbn [set_path].
  - apply line_fixed with (head := source_head);
      [apply opens_with_source_url|discriminate|].
    apply version_opens; simpl; auto.
  - apply line_fixed with (head := source_head);
      [apply opens_with_source_url|discriminate|].
    apply release_opens; simpl; auto.
  - apply line_replaced
      with (g := [(2, after ++ [RP]); (1, source_head ++ before ++ registry)]).
    + discriminate.
    + apply registry_source_match. exact W.
    + unfold group, render_line. cbn [m_groups lookup Nat.eqb the].
      rewrite <- !app_assoc. reflexivity.
  - apply sub_skip.
    + apply other_source_no_match. exact W.
    + right. apply opens_with_nil with (head := source_head);
        [apply opens_with_source_url|discriminate].
  - apply line_fixed with (head := source_head);
      [apply opens_with_source_url|discriminate|].
    apply checksum_opens; simpl; auto.
  - apply line_fixed with (head := source_head);
      [apply opens_with_source_url|discriminate|].
    apply other_opens; unfold openings; simpl; auto.
Qed.

Lemma source_stage_render doc :
  well_formed doc ->
  sub re_source_url replacement (render doc)
  = render (map (set_path suffix) doc).
Proof.
  intros W. apply sub_render with (head := source_head).
  - apply opens_with_source_url.
  - discriminate.
  - vm_compute. intuition discriminate.
  - intros l rest I Le. apply source_stage_line; auto.
    unfold well_formed in W. rewrite Forall_forall in W. auto.
Qed.

End SourceStage.

Lemma update_source_render url doc :
  well_formed doc ->
  update_source url (render doc) = render (map (set_path (url_suffix url)) doc).
Proof.
  intros W. unfold update_source.
  rewrite <- (source_stage_render (url_suffix url) doc W).
  destruct (contains (lit "source=(") (render doc)) eqn:C; [reflexivity|].
  symmetry. apply sub_id.
  apply ChecksumFacts.no_head_no_search with (head := source_head).
  - discriminate.
  - apply opens_with_source_url.
  - apply occurrences_zero; [discriminate|exact C].
Qed.


(* ----------------------------------------------------------------- *)
(** *** Which branch the checksum rewrite takes *)

Lemma render_cons l doc :
  render (l :: doc)
  = render_line l ++ match doc with
                     | [] => []
                     | _ :: _ => NL :: render doc
                     end.
Proof.
  destruct doc as [|l2 doc]; [|reflexivity].
  unfold render. cbn [map join]. rewrite app_nil_r. reflexivity.
Qed.

Lemma line_end_tail doc :
  line_end match doc with
           | [] => []
           | _ :: _ => NL :: render doc
           end.
Proof. destruct doc; [left; reflexivity|right; eauto]. Qed.

Lemma contains_app_zero (needle x y : str) :
  needle <> [] -> occ_in needle x y = 0 ->
  contains needle (x ++ y) = contains needle y.
Proof.
  intros N Z. destruct (contains needle y) eqn:C.
  - apply contains_true in C as [a [b ->]]. apply contains_true.
    exists (x ++ a), b. rewrite <- app_assoc. reflexivity.
  - apply occurrences_zero; [exact N|].
    apply occurrences_zero in C; [|exact N].
    rewrite occurrences_app, Z, C. reflexivity.
Qed.

Lemma contains_app_left (needle x y : str) :
  contains needle x = true -> contains needle (x ++ y) = true.
Proof.
  intros C. apply contains_true in C as [a [b ->]]. apply contains_true.
  exists a, (b ++ y). rewrite <- !app_assoc. reflexivity.
Qed.

Lemma contains_newline (needle s : str) :
  needle <> [] -> ~ In NL needle ->
  contains needle (NL :: s) = contains needle s.
Proof.
  intros N Hn. destruct needle as [|k needle]; [congruence|].
  apply (contains_app_zero (k :: needle) [NL] s); [discriminate|].
  apply occ_in_no_first. intros [E|[]]. apply Hn. left. auto.
Qed.

(** Whether [needle] occurs in a descriptor, read off its lines. *)
Lemma contains_render (needle : str) (test : line -> bool) doc :
  needle <> [] -> ~ In NL needle ->
  (forall l rest, In l doc -> line_end rest -> test l = false ->
                  occ_in needle (render_line l) rest = 0) ->
  (forall l, In l doc -> test l = true ->
             contains needle (render_line l) = true) ->
  contains needle (render doc) = existsb test doc.
Proof.
  intros N Hn. induction doc as [|l doc IH]; intros H0 H1.
  - apply contains_false. intros a b E. destruct needle; [congruence|].
    destruct a; discriminate.
  - rewrite render_cons. cbn [existsb].
    destruct (test l) eqn:T.
    + apply contains_app_left. apply H1; [left; reflexivity|exact T].
    + rewrite contains_app_zero;
        [|exact N|apply H0; [left; reflexivity|apply line_end_tail|exact T]].
      cbn [orb]. destruct doc as [|l2 doc].
      * apply contains_false. intros a b E. destruct needle; [congruence|].
        destruct a; discriminate.
      * rewrite contains_newline by assumption.
        apply IH; intros; [apply H0|apply H1]; auto; right; assumption.
Qed.

(** An occurrence of a text is an occurrence of its beginning. *)
Lemma occ_in_longer (n1 n2 a b : str) :
  occ_in n1 a b = 0 -> occ_in (n1 ++ n2) a b = 0.
Proof.
  rewrite !occ_in_zero. intros H a1 a2 E N.
  specialize (H a1 a2 E N).
  destruct (starts_with (n1 ++ n2) (a2 ++ b)) eqn:S; [|reflexivity].
  apply starts_with_true in S as [t S].
  rewrite S, <- app_assoc, starts_with_app in H. discriminate.
Qed.

Lemma run_end_unique (c : char) (x y a b : str) :
  x ++ c :: a = y ++ c :: b -> ~ In c x -> ~ In c y -> x = y.
Proof.
  revert y. induction x as [|d x IH]; intros [|e y] E Hx Hy.
  - reflexivity.
  - injection E as E _. destruct Hy. left. auto.
  - injection E as E _. destruct Hx. left. auto.
  - injection E as -> E. f_equal. apply (IH y E).
    + intros X. apply Hx. right. exact X.
    + intros X. apply Hy. right. exact X.
Qed.

(** Inside a checksum line no opening starts after the first character. *)
Lemma checksum_tail_opens head value rest :
  In head openings -> forallb is_word value = true ->
  occ_in head (lit "ha256sums=('" ++ value ++ lit "')") rest = 0.
Proof.
  intros Hh Wv. rewrite occ_in_app, occ_in_app.
  destruct (opening_facts head Hh) as [_ [_ [He [Hq _]]]].
  rewrite (occ_in_marker_stop head EQ value (lit "')" ++ rest)); auto.
  - destruct Hh as [<-|[<-|[<-|[<-|[]]]]]; reflexivity.
  - apply (free_of_not_in [NL; EQ; SQ; RP; DQ]);
      [apply is_word_free; exact Wv|simpl; auto].
  - right. exists SQ, (RP :: rest). auto.
Qed.

Lemma skip_sums_opens l rest :
  well_formed_line l -> line_end rest -> is_sentinel l = false ->
  occ_in skip_sums (render_line l) rest = 0.
Proof.
  intros W Le T.
  change skip_sums with (sums_head ++ lit "'SKIP')").
  destruct l as [value|value|before p after|items|value|content].
  - apply occ_in_longer. apply version_opens; simpl; auto.
  - apply occ_in_longer. apply release_opens; simpl; auto.
  - apply occ_in_longer. apply registry_source_opens; simpl; auto.
  - apply occ_in_longer. apply other_source_opens; simpl; auto.
  - cbn [is_sentinel] in T. apply str_eqb_neq in T.
    cbn [render_line well_formed_line] in *.
    change (sums_line value)
      with (115%N :: (lit "ha256sums=('" ++ value ++ lit "')")).
    cbn [occ_in].
    rewrite (occ_in_longer sums_head (lit "'SKIP')") _ rest
               (checksum_tail_opens sums_head value rest
                  ltac:(unfold openings; simpl; auto) W)).
    match goal with
    | |- context [starts_with ?n ?x] => destruct (starts_with n x) eqn:S
    end; [exfalso|reflexivity].
    apply starts_with_true in S as [t S]. apply T.
    change ((115%N :: (lit "ha256sums=('" ++ value ++ lit "')")) ++ rest)
      with ((lit "sha256sums=('" ++ value ++ lit "')") ++ rest) in S.
    change ((sums_head ++ lit "'SKIP')") ++ t)
      with ((lit "sha256sums=('" ++ lit "SKIP" ++ lit "')") ++ t) in S.
    rewrite <- !app_assoc in S. apply app_inv_head in S.
    apply (run_end_unique SQ value (lit "SKIP") (RP :: rest) (RP :: t) S).
    + apply (free_of_not_in [NL; EQ; SQ; RP; DQ]);
        [apply is_word_free; exact W|simpl; auto].
    + vm_compute. intuition discriminate.
  - apply occ_in_longer. apply other_opens; unfold openings; simpl; auto.
Qed.

Lemma sums_head_opens l rest :
  well_formed_line l -> line_end rest -> is_checksum l = false ->
  occ_in sums_head (render_line l) rest = 0.
Proof.
  intros W Le T.
  destruct l as [value|value|before p after|items|value|content];
    try discriminate T.
  - apply version_opens; simpl; auto.
  - apply release_opens; simpl; auto.
  - apply registry_source_opens; simpl; auto.
  - apply other_source_opens; simpl; auto.
  - apply other_opens; unfold openings; simpl; auto.
Qed.

Lemma contains_sentinel doc :
  well_formed doc ->
  contains skip_sums (render doc) = existsb is_sentinel doc.
Proof.
  intros W. unfold well_formed in W. rewrite Forall_forall in W.
  apply contains_render.
  - discriminate.
  - vm_compute. intuition discriminate.
  - intros l rest I Le T. apply skip_sums_opens; auto.
  - intros l _ T. destruct l; try discriminate T.
    cbn [is_sentinel] in T. apply str_eqb_eq in T. subst value.
    reflexivity.
Qed.

Lemma contains_checksum doc :
  well_formed doc ->
  contains sums_head (render doc) = existsb is_checksum doc.
Proof.
  intros W. unfold well_formed in W. rewrite Forall_forall in W.
  apply contains_render.
  - discriminate.
  - vm_compute. intuition discriminate.
  - intros l rest I Le T. apply sums_head_opens; auto.
  - intros l _ T. destruct l; try discriminate T.
    cbn [render_line]. rewrite ChecksumFacts.sums_line_head.
    apply (ChecksumFacts.contains_mid sums_head []).
Qed.


(* ----------------------------------------------------------------- *)
(** *** The three branches of the checksum rewrite *)

Lemma opens_with_sentinel : opens_with (Lit skip_sums) sums_head.
Proof. intros s rest g. apply ChecksumFacts.match_sentinel_head. Qed.

Lemma opens_with_sums : opens_with re_sums sums_head.
Proof. intros s rest g. apply ChecksumFacts.match_sums_head. Qed.

Lemma opens_with_source : opens_with re_source source_head.
Proof. intros s rest g. apply ChecksumFacts.match_source_head. Qed.

Lemma sentinel_stage_line digest l rest :
  well_formed_line l -> line_end rest ->
  sub (Lit skip_sums) (template (sums_line digest)) (render_line l ++ rest)
  = render_line (set_sentinel digest l)
    ++ sub (Lit skip_sums) (template (sums_line digest)) rest.
Proof.
  intros W Le. unfold set_sentinel.
  destruct (is_sentinel l) eqn:T.
  - destruct l; try discriminate T.
    cbn [is_sentinel] in T. apply str_eqb_eq in T. subst value.
    apply line_replaced with (g := []).
    + discriminate.
    + apply ChecksumFacts.match_sentinel.
    + reflexivity.
  - apply sub_skip.
    + intros a b E N. apply run_lit_None. intros t S.
      pose proof (skip_sums_opens l rest W Le T) as Z.
      rewrite occ_in_zero in Z. specialize (Z a b E N).
      rewrite S, starts_with_app in Z. discriminate.
    + right. reflexivity.
Qed.

Lemma sums_stage_line digest l rest :
  well_formed_line l -> line_end rest ->
  sub re_sums (template (sums_line digest)) (render_line l ++ rest)
  = render_line (set_checksum digest l)
    ++ sub re_sums (template (sums_line digest)) rest.
Proof.
  intros W Le.
  destruct (is_checksum l) eqn:T.
  - destruct l; try discriminate T. cbn [set_checksum render_line].
    apply line_replaced with (g := []).
    + discriminate.
    + apply ChecksumFacts.match_sums_line.
      apply (free_of_not_in [NL; EQ; SQ; RP; DQ]);
        [apply is_word_free; exact W|simpl; auto].
    + reflexivity.
  - replace (set_checksum digest l) with l by (destruct l; auto; discriminate).
    apply line_fixed with (head := sums_head);
      [apply opens_with_sums|discriminate|].
    apply sums_head_opens; auto.
Qed.

Lemma sentinel_stage_render digest doc :
  well_formed doc ->
  sub (Lit skip_sums) (template (sums_line digest)) (render doc)
  = render (map (set_sentinel digest) doc).
Proof.
  intros W. apply sub_render with (head := sums_head).
  - apply opens_with_sentinel.
  - discriminate.
  - vm_compute. intuition discriminate.
  - intros l rest I Le. apply sentinel_stage_line; auto.
    unfold well_formed in W. rewrite Forall_forall in W. auto.
Qed.

Lemma sums_stage_render digest doc :
  well_formed doc ->
  sub re_sums (template (sums_line digest)) (render doc)
  = render (map (set_checksum digest) doc).
Proof.
  intros W. apply sub_render with (head := sums_head).
  - apply opens_with_sums.
  - discriminate.
  - vm_compute. intuition discriminate.
  - intros l rest I Le. apply sums_stage_line; auto.
    unfold well_formed in W. rewrite Forall_forall in W. auto.
Qed.

(** The third branch: the first source assignment with something between
    its parentheses is the match. *)
Lemma has_items_match l rest :
  well_formed_line l -> has_items l = true ->
  match_here re_source (render_line l ++ rest) = Some (rest, []).
Proof.
  intros W T.
  destruct l as [value|value|before p after|items|value|content];
    try discriminate T; cbn [render_line].
  - destruct W as [Fb [[Np Fp] [Fa Qa]]].
    replace ((source_head ++ before ++ registry ++ p ++ after ++ [RP]) ++ rest)
      with (source_head ++ (before ++ registry ++ p ++ after) ++ [RP] ++ rest)
      by (rewrite <- !app_assoc; reflexivity).
    apply ChecksumFacts.match_source.
    + destruct before; discriminate.
    + repeat apply not_in_app.
      * apply (free_of_not_in [NL; RP; EQ; COLON]); simpl; auto.
      * apply (free_of_not_in [RP; NL; DQ; EQ]); [exact registry_free|].
        left; reflexivity.
      * apply (free_of_not_in [NL; RP; EQ; COLON; DQ]); simpl; auto.
      * apply (free_of_not_in [NL; RP; EQ; COLON]); simpl; auto.
  - destruct W as [Fi _]. destruct items as [|c items]; [discriminate T|].
    rewrite <- !app_assoc.
    apply ChecksumFacts.match_source.
    + discriminate.
    + apply (free_of_not_in [NL; RP; EQ]); simpl; auto.
Qed.

Lemma no_items_no_match l rest :
  well_formed_line l -> has_items l = false -> line_end rest ->
  no_match_in re_source (render_line l) rest.
Proof.
  intros W T Le.
  destruct l as [value|value|before p after|items|value|content];
    try discriminate T.
  - apply ChecksumFacts.no_head_no_match with (head := source_head);
      [apply opens_with_source|]. apply version_opens; simpl; auto.
  - apply ChecksumFacts.no_head_no_match with (head := source_head);
      [apply opens_with_source|]. apply release_opens; simpl; auto.
  - destruct items as [|c items]; [|discriminate T].
    cbn [render_line].
    change (source_head ++ [] ++ [RP]) with (115%N :: lit "ource=()").
    apply no_match_in_cons_intro; [reflexivity|].
    apply ChecksumFacts.no_head_no_match with (head := source_head);
      [apply opens_with_source|]. reflexivity.
  - apply ChecksumFacts.no_head_no_match with (head := source_head);
      [apply opens_with_source|]. apply checksum_opens; simpl; auto.
  - apply ChecksumFacts.no_head_no_match with (head := source_head);
      [apply opens_with_source|].
    apply other_opens; unfold openings; simpl; auto.
Qed.

Lemma append_sums_skip digest pre s :
  no_match_in re_source pre s ->
  append_sums digest (pre ++ s) = pre ++ append_sums digest s.
Proof.
  intros H. unfold append_sums. rewrite (search_skip _ _ _ H).
  destruct (search re_source s) as [m|]; [|reflexivity].
  cbn [option_map]. cbv zeta.
  assert (E : m_end (move pre m) = length pre + m_end m).
  { unfold m_end, move. cbn [m_pre m_text]. rewrite length_app. lia. }
  rewrite E, firstn_app_2, skipn_app.
  rewrite skipn_all2 by lia.
  replace (length pre + m_end m - length pre) with (m_end m) by lia.
  rewrite <- app_assoc. reflexivity.
Qed.

Lemma append_sums_newline digest s :
  append_sums digest (NL :: s) = NL :: append_sums digest s.
Proof.
  apply (append_sums_skip digest [NL] s).
  apply no_match_in_cons_intro; [|apply no_match_in_nil].
  apply opens_with_newline with (head := source_head);
    [apply opens_with_source|discriminate|].
  vm_compute. intuition discriminate.
Qed.

Lemma append_stage_render digest doc :
  well_formed doc ->
  append_sums digest (render doc) = render (add_checksum digest doc).
Proof.
  intros W. induction doc as [|l doc IH]; [reflexivity|].
  apply Forall_cons_iff in W as [Wl W].
  cbn [add_checksum]. destruct (has_items l) eqn:T.
  - rewrite (render_cons l (Checksum digest :: doc)),
      (render_cons (Checksum digest) doc), render_cons.
    unfold append_sums.
    rewrite (search_here _ _ _ _ (has_items_match l _ Wl T)).
    cbv zeta. unfold m_end. cbn [m_pre m_text length Nat.add].
    rewrite firstn_app, Nat.sub_diag, firstn_all, skipn_app, Nat.sub_diag,
      skipn_all. cbn [firstn skipn]. rewrite app_nil_r.
    reflexivity.
  - rewrite (render_cons l (add_checksum digest doc)), render_cons.
    rewrite append_sums_skip
      by (apply no_items_no_match; auto; apply line_end_tail).
    f_equal. destruct doc as [|l2 doc]; [reflexivity|].
    rewrite append_sums_newline, (IH W).
    cbn [add_checksum]. destruct (has_items l2); reflexivity.
Qed.

Lemma update_sha256sums_render digest doc :
  well_formed doc ->
  update_sha256sums digest (render doc) = render (set_checksums digest doc).
Proof.
  intros W. unfold update_sha256sums, set_checksums.
  rewrite (contains_sentinel doc W).
  change (lit "sha256sums=(") with sums_head.
  rewrite (contains_checksum doc W).
  destruct (existsb is_sentinel doc).
  - apply sentinel_stage_render. exact W.
  - destruct (existsb is_checksum doc).
    + apply sums_stage_render. exact W.
    + apply (append_stage_render digest doc W).
Qed.

End LineFacts.

(* ================================================================= *)
(** ** The Descriptor Updater: a second run *)

Module RewriteFacts.
Import UpdatePkgbuild.
Import DocumentFacts.
Import LineFacts.

(** On a well-formed descriptor the four rewrites are the line-by-line
    update. *)
Lemma rewrite_render version info doc :
  sane_arguments version info -> well_formed doc ->
  rewrite version info (render doc) = render (update version info doc).
Proof.
  intros Sa W. unfold rewrite, update.
  rewrite (update_pkgver_render version doc W).
  assert (W1 : well_formed (map (set_version version) doc))
    by (apply map_well_formed;
        [apply (set_version_well_formed version info Sa)|exact W]).
  rewrite (reset_pkgrel_render _ W1).
  assert (W2 : well_formed (map set_release (map (set_version version) doc)))
    by (apply map_well_formed; [apply set_release_well_formed|exact W1]).
  rewrite (update_source_render _ _ W2).
  apply update_sha256sums_render.
  apply map_well_formed;
    [apply (set_path_well_formed version info Sa)|exact W2].
Qed.

Lemma rewrite_twice version info doc :
  sane_arguments version info -> well_formed doc ->
  sentinel_alone (info_sha256 info) doc ->
  rewrite version info (rewrite version info (render doc))
  = rewrite version info (render doc).
Proof.
  intros Sa W Al.
  rewrite (rewrite_render version info doc Sa W).
  rewrite (rewrite_render version info _ Sa
             (update_well_formed version info Sa doc W)).
  rewrite (update_twice version info Sa doc Al). reflexivity.
Qed.

(** The checksum rewrite adds or changes checksum lines only. *)
Lemma set_checksums_keeps digest doc l :
  In l (set_checksums digest doc) -> is_checksum l = true \/ In l doc.
Proof.
  unfold set_checksums.
  destruct (existsb is_sentinel doc); [|destruct (existsb is_checksum doc)].
  - intros H. apply in_map_iff in H as [x [<- I]]. unfold set_sentinel.
    destruct (is_sentinel x); auto.
  - intros H. apply in_map_iff in H as [x [<- I]].
    destruct x; auto.
  - induction doc as [|x doc IH]; [auto|]. cbn [add_checksum].
    destruct (has_items x).
    + intros [<-|[<-|H]]; auto; right; [left|right]; auto.
    + intros [<-|H]; [right; left; reflexivity|].
      destruct (IH H); auto. right. right. assumption.
Qed.

(** After a run every release counter that has a value is 1. *)
Lemma release_is_reset version info doc value :
  In (Release value) (update version info doc) ->
  value = [] \/ value = lit "1".
Proof.
  unfold update. intros H.
  apply set_checksums_keeps in H as [H|H]; [discriminate H|].
  rewrite !map_map in H. apply in_map_iff in H as [x [E _]].
  destruct x as [v|v|b p a|i|v|c]; try discriminate E.
  cbn [set_version set_release set_path] in E. injection E as <-.
  destruct v; auto.
Qed.





End RewriteFacts.

(* ================================================================= *)
(** ** The Descriptor Updater: every run *)

Module UpdaterRunFacts.
Import UpdatePkgbuild.
Import UpdatePkgbuildFacts.

Section Runs.

Variable sha256_hexdigest : list N -> str.
Variable net : remote.
Variable args : args.

(** What a run does, by cases on what the index answers and on the state of
    PKGBUILD. *)
Lemma main_run w :
  exists lines,
    main sha256_hexdigest net args w =
    match release_record net (arg_version args) with
    | Failed _ =>
        (Exited 1%Z, observed w lines [record_url (arg_version args)])
    | Fetched files =>
        match find is_sdist files with
        | None =>
            (Exited 1%Z, observed w lines [record_url (arg_version args)])
        | Some f =>
            let urls :=
              record_url (arg_version args)
              :: (if arg_verify args then [file_url f] else []) in
            if verified sha256_hexdigest net args f
            then
              match pkgbuild w, pkgbuild_write_error w with
              | Some content, None =>
                  (Returned tt,
                   updated w
                     (rewrite (arg_version args)
                        (PackageInfo (file_url f) (digest_sha256 f)) content)
                     lines urls)
              | _, _ => (Exited 1%Z, observed w lines urls)
              end
            else (Exited 1%Z, observed w lines urls)
        end
    end.
Proof.
  unfold main, bind at 1. rewrite print_observed. unfold bind at 1.
  destruct (release_record net (arg_version args)) as [e|files] eqn:R.
  - match goal with |- context [get_package_info _ _ ?w1] =>
      destruct (get_package_info_failed net args w1
                  (or_introl (ex_intro _ e R))) as [lines ->]
    end.
    rewrite observed_observed. unfold sys_exit. eexists. reflexivity.
  - destruct (find is_sdist files) as [f|] eqn:S.
    + rewrite (get_package_info_found net args _ _ _ R S), observed_observed.
      unfold bind at 1. rewrite print_observed, observed_observed.
      unfold bind at 1. rewrite print_observed, observed_observed.
      unfold bind at 1. cbn [info_url info_sha256]. cbv zeta.
      assert (Go : forall lines urls,
                 exists lines',
                   bind (update_pkgbuild (arg_version args)
                           (PackageInfo (file_url f) (digest_sha256 f)))
                        (fun updated =>
                           if negb updated then sys_exit 1%Z
                           else print ([CHECK]
                                  ++ lit " Successfully updated to version "
                                  ++ arg_version args))
                        (observed w lines urls)
                   = match pkgbuild w, pkgbuild_write_error w with
                     | Some content, None =>
                         (Returned tt,
                          updated w
                            (rewrite (arg_version args)
                               (PackageInfo (file_url f) (digest_sha256 f))
                               content)
                            lines' urls)
                     | _, _ => (Exited 1%Z, observed w lines' urls)
                     end).
      { intros lines urls.
        unfold bind, update_pkgbuild, read_pkgbuild, write_pkgbuild, print,
          ret, sys_exit, updated, observed.
        cbn -[lit rewrite].
        destruct (pkgbuild w) as [content|];
          [destruct (pkgbuild_write_error w) as [e|]|];
          cbn -[lit rewrite]; rewrite <- ?app_assoc; eexists; reflexivity. }
      unfold verified. destruct (arg_verify args); cbn [negb orb].
      * match goal with |- context [verify_checksum _ _ _ _ ?w1] =>
          destruct (verify_checksum_spec sha256_hexdigest net w1
                      (file_url f) (digest_sha256 f)) as [lines ->]
        end.
        rewrite observed_observed.
        destruct (artifact net (file_url f)) as [e|body].
        -- cbn [negb]. unfold sys_exit. eexists. reflexivity.
        -- destruct (str_eqb (digest_sha256 f) (sha256_hexdigest body)).
           ++ cbn [negb]. apply Go.
           ++ cbn [negb]. unfold sys_exit. eexists. reflexivity.
      * unfold ret at 1. cbn [negb]. rewrite app_nil_r. apply Go.
    + match goal with |- context [get_package_info _ _ ?w1] =>
        destruct (get_package_info_failed net args w1
                    (or_intror (ex_intro _ files (conj R S)))) as [lines ->]
      end.
      rewrite observed_observed. unfold sys_exit. eexists. reflexivity.
Qed.


(** X1: whatever the index answers and whatever PKGBUILD holds, a run
    requests the record of the release first and, only when that record
    lists a source distribution and verification is on, the URL of that
    distribution next; it requests nothing else.  With --no-verify the
    artifact is never downloaded. *)
Theorem requests_of_a_run w :
  requests (final (main sha256_hexdigest net args w))
  = requests w
    ++ record_url (arg_version args)
       :: match release_record net (arg_version args) with
          | Fetched files =>
              match find is_sdist files with
              | Some f => if arg_verify args then [file_url f] else []
              | None => []
              end
          | Failed _ => []
          end.
Proof.
  destruct (main_run w) as [lines ->].
  destruct (release_record net (arg_version args)) as [e|files];
    [reflexivity|].
  destruct (find is_sdist files) as [f|]; [|reflexivity].
  cbv zeta. destruct (verified sha256_hexdigest net args f); [|reflexivity].
  destruct (pkgbuild w) as [content|];
    [destruct (pkgbuild_write_error w)|]; reflexivity.
Qed.



End Runs.



End UpdaterRunFacts.

(* ================================================================= *)
(** ** The Descriptor Updater: the part of the download URL that is kept *)

Module UrlSuffixFacts.
Import UpdatePkgbuild.

Lemma split_aux_cons (sep : str) cur c s :
  split_aux sep 0 cur (c :: s)
  = if starts_with sep (c :: s)
    then rev cur :: split_aux sep (length sep - 1) [] s
    else split_aux sep 0 (c :: cur) s.
Proof. reflexivity. Qed.

Lemma split_aux_skip (sep : str) : forall k cur s,
  k <= length s -> split_aux sep k cur s = split_aux sep 0 cur (skipn k s).
Proof.
  induction k as [|k IH]; intros cur s L; [reflexivity|].
  destruct s as [|c s]; simpl in L; [lia|].
  simpl. apply IH. lia.
Qed.

Lemma split_aux_not_nil (sep : str) : forall s k cur,
  split_aux sep k cur s <> [].
Proof.
  induction s as [|c s IH]; intros k cur; simpl; [discriminate|].
  destruct k; [|apply IH].
  destruct (starts_with sep (c :: s)); [discriminate|apply IH].
Qed.

(** A text without separator is one piece. *)
Lemma split_aux_none (sep : str) : forall s cur,
  contains sep s = false -> split_aux sep 0 cur s = [rev cur ++ s].
Proof.
  induction s as [|c s IH]; intros cur C.
  - simpl. rewrite app_nil_r. reflexivity.
  - simpl in C. apply orb_false_iff in C as [C1 C2].
    rewrite split_aux_cons, C1, (IH _ C2). simpl.
    rewrite <- app_assoc. reflexivity.
Qed.

(** The separator of [url_suffix] does not overlap itself. *)
Lemma separator_apart (a t b : str) :
  lit "packages/" ++ t = a ++ lit "packages/" ++ b ->
  a = [] \/ 9 <= length a.
Proof.
  intros E.
  destruct a as [|c1 a]; [left; reflexivity|right].
  do 8 (destruct a as [|? a]; [exfalso; vm_compute in E; discriminate E|]).
  simpl. lia.
Qed.

Lemma last_cons (A : Type) (x : A) (l : list A) (d : A) :
  l <> [] -> last (x :: l) d = last l d.
Proof. destruct l; [congruence|reflexivity]. Qed.

Lemma last_piece (b : str) :
  contains (lit "packages/") b = false ->
  forall n a cur,
    length a <= n ->
    last (split_aux (lit "packages/") 0 cur (a ++ lit "packages/" ++ b)) [] = b.
Proof.
  intros C. induction n as [|n IH]; intros a cur L.
  - destruct a; [|simpl in L; lia].
    change ([] ++ lit "packages/" ++ b)
      with (112%N :: (lit "ackages/" ++ b)).
    rewrite split_aux_cons.
    change (112%N :: (lit "ackages/" ++ b)) with (lit "packages/" ++ b).
    rewrite starts_with_app.
    rewrite split_aux_skip
      by (rewrite length_app; vm_compute length; lia).
    change (skipn (length (lit "packages/") - 1) (lit "ackages/" ++ b)) with b.
    rewrite (split_aux_none _ _ _ C). reflexivity.
  - destruct a as [|c a]; [apply (IH [] cur); simpl; lia|].
    change ((c :: a) ++ lit "packages/" ++ b)
      with (c :: (a ++ lit "packages/" ++ b)).
    rewrite split_aux_cons.
    destruct (starts_with (lit "packages/") (c :: a ++ lit "packages/" ++ b))
      eqn:S.
    + apply starts_with_true in S as [t S].
      symmetry in S.
      destruct (separator_apart (c :: a) t b S) as [N|N]; [discriminate N|].
      simpl in N, L.
      rewrite last_cons by apply split_aux_not_nil.
      rewrite split_aux_skip
        by (rewrite length_app; vm_compute (length (lit "packages/")); lia).
      change (length (lit "packages/") - 1) with 8.
      rewrite skipn_app.
      replace (8 - length a) with 0 by lia.
      change (skipn 0 (lit "packages/" ++ b)) with (lit "packages/" ++ b).
      apply IH. rewrite length_skipn. lia.
    + apply IH. simpl in L. lia.
Qed.

(** X4: [url_suffix] is what follows the last [packages/] of the download
    URL, and the whole URL when it holds no [packages/]. *)
Theorem url_suffix_after_last_separator (a b : str) :
  contains (lit "packages/") b = false ->
  url_suffix (a ++ lit "packages/" ++ b) = b /\ url_suffix b = b.
Proof.
  intros C. unfold url_suffix, split. split.
  - apply (last_piece b C (length a) a []). lia.
  - rewrite (split_aux_none _ _ _ C). reflexivity.
Qed.

Lemma url_suffix_after_last_separator_witness :
  url_suffix (lit "https://files.pythonhosted.org/packages/ab/packages/"
              ++ lit "packages/" ++ lit "awscli-local-2.0.0.tar.gz")
  = lit "awscli-local-2.0.0.tar.gz" /\
  url_suffix (lit "awscli-local-2.0.0.tar.gz")
  = lit "awscli-local-2.0.0.tar.gz".
Proof.
  apply (url_suffix_after_last_separator
           (lit "https://files.pythonhosted.org/packages/ab/packages/")
           (lit "awscli-local-2.0.0.tar.gz")).
  reflexivity.
Defined.

End UrlSuffixFacts.

(* ================================================================= *)
(** ** The Descriptor Updater: what a rewrite keeps *)

Module KeepFacts.
Import UpdatePkgbuild.
Import DocumentFacts.

(** X5: a text without the registry prefix
    [https://files.pythonhosted.org/packages/] goes through the source
    rewrite unchanged, whatever the download URL: a source that comes from
    another host is never touched. *)
Theorem source_from_other_host_is_kept (download_url content : str) :
  contains registry content = false ->
  update_source download_url content = content.
Proof.
  intros H. unfold update_source.
  destruct (contains (lit "source=(") content); [|reflexivity].
  apply sub_id. apply search_None. intros a b E.
  destruct (match_here re_source_url b) as [[rest g]|] eqn:M; [|reflexivity].
  exfalso.
  apply UpdatePkgbuildFacts.match_source_url_registry in M as [a' [t ->]].
  rewrite contains_false in H. apply (H (a ++ lit "source=(" ++ a') t).
  rewrite E, <- !app_assoc. reflexivity.
Qed.

Lemma source_from_other_host_is_kept_witness :
  update_source release_url
    (text [lit "pkgver=1.0.0";
           lit "source=(https://github.com/localstack/awscli-local/archive/v1.0.0.tar.gz)"])
  = text [lit "pkgver=1.0.0";
          lit "source=(https://github.com/localstack/awscli-local/archive/v1.0.0.tar.gz)"].
Proof.
  apply (source_from_other_host_is_kept release_url
           (text [lit "pkgver=1.0.0";
                  lit "source=(https://github.com/localstack/awscli-local/archive/v1.0.0.tar.gz)"])).
  reflexivity.
Defined.

Lemma same_field_fields version path l :
  same_field l (set_fields version path l).
Proof. destruct l; simpl; auto. Qed.

Lemma without_checksums_map version path doc :
  Forall2 same_field (without_checksums doc)
          (without_checksums (map (set_fields version path) doc)).
Proof.
  unfold without_checksums. induction doc as [|l doc IH]; [constructor|].
  cbn [map filter].
  replace (is_checksum (set_fields version path l)) with (is_checksum l)
    by (destruct l; reflexivity).
  destruct (is_checksum l); cbn [negb]; [exact IH|].
  constructor; [apply same_field_fields|exact IH].
Qed.

Lemma without_checksums_set digest doc :
  without_checksums (set_checksums digest doc) = without_checksums doc.
Proof.
  unfold without_checksums, set_checksums.
  destruct (existsb is_sentinel doc); [|destruct (existsb is_checksum doc)].
  - induction doc as [|l doc IH]; [reflexivity|]. cbn [map filter].
    rewrite IH. unfold set_sentinel. destruct l; try reflexivity.
    cbn [is_sentinel]. destruct (str_eqb value (lit "SKIP")); reflexivity.
  - induction doc as [|l doc IH]; [reflexivity|]. cbn [map filter].
    rewrite IH. destruct l; reflexivity.
  - induction doc as [|l doc IH]; [reflexivity|]. cbn [add_checksum].
    destruct (has_items l); cbn [filter is_checksum negb].
    + reflexivity.
    + rewrite IH. reflexivity.
Qed.

Lemma length_set_checksums digest doc :
  length doc <= length (set_checksums digest doc) <= S (length doc).
Proof.
  unfold set_checksums.
  destruct (existsb is_sentinel doc); [|destruct (existsb is_checksum doc)];
    rewrite ?length_map; [lia|lia|].
  induction doc as [|l doc IH]; [simpl; lia|]. cbn [add_checksum].
  destruct (has_items l); simpl in *; lia.
Qed.



End KeepFacts.

(* ================================================================= *)
(** ** After an update: what the other two scripts read *)

Module AfterUpdateFacts.
Import UpdatePkgbuild.
Import DocumentFacts.
Import LineFacts.

Section FirstValue.

(** A field [head] read by the pattern [head(p+)], on a descriptor in which
    every value of that field is empty or [X]. *)
Variable head : str.
Variable p : char -> bool.
Variable sel : line -> option str.
Variable X : str.

Hypothesis which_field :
  (head = pkgver_head /\ sel = version_of) \/
  (head = pkgrel_head /\ sel = release_of).
Hypothesis stops_at_line_feed : p NL = false.
Hypothesis value_not_empty : X <> [].
Hypothesis value_in_class : forallb p X = true.

Lemma group_move pre m n : group (move pre m) n = group m n.
Proof. reflexivity. Qed.

Lemma head_facts :
  head <> [] /\ ~ In NL head /\
  exists k t, head = k :: t /\ forall rest, occ_in head t rest = 0.
Proof.
  destruct which_field as [[-> _]|[-> _]]; (split; [discriminate|]);
    (split; [vm_compute; intuition discriminate|]);
    eexists; eexists; (split; [reflexivity|]); intros rest; reflexivity.
Qed.

Lemma sel_some l v : sel l = Some v -> render_line l = head ++ v.
Proof.
  destruct which_field as [[-> ->]|[-> ->]]; destruct l; simpl;
    intros E; inversion E; reflexivity.
Qed.

Lemma sel_none l rest :
  well_formed_line l -> sel l = None -> line_end rest ->
  occ_in head (render_line l) rest = 0.
Proof.
  intros W E Le.
  destruct which_field as [[-> ->]|[-> ->]];
    destruct l as [v|v|before q after|items|v|content];
    try discriminate E.
  - apply release_opens; [left; reflexivity|exact W|exact Le].
  - apply registry_source_opens; [left; reflexivity|exact W].
  - apply other_source_opens; [left; reflexivity|exact W].
  - apply checksum_opens; [left; reflexivity|exact W|exact Le].
  - apply other_opens; [left; reflexivity|exact W|exact Le].
  - apply version_opens; [left; reflexivity|exact W|exact Le].
  - apply registry_source_opens; [right; left; reflexivity|exact W].
  - apply other_source_opens; [right; left; reflexivity|exact W].
  - apply checksum_opens; [right; left; reflexivity|exact W|exact Le].
  - apply other_opens; [right; left; reflexivity|exact W|exact Le].
Qed.

Lemma search_after_newline s :
  search (Seq (Lit head) (Grp 1 (Plus p))) (NL :: s)
  = option_map (move [NL]) (search (Seq (Lit head) (Grp 1 (Plus p))) s).
Proof.
  destruct head_facts as [Nh [Hn _]].
  apply (search_skip _ [NL] s).
  apply no_match_in_cons_intro; [|apply no_match_in_nil].
  apply opens_with_newline with (head := head); auto.
  apply opens_with_seq_lit.
Qed.

Lemma render_following l doc :
  render (l :: doc) = render_line l ++ following doc.
Proof. apply render_cons. Qed.

Lemma first_value doc :
  well_formed doc ->
  (forall l v, In l doc -> sel l = Some v -> v = [] \/ v = X) ->
  (exists l, In l doc /\ sel l = Some X) ->
  exists m,
    search (Seq (Lit head) (Grp 1 (Plus p))) (render doc) = Some m /\
    group m 1 = Some X.
Proof.
  destruct head_facts as [Nh [Hn [k [t [Eh Zt]]]]].
  induction doc as [|l doc IH]; intros W V [l0 [I0 S0]]; [destruct I0|].
  apply Forall_cons_iff in W as [Wl W].
  rewrite render_following.
  assert (Le : line_end (following doc)) by apply line_end_tail.
  assert (St : stops p (following doc))
    by (destruct doc; [left; reflexivity|
                       right; eexists; eexists; split; [reflexivity|auto]]).
  assert (Later : no_match_in (Seq (Lit head) (Grp 1 (Plus p)))
                              (render_line l)
                              (following doc) ->
                  sel l <> Some X ->
                  exists m,
                    search (Seq (Lit head) (Grp 1 (Plus p)))
                           (render_line l
                            ++ (following doc)) = Some m /\
                    group m 1 = Some X).
  { intros No Ne.
    assert (I1 : In l0 doc) by (destruct I0 as [<-|I0]; [congruence|exact I0]).
    assert (V' : forall l1 v, In l1 doc -> sel l1 = Some v ->
                              v = [] \/ v = X)
      by (intros l1 v I1' S1; apply (V l1 v); [right; exact I1'|exact S1]).
    destruct (IH W V' (ex_intro _ l0 (conj I1 S0))) as [m [Sm Gm]].
    exists (move (render_line l) (move [NL] m)). split.
    - rewrite (search_skip _ _ _ No).
      destruct doc as [|l2 doc]; [destruct I1|].
      change (following (l2 :: doc)) with (NL :: render (l2 :: doc)).
      rewrite search_after_newline, Sm. reflexivity.
    - rewrite !group_move. exact Gm. }
  destruct (sel l) as [v|] eqn:Sl.
  - rewrite (sel_some l v Sl) in *.
    destruct (V l v (or_introl eq_refl) Sl) as [->| ->].
    + apply Later; [|congruence].
      rewrite app_nil_r. rewrite Eh at 2.
      apply no_match_in_cons_intro.
      * change (k :: t ++ ?r) with ((k :: t) ++ r). rewrite <- Eh.
        apply match_lit_run_None. intros c r E.
        apply app_inv_head in E.
        destruct St as [St|[c' [r' [E' Pc]]]]; [congruence|].
        rewrite E' in E. inversion E; subst. exact Pc.
      * apply ChecksumFacts.no_head_no_match with (head := head);
          [apply opens_with_seq_lit|apply Zt].
    + assert (M : match_here (Seq (Lit head) (Grp 1 (Plus p)))
                             ((head ++ X) ++ following doc)
                  = Some (following doc, [(1, X)]))
        by (rewrite <- app_assoc; apply match_lit_run; auto).
      rewrite (search_here _ _ _ _ M).
      eexists. split; reflexivity.
  - apply Later; [|congruence].
    apply ChecksumFacts.no_head_no_match with (head := head);
      [apply opens_with_seq_lit|].
    apply sel_none; auto.
Qed.

End FirstValue.


(** The checksum rewrite keeps the lines that are not checksum lines. *)
Lemma set_checksums_has digest doc l :
  In l doc -> is_checksum l = false -> In l (set_checksums digest doc).
Proof.
  intros I C. unfold set_checksums.
  destruct (existsb is_sentinel doc); [|destruct (existsb is_checksum doc)].
  - apply in_map_iff. exists l. split; [|exact I].
    destruct l; try reflexivity. discriminate C.
  - apply in_map_iff. exists l. split; [|exact I].
    destruct l; try reflexivity. discriminate C.
  - induction doc as [|x doc IH]; [destruct I|]. cbn [add_checksum].
    destruct (has_items x).
    + destruct I as [<-|I]; [left; reflexivity|right; right; exact I].
    + destruct I as [<-|I]; [left; reflexivity|right; auto].
Qed.

Lemma version_is_set version info doc l x :
  In l (update version info doc) -> version_of l = Some x ->
  x = [] \/ x = version.
Proof.
  unfold update. intros I E.
  apply RewriteFacts.set_checksums_keeps in I as [I|I];
    [destruct l; discriminate|].
  rewrite !map_map in I. apply in_map_iff in I as [y [<- _]].
  destruct y as [v|v|b q a|i|v|c]; try discriminate E.
  cbn [set_version set_release set_path version_of] in E.
  injection E as <-. destruct v; auto.
Qed.

Lemma release_is_one version info doc l x :
  In l (update version info doc) -> release_of l = Some x ->
  x = [] \/ x = lit "1".
Proof.
  intros I E. destruct l; try discriminate E. injection E as <-.
  apply (RewriteFacts.release_is_reset version info doc). exact I.
Qed.

Lemma version_line_present version info doc :
  (exists value, In (Version value) doc /\ value <> []) ->
  exists l, In l (update version info doc) /\ version_of l = Some version.
Proof.
  intros [value [I N]]. exists (Version version). split; [|reflexivity].
  unfold update. apply set_checksums_has; [|reflexivity].
  rewrite !map_map. apply in_map_iff. exists (Version value).
  split; [|exact I]. destruct value; [congruence|reflexivity].
Qed.

Lemma release_line_present version info doc :
  (exists value, In (Release value) doc /\ value <> []) ->
  exists l, In l (update version info doc) /\ release_of l = Some (lit "1").
Proof.
  intros [value [I N]]. exists (Release (lit "1")). split; [|reflexivity].
  unfold update. apply set_checksums_has; [|reflexivity].
  rewrite !map_map. apply in_map_iff. exists (Release value).
  split; [|exact I]. destruct value; [congruence|reflexivity].
Qed.






End AfterUpdateFacts.

(* ================================================================= *)
(** ** The Version Checker: every run *)

Module CheckerRunFacts.
Import CheckVersion.
Import CheckVersionFacts.

(** What a run does, by cases on PKGBUILD and on the answer of the index. *)
Lemma checker_run net w :
  main net w =
  match pkgbuild w with
  | None => (Exited 1%Z, observed w [lit "ERROR: PKGBUILD file not found"] [])
  | Some content =>
      match search re_pkgver content with
      | None =>
          (Exited 1%Z,
           observed w
             [lit "ERROR: Could not find current version in PKGBUILD"] [])
      | Some m =>
          match latest_record net with
          | Failed e =>
              (Exited 1%Z,
               observed w
                 [lit "ERROR: Failed to fetch version from PyPI: " ++ e]
                 [lit "https://pypi.org/pypi/awscli-local/json"])
          | Fetched [] =>
              (Exited 1%Z,
               observed w [] [lit "https://pypi.org/pypi/awscli-local/json"])
          | Fetched latest =>
              let current := the (group m 1) in
              let needs_update := negb (str_eqb current latest) in
              (Returned tt,
               World (pkgbuild w) (pkgbuild_write_error w) (srcinfo w)
                     (srcinfo_write_error w) (github_output w)
                     (output_file w
                      ++ (if truthy (github_output w)
                          then report current latest needs_update else []))
                     (console w
                      ++ console_report current latest needs_update)
                     (requests w
                      ++ [lit "https://pypi.org/pypi/awscli-local/json"]))
          end
      end
  end.
Proof.
  destruct (pkgbuild w) as [content|] eqn:Hw.
  - destruct (search re_pkgver content) as [m|] eqn:Hs.
    + destruct (search_pkgver_Some _ _ Hs) as [X [[_ [NX _]] [G _]]].
      assert (Hc : fst (get_current_version w) = Returned (Some X))
        by (rewrite (get_current_version_found _ _ _ Hw Hs), G; reflexivity).
      rewrite G. cbn [the].
      destruct (latest_record net) as [e|latest] eqn:Hl.
      * destruct (get_current_version_inv _ _ Hc) as [Hg _].
        unfold main, bind. rewrite Hg, (str_neq_nil_truthy _ NX).
        cbn [negb]. unfold get_latest_version, bind, http_get. rewrite Hl.
        unfold print, ret, observed, sys_exit. cbn -[lit].
        rewrite ?app_nil_r. reflexivity.
      * destruct latest as [|c latest].
        -- destruct (get_current_version_inv _ _ Hc) as [Hg _].
           unfold main, bind. rewrite Hg, (str_neq_nil_truthy _ NX).
           cbn [negb]. unfold get_latest_version, bind, http_get. rewrite Hl.
           unfold ret, observed, sys_exit. cbn -[lit].
           rewrite ?app_nil_r. reflexivity.
        -- cbv zeta.
           rewrite (main_compares net w X (c :: latest) Hc Hl
                      ltac:(discriminate)).
           cbv zeta. rewrite Hw. reflexivity.
    + unfold main, bind, get_current_version, bind, read_pkgbuild.
      rewrite Hw, Hs. unfold print, ret, observed, sys_exit. cbn -[lit].
      rewrite ?app_nil_r. reflexivity.
  - unfold main, bind, get_current_version, bind, read_pkgbuild.
    rewrite Hw. unfold print, ret, observed, sys_exit. cbn -[lit].
    rewrite ?app_nil_r. reflexivity.
Qed.




End CheckerRunFacts.

(* ================================================================= *)
(** ** The Metadata Regenerator: every run *)

Module RegeneratorRunFacts.
Import GenerateSrcinfo.
Import GenerateSrcinfoFacts.

Lemma run_plus_cons (p : char -> bool) c s g k :
  run (Plus p) (c :: s) g k
  = if p c then star_k p s (fun s'' => k s'' g) else None.
Proof. reflexivity. Qed.

(** A match of [l(p+)l2] has captured at least one character. *)
Lemma match_delimited_inv (l l2 : str) n (p : char -> bool) s rest g :
  match_here (Seq (Lit l) (Seq (Grp n (Plus p)) (Lit l2))) s
  = Some (rest, g) ->
  exists x, x <> [] /\ g = [(n, x)].
Proof.
  unfold match_here. rewrite run_seq. intros H.
  apply run_lit_inv in H as [s1 [-> H]].
  rewrite run_seq, run_grp in H.
  destruct s1 as [|c s1]; [discriminate H|].
  rewrite run_plus_cons in H.
  destruct (p c); [|discriminate H].
  apply star_k_sound in H as [m [s2 [-> [_ [H _]]]]].
  cbn beta in H. apply run_lit_inv in H as [s3 [-> H]].
  injection H as <- <-.
  exists (c :: m). split; [discriminate|].
  f_equal. f_equal. exact (firstn_length_app (c :: m) (l2 ++ s3)).
Qed.

(** A required field that is found has a value that is not empty. *)
Lemma found_is_truthy content pat :
  In pat required_fields -> missing content pat = false ->
  truthy (field_value content pat) = true.
Proof.
  unfold missing, field_value. intros I M.
  destruct (search (pat_re pat) content) as [m|] eqn:S; [|discriminate].
  apply search_Some in S as [_ [S _]]. unfold group.
  destruct I as [<-|[<-|[<-|[<-|[<-|[]]]]]];
    unfold word_field, quoted_field in S; cbn [pat_re seq] in S.
  - apply match_lit_run_inv in S as [x [_ [N [_ [_ ->]]]]].
    destruct x; [congruence|reflexivity].
  - apply match_lit_run_inv in S as [x [_ [N [_ [_ ->]]]]].
    destruct x; [congruence|reflexivity].
  - apply match_lit_run_inv in S as [x [_ [N [_ [_ ->]]]]].
    destruct x; [congruence|reflexivity].
  - apply match_delimited_inv in S as [x [N ->]].
    destruct x; [congruence|reflexivity].
  - apply match_delimited_inv in S as [x [N ->]].
    destruct x; [congruence|reflexivity].
Qed.

Lemma missing_is_falsy content pat :
  missing content pat = true -> truthy (field_value content pat) = false.
Proof.
  unfold missing, field_value.
  destruct (search (pat_re pat) content); [discriminate|reflexivity].
Qed.

(** The fields are parsed exactly when none of the five is missing. *)
Lemma parsed_iff content :
  (exists info, parsed content = Some info) <->
  forallb (fun pat => negb (missing content pat)) required_fields = true.
Proof.
  unfold parsed. cbv zeta.
  assert (T : forallb truthy
                [field_value content (word_field "pkgname");
                 field_value content (word_field "pkgver");
                 field_value content (word_field "pkgrel");
                 field_value content (quoted_field "pkgdesc");
                 field_value content (quoted_field "url")]
              = forallb (fun pat => negb (missing content pat))
                        required_fields).
  { unfold required_fields. cbn [forallb].
    repeat match goal with
    | |- context [missing content ?pat] =>
        let M := fresh "M" in
        destruct (missing content pat) eqn:M;
        [rewrite (missing_is_falsy content pat M)
        |rewrite (found_is_truthy content pat
                    ltac:(unfold required_fields; simpl; auto 10) M)]
    end; reflexivity. }
  rewrite <- T.
  destruct (forallb truthy _); split; eauto; try discriminate.
  intros [info H]. discriminate H.
Qed.

Lemma parse_errors_missing content :
  parse_errors content
  = map field_error (filter (missing content) required_fields).
Proof.
  unfold parse_errors, field_errors, required_fields, missing.
  cbn [filter].
  destruct (search (pat_re (word_field "pkgname")) content);
    destruct (search (pat_re (word_field "pkgver")) content);
    destruct (search (pat_re (word_field "pkgrel")) content);
    destruct (search (pat_re (quoted_field "pkgdesc")) content);
    destruct (search (pat_re (quoted_field "url")) content);
    reflexivity.
Qed.


(** X12: when PKGBUILD lacks required fields, the run ends with status 1 and
    prints, after its opening line, one error line for each required pattern
    that found nothing, in the order pkgname, pkgver, pkgrel, pkgdesc, url:
    every missing field is reported, not only the first. *)
Theorem every_missing_field_is_reported w content :
  pkgbuild w = Some content ->
  existsb (missing content) required_fields = true ->
  exit_status (main w) = 1%Z /\
  console (final (main w))
  = console w
    ++ lit "Generating .SRCINFO from PKGBUILD..."
       :: map field_error (filter (missing content) required_fields).
Proof.
  intros Hw Mi. rewrite main_spec, Hw. cbv zeta.
  pose proof (parsed_iff content) as P.
  destruct (parsed content) as [info|].
  - exfalso. assert (F : forallb (fun pat => negb (missing content pat))
                                 required_fields = true)
      by (apply P; eauto).
    apply existsb_exists in Mi as [pat [I M]].
    rewrite forallb_forall in F. specialize (F pat I).
    rewrite M in F. discriminate F.
  - rewrite parse_errors_missing. split; reflexivity.
Qed.

Lemma every_missing_field_is_reported_witness :
  exit_status (main (descriptor plain_descriptor)) = 1%Z /\
  console (final (main (descriptor plain_descriptor)))
  = console (descriptor plain_descriptor)
    ++ lit "Generating .SRCINFO from PKGBUILD..."
       :: map field_error (filter (missing plain_descriptor) required_fields).
Proof.
  apply (every_missing_field_is_reported (descriptor plain_descriptor)
           plain_descriptor).
  - reflexivity.
  - vm_compute. reflexivity.
Defined.

(** In that descriptor the description and the URL are missing. *)
Example two_fields_reported :
  filter (missing plain_descriptor) required_fields
  = [quoted_field "pkgdesc"; quoted_field "url"].
Proof. vm_compute. reflexivity. Qed.

End RegeneratorRunFacts.

(* ================================================================= *)
(** ** The Metadata Regenerator: reading an array back *)

Module ArrayFacts.
Import GenerateSrcinfo.

Lemma run_alt (r1 r2 : regex) s g k :
  run (Alt r1 r2) s g k
  = match run r1 s g k with
    | Some res => Some res
    | None => run r2 s g k
    end.
Proof. reflexivity. Qed.

(** A match of [l(p+)l2] on a run of [p] between [l] and [l2]. *)
Lemma match_delimited (l l2 : str) n (p : char -> bool) x rest :
  x <> [] -> forallb p x = true -> stops p (l2 ++ rest) ->
  match_here (Seq (Lit l) (Seq (Grp n (Plus p)) (Lit l2)))
             (l ++ x ++ l2 ++ rest)
  = Some (rest, [(n, x)]).
Proof.
  intros N P St. unfold match_here.
  rewrite run_seq, run_lit, run_seq, run_grp.
  apply run_plus_max; auto.
  rewrite run_lit. rewrite firstn_length_app. reflexivity.
Qed.

Lemma findall_aux_skip (r : regex) : forall k s,
  k <= length s -> findall_aux r k s = findall_aux r 0 (skipn k s).
Proof.
  induction k as [|k IH]; intros s L; [reflexivity|].
  destruct s as [|c s]; simpl in *; [lia|].
  apply IH. lia.
Qed.

Lemma findall_match (r : regex) m rest g :
  m <> [] -> match_here r (m ++ rest) = Some (rest, g) ->
  findall r (m ++ rest) = g :: findall r rest.
Proof.
  intros N M. destruct m as [|c m]; [congruence|].
  unfold findall.
  change ((c :: m) ++ rest) with (c :: (m ++ rest)) in *.
  cbn [findall_aux]. rewrite M. f_equal.
  assert (L : length (c :: m ++ rest) - length rest - 1 = length m)
    by (cbn [length]; rewrite length_app; lia).
  rewrite L, findall_aux_skip by (rewrite length_app; lia).
  rewrite skipn_app, Nat.sub_diag, skipn_all. reflexivity.
Qed.

Lemma findall_no_match (r : regex) c s :
  match_here r (c :: s) = None -> findall r (c :: s) = findall r s.
Proof. unfold findall. cbn [findall_aux]. intros ->. reflexivity. Qed.

Lemma match_alt (r1 r2 : regex) s :
  match_here (Alt r1 r2) s
  = match match_here r1 s with
    | Some res => Some res
    | None => match_here r2 s
    end.
Proof. reflexivity. Qed.

Lemma match_quote_None (q c : char) (r : regex) s :
  N.eqb q c = false -> match_here (Seq (Lit [q]) r) (c :: s) = None.
Proof.
  intros Q. unfold match_here. rewrite run_seq. cbn [run strip_prefix].
  rewrite Q. reflexivity.
Qed.

(** The item pattern on each kind of item and on white space. *)
Lemma match_item i rest :
  valid_item i -> stops bare_char rest ->
  match_here re_item (item_text i ++ rest) = Some (rest, item_caps i).
Proof.
  intros V St. unfold re_item.
  destruct i as [v|v|v]; cbn [item_text item_caps valid_item seq] in *.
  - destruct V as [N P]. rewrite match_alt.
    rewrite <- !app_assoc.
    rewrite (match_delimited [SQ] [SQ] 1 (none_of [SQ]) v rest N).
    + reflexivity.
    + rewrite forallb_forall in *. intros c Hc. specialize (P c Hc).
      unfold none_of in *. cbn [existsb] in *.
      destruct (N.eqb c SQ); [discriminate P|reflexivity].
    + apply ChecksumFacts.stops_at.
  - destruct V as [N P]. rewrite match_alt.
    rewrite <- !app_assoc.
    change ([DQ] ++ v ++ [DQ] ++ rest) with (DQ :: (v ++ [DQ] ++ rest)).
    rewrite (match_quote_None SQ DQ) by reflexivity.
    rewrite match_alt.
    change (DQ :: (v ++ [DQ] ++ rest)) with ([DQ] ++ v ++ [DQ] ++ rest).
    rewrite (match_delimited [DQ] [DQ] 2 (none_of [DQ]) v rest N).
    + reflexivity.
    + rewrite forallb_forall in *. intros c Hc. specialize (P c Hc).
      unfold none_of in *. cbn [existsb] in *.
      destruct (N.eqb c DQ); [discriminate P|reflexivity].
    + apply ChecksumFacts.stops_at.
  - destruct V as [N [P _]]. destruct v as [|c v]; [congruence|].
    assert (Pc : bare_char c = true)
      by (cbn [forallb] in P; apply andb_true_iff in P as [P _]; exact P).
    assert (Nq : N.eqb SQ c = false /\ N.eqb DQ c = false).
    { unfold bare_char in Pc. apply negb_true_iff in Pc.
      apply orb_false_iff in Pc as [Pc Q2].
      apply orb_false_iff in Pc as [_ Q1].
      rewrite N.eqb_sym in Q1. rewrite N.eqb_sym in Q2. auto. }
    destruct Nq as [Q1 Q2].
    change ((c :: v) ++ rest) with (c :: (v ++ rest)).
    rewrite match_alt, (match_quote_None SQ c) by exact Q1.
    rewrite match_alt, (match_quote_None DQ c) by exact Q2.
    change (c :: (v ++ rest)) with ((c :: v) ++ rest).
    unfold match_here. rewrite run_grp.
    apply run_plus_max; auto.
    rewrite firstn_length_app. reflexivity.
Qed.

Lemma no_item_at_space c s :
  is_space c = true -> match_here re_item (c :: s) = None.
Proof.
  intros Sp. unfold re_item. cbn [seq].
  assert (Q1 : N.eqb SQ c = false)
    by (destruct (N.eqb SQ c) eqn:E; [|reflexivity];
        apply N.eqb_eq in E; subst c; discriminate Sp).
  assert (Q2 : N.eqb DQ c = false)
    by (destruct (N.eqb DQ c) eqn:E; [|reflexivity];
        apply N.eqb_eq in E; subst c; discriminate Sp).
  rewrite match_alt, (match_quote_None SQ c) by exact Q1.
  rewrite match_alt, (match_quote_None DQ c) by exact Q2.
  unfold match_here. rewrite run_grp. cbn [run].
  unfold bare_char. rewrite Sp. reflexivity.
Qed.

Lemma findall_separator sep s :
  forallb is_space sep = true ->
  findall re_item (sep ++ s) = findall re_item s.
Proof.
  induction sep as [|c sep IH]; intros P; [reflexivity|].
  cbn [forallb] in P. apply andb_true_iff in P as [Pc P].
  change ((c :: sep) ++ s) with (c :: (sep ++ s)).
  rewrite findall_no_match by (apply no_item_at_space; exact Pc).
  apply IH. exact P.
Qed.

Lemma item_text_not_nil i : valid_item i -> item_text i <> [].
Proof. destruct i; simpl; intros V; [discriminate|discriminate|tauto]. Qed.

Lemma separator_stops sep s : separator sep -> stops bare_char (sep ++ s).
Proof.
  intros [Ns Ps]. destruct sep as [|c sep]; [congruence|]. right.
  exists c, (sep ++ s). split; [reflexivity|].
  cbn [forallb] in Ps. apply andb_true_iff in Ps as [Pc _].
  unfold bare_char. rewrite Pc. reflexivity.
Qed.

(** The items of a written array, found one by one. *)
Lemma findall_items sep items :
  separator sep -> Forall valid_item items ->
  findall re_item (join sep (map item_text items)) = map item_caps items.
Proof.
  intros [Ns Ps] V. induction items as [|i items IH]; [reflexivity|].
  apply Forall_cons_iff in V as [Vi V].
  destruct items as [|i2 items].
  - cbn [map join]. rewrite <- (app_nil_r (item_text i)).
    rewrite (findall_match _ _ _ _ (item_text_not_nil i Vi)
               (match_item i [] Vi (or_introl eq_refl))).
    reflexivity.
  - change (join sep (map item_text (i :: i2 :: items)))
      with (item_text i ++ sep ++ join sep (map item_text (i2 :: items))).
    assert (St : stops bare_char
                   (sep ++ join sep (map item_text (i2 :: items))))
      by (apply separator_stops; split; assumption).
    rewrite (findall_match _ _ _ _ (item_text_not_nil i Vi)
               (match_item i _ Vi St)).
    rewrite (findall_separator _ _ Ps), (IH V). reflexivity.
Qed.


Lemma space_not_paren c : is_space c = true -> none_of [RP] c = true.
Proof.
  intros Sp. unfold none_of. cbn [existsb].
  destruct (N.eqb c RP) eqn:E; [|reflexivity].
  apply N.eqb_eq in E. subst c. discriminate Sp.
Qed.

Lemma none_of_less (q : char) (v : str) :
  forallb (none_of [q; RP]) v = true -> forallb (none_of [RP]) v = true.
Proof.
  rewrite !forallb_forall. intros P c Hc. specialize (P c Hc).
  unfold none_of in *. cbn [existsb] in *.
  destruct (N.eqb c q); [discriminate P|exact P].
Qed.

Lemma item_text_free i :
  valid_item i -> forallb (none_of [RP]) (item_text i) = true.
Proof.
  destruct i as [v|v|v]; cbn [valid_item item_text].
  - intros [_ P]. rewrite !forallb_app, (none_of_less SQ v P). reflexivity.
  - intros [_ P]. rewrite !forallb_app, (none_of_less DQ v P). reflexivity.
  - intros [_ [_ P]]. exact P.
Qed.

Lemma array_text_free sep items :
  separator sep -> Forall valid_item items ->
  forallb (none_of [RP]) (join sep (map item_text items)) = true.
Proof.
  intros [_ Ps] V. induction items as [|i items IH]; [reflexivity|].
  apply Forall_cons_iff in V as [Vi V].
  destruct items as [|i2 items]; [apply item_text_free; exact Vi|].
  change (join sep (map item_text (i :: i2 :: items)))
    with (item_text i ++ sep ++ join sep (map item_text (i2 :: items))).
  rewrite !forallb_app, (item_text_free i Vi), (IH V). cbn [andb].
  rewrite andb_true_r. apply forallb_forall. intros c Hc.
  apply space_not_paren. rewrite forallb_forall in Ps. auto.
Qed.

Lemma array_text_not_nil sep items :
  Forall valid_item items -> items <> [] ->
  join sep (map item_text items) <> [].
Proof.
  intros V N. destruct items as [|i items]; [congruence|].
  apply Forall_cons_iff in V as [Vi _].
  pose proof (item_text_not_nil i Vi) as Ni.
  destruct items; cbn [map join]; [exact Ni|].
  destruct (item_text i); [congruence|discriminate].
Qed.

Lemma values_of_caps items :
  Forall valid_item items ->
  flat_map
    (fun g =>
       if truthy (first_nonempty (item_tuple g))
       then [the (first_nonempty (item_tuple g))] else [])
    (map item_caps items)
  = map item_value items.
Proof.
  induction 1 as [|i items Vi V IH]; [reflexivity|].
  cbn [map flat_map]. rewrite IH.
  destruct i as [v|v|v]; cbn [valid_item] in Vi;
    (destruct v as [|c v]; [tauto|reflexivity]).
Qed.

Lemma first_occurrence (head pre rest : str) :
  head <> [] -> occurrences head (pre ++ head) = 1 ->
  occ_in head pre (head ++ rest) = 0.
Proof.
  intros N One. rewrite occurrences_app in One.
  assert (Self : 1 <= occurrences head head).
  { destruct head as [|k t]; [congruence|].
    rewrite occurrences_cons.
    rewrite <- (app_nil_r (k :: t)) at 2. rewrite starts_with_app. lia. }
  rewrite <- (app_nil_r head) in One at 2.
  rewrite (occ_in_same_head head pre [] rest) in One. lia.
Qed.

(** X13: an array written as [name=(] followed by items in single quotes,
    in double quotes or bare, separated by white space, and the closing
    parenthesis, is read back by [extract_array] as the list of its items
    without their quotes, in order, provided no [name=(] starts earlier in
    the text. *)
Theorem array_is_read_back (name : string) (sep : str) items pre post :
  separator sep -> Forall valid_item items -> items <> [] ->
  occurrences (lit name ++ lit "=(") (pre ++ lit name ++ lit "=(") = 1 ->
  extract_array
    (pre ++ (lit name ++ lit "=(") ++ join sep (map item_text items)
     ++ [RP] ++ post)
    (array_field name)
  = map item_value items.
Proof.
  intros Sp V N One. unfold extract_array, array_field. cbn [pat_re seq].
  assert (Nh : lit name ++ lit "=(" <> [])
    by (destruct (lit name); discriminate).
  set (head := lit name ++ lit "=(") in *.
  assert (M : match_here
                (Seq (Lit head)
                     (Seq (Grp 1 (Plus (none_of [RP]))) (Lit [RP])))
                ((head ++ join sep (map item_text items) ++ [RP]) ++ post)
              = Some (post, [(1, join sep (map item_text items))])).
  { rewrite <- !app_assoc.
    apply (match_delimited head [RP] 1 (none_of [RP])).
    - apply array_text_not_nil; assumption.
    - apply array_text_free; assumption.
    - apply ChecksumFacts.stops_at. }
  assert (S : search
                (Seq (Lit head)
                     (Seq (Grp 1 (Plus (none_of [RP]))) (Lit [RP])))
                (pre ++ (head ++ join sep (map item_text items) ++ [RP])
                 ++ post)
              = Some (MatchObj pre
                        (head ++ join sep (map item_text items) ++ [RP])
                        post [(1, join sep (map item_text items))])).
  { apply search_first; [|exact M].
    apply ChecksumFacts.no_head_no_match with (head := head).
    - intros s rest g. apply LineFacts.opens_with_seq_lit.
    - rewrite <- !app_assoc.
      apply first_occurrence; [exact Nh|exact One]. }
  rewrite <- !app_assoc in S. rewrite S.
  cbv zeta. unfold group. cbn [m_groups lookup Nat.eqb the].
  rewrite (findall_items sep items Sp V).
  apply values_of_caps. exact V.
Qed.

Lemma array_is_read_back_witness :
  extract_array
    (text [lit "pkgname=awscli-local"]
     ++ (lit "depends" ++ lit "=(")
     ++ join [NL; 32%N]
          (map item_text
             [Single (lit "aws-cli"); Double (lit "python>=3.8");
              Bare (lit "jq")])
     ++ [RP] ++ [NL])
    (array_field "depends")
  = map item_value
      [Single (lit "aws-cli"); Double (lit "python>=3.8"); Bare (lit "jq")].
Proof.
  apply (array_is_read_back "depends" [NL; 32%N]
           [Single (lit "aws-cli"); Double (lit "python>=3.8");
            Bare (lit "jq")]
           (text [lit "pkgname=awscli-local"]) [NL]).
  - split; [discriminate|reflexivity].
  - repeat constructor; try discriminate.
  - discriminate.
  - reflexivity.
Defined.

End ArrayFacts.

(* ================================================================= *)
(** ** The Metadata Regenerator: the derived file *)

Module DerivedFileFacts.
Import GenerateSrcinfo.

Lemma generate_srcinfo_lines info :
  generate_srcinfo info = join [NL] (srcinfo_lines info) ++ [NL].
Proof. reflexivity. Qed.

(** Lines without line feed can be read back from their join. *)
Lemma join_lines_inj (ls ms : list str) :
  ls <> [] -> ms <> [] ->
  Forall one_line ls -> Forall one_line ms ->
  join [NL] ls = join [NL] ms -> ls = ms.
Proof.
  revert ms. induction ls as [|l ls IH]; intros ms Nl Nm Fl Fm E;
    [congruence|].
  destruct ms as [|m ms]; [congruence|].
  apply Forall_cons_iff in Fl as [Hl Fl].
  apply Forall_cons_iff in Fm as [Hm Fm].
  destruct ls as [|l2 ls]; destruct ms as [|m2 ms].
  - simpl in E. subst. reflexivity.
  - exfalso. apply Hl. cbn [join] in E. rewrite E.
    apply in_or_app. right. left. reflexivity.
  - exfalso. apply Hm. cbn [join] in E. rewrite <- E.
    apply in_or_app. right. left. reflexivity.
  - change (join [NL] (l :: l2 :: ls)) with (l ++ NL :: join [NL] (l2 :: ls))
      in E.
    change (join [NL] (m :: m2 :: ms)) with (m ++ NL :: join [NL] (m2 :: ms))
      in E.
    assert (El : l = m) by (apply (LineFacts.run_end_unique NL _ _ _ _ E Hl Hm)).
    subst m. apply app_inv_head in E. injection E as E.
    f_equal. apply IH; auto; discriminate.
Qed.

(** A block of lines with the same opening ends where a line opens
    otherwise. *)
Lemma block_inj (P : str) (xs ys : list str) (r r' : list str) :
  (forall z t, r = z :: t -> starts_with P z = false) ->
  (forall z t, r' = z :: t -> starts_with P z = false) ->
  map (app P) xs ++ r = map (app P) ys ++ r' ->
  xs = ys /\ r = r'.
Proof.
  intros Hr Hr'. revert ys.
  induction xs as [|x xs IH]; intros [|y ys] E; cbn [map app] in E.
  - auto.
  - exfalso. specialize (Hr _ _ E). rewrite starts_with_app in Hr.
    discriminate.
  - exfalso. symmetry in E. specialize (Hr' _ _ E).
    rewrite starts_with_app in Hr'. discriminate.
  - injection E as E1 E2. apply app_inv_head in E1. subst y.
    destruct (IH ys E2) as [-> ->]. auto.
Qed.

Lemma block_head (P P2 : str) (xs : list str) (r : list str) :
  (forall v, starts_with P (P2 ++ v) = false) ->
  (forall z t, r = z :: t -> starts_with P z = false) ->
  forall z t, map (app P2) xs ++ r = z :: t -> starts_with P z = false.
Proof.
  intros H2 Hr z t E. destruct xs as [|x xs]; cbn [map app] in E.
  - apply (Hr z t E).
  - injection E as <- _. apply H2.
Qed.

Lemma trailer_head (P : str) (name : str) :
  P <> [] ->
  forall z t, [[]; lit "pkgname = " ++ name] = z :: t ->
              starts_with P z = false.
Proof.
  intros N z t E. injection E as <- _. destruct P; [congruence|reflexivity].
Qed.

Lemma one_line_app (a b : str) : one_line a -> one_line b -> one_line (a ++ b).
Proof. intros Ha Hb H. apply in_app_or in H as [H|H]; auto. Qed.

Lemma one_line_map (P : str) (xs : list str) :
  one_line P -> Forall one_line xs -> Forall one_line (map (app P) xs).
Proof.
  intros HP. induction 1; constructor; auto. apply one_line_app; auto.
Qed.

Lemma one_line_lit_tab (s : string) :
  forallb dot ([TAB] ++ lit s) = true -> one_line ([TAB] ++ lit s).
Proof. apply CheckVersionFacts.dot_run. Qed.

Lemma srcinfo_lines_one_line info :
  one_line_each info -> Forall one_line (srcinfo_lines info).
Proof.
  intros [H1 [H2 [H3 [H4 [H5 [H6 [H7 [H8 H9]]]]]]]].
  assert (L : forall s v, forallb dot (lit s) = true -> one_line v ->
                          one_line (lit s ++ v))
    by (intros s v D Hv; apply one_line_app;
        [apply CheckVersionFacts.dot_run; exact D|exact Hv]).
  assert (T : forall s v, forallb dot (lit s) = true -> one_line v ->
                          one_line ([TAB] ++ lit s ++ v))
    by (intros s v D Hv; apply one_line_app;
        [intros [X|[]]; discriminate X|apply L; assumption]).
  unfold srcinfo_lines. apply Forall_app. split.
  - apply Forall_cons; [apply L; [reflexivity|exact H1]|].
    apply Forall_cons; [apply T; [reflexivity|exact H2]|].
    apply Forall_cons; [apply T; [reflexivity|exact H3]|].
    apply Forall_cons; [apply T; [reflexivity|exact H4]|].
    apply Forall_cons; [apply T; [reflexivity|exact H5]|].
    apply Forall_nil.
  - repeat (apply Forall_app; split;
            [apply one_line_map;
             [apply one_line_lit_tab; reflexivity|assumption]
            |]).
    apply Forall_cons; [intros []|].
    apply Forall_cons; [apply L; [reflexivity|exact H1]|constructor].
Qed.

(** X14: the derived file determines the parsed fields: two records whose
    fields hold no line feed and that render to the same text are the same
    record; nothing of the name, description, version, release, URL and the
    four arrays is lost in the rendering. *)
Theorem derived_file_determines_fields a b :
  one_line_each a -> one_line_each b ->
  generate_srcinfo a = generate_srcinfo b -> a = b.
Proof.
  intros Ha Hb E. rewrite !generate_srcinfo_lines in E.
  apply app_inv_tail in E.
  apply join_lines_inj in E;
    [|discriminate|discriminate
     |apply srcinfo_lines_one_line; exact Ha
     |apply srcinfo_lines_one_line; exact Hb].
  unfold srcinfo_lines in E.
  destruct (app_same_length _ _ _ _ _ E eq_refl) as [Es Eb]. clear E.
  injection Es as E1 E2 E3 E4 E5.
  rename Eb into E.
  apply block_inj in E as [Ea E];
    [|repeat (apply block_head; [intros v; reflexivity|]);
      apply trailer_head; discriminate
     |repeat (apply block_head; [intros v; reflexivity|]);
      apply trailer_head; discriminate].
  apply block_inj in E as [El E];
    [|repeat (apply block_head; [intros v; reflexivity|]);
      apply trailer_head; discriminate
     |repeat (apply block_head; [intros v; reflexivity|]);
      apply trailer_head; discriminate].
  apply block_inj in E as [Ed E];
    [|repeat (apply block_head; [intros v; reflexivity|]);
      apply trailer_head; discriminate
     |repeat (apply block_head; [intros v; reflexivity|]);
      apply trailer_head; discriminate].
  apply block_inj in E as [Em _];
    [|apply trailer_head; discriminate|apply trailer_head; discriminate].
  destruct a, b. cbn in *. congruence.
Qed.


Lemma derived_file_determines_fields_witness :
  PkgInfo (lit "awscli-local") (lit "1.0.0") (lit "1")
          (lit "Thin wrapper around the aws command")
          (lit "https://github.com/localstack/awscli-local")
          [lit "any"] [lit "Apache"] [lit "aws-cli"; lit "python"] []
  = sample_info.
Proof.
  apply (derived_file_determines_fields
           (PkgInfo (lit "awscli-local") (lit "1.0.0") (lit "1")
                    (lit "Thin wrapper around the aws command")
                    (lit "https://github.com/localstack/awscli-local")
                    [lit "any"] [lit "Apache"] [lit "aws-cli"; lit "python"]
                    [])
           sample_info).
  - unfold one_line_each, one_line. cbn -[lit In].
    repeat split; repeat apply Forall_cons; try apply Forall_nil;
      apply CheckVersionFacts.dot_run; reflexivity.
  - unfold one_line_each, one_line. cbn -[lit In].
    repeat split; repeat apply Forall_cons; try apply Forall_nil;
      apply CheckVersionFacts.dot_run; reflexivity.
  - reflexivity.
Defined.

End DerivedFileFacts.

(* ================================================================= *)
(** ** The Metadata Regenerator: reading a scalar field *)

Module FieldFacts.
Import GenerateSrcinfo.

Lemma search_first_occurrence (head : str) (r : regex) pre x rest g :
  head <> [] ->
  occurrences head (pre ++ head) = 1 ->
  match_here (Seq (Lit head) r) ((head ++ x) ++ rest) = Some (rest, g) ->
  search (Seq (Lit head) r) (pre ++ (head ++ x) ++ rest)
  = Some (MatchObj pre (head ++ x) rest g).
Proof.
  intros Nh One M. apply search_first; [|exact M].
  apply ChecksumFacts.no_head_no_match with (head := head).
  - intros s rest' g'. apply LineFacts.opens_with_seq_lit.
  - rewrite <- !app_assoc.
    apply ArrayFacts.first_occurrence; assumption.
Qed.

(** X15: for [pkgname], [pkgver] and [pkgrel], [extract_field] returns what
    follows the first [name=] up to the next white space or the end of the
    text, and prints nothing: a comment or other text after the value on
    the same line is not part of it. *)
Theorem word_field_is_read (name : string) (X pre post : str) w :
  X <> [] -> forallb non_space X = true -> stops non_space post ->
  occurrences (lit name ++ lit "=") (pre ++ lit name ++ lit "=") = 1 ->
  extract_field (pre ++ (lit name ++ lit "=") ++ X ++ post)
                (word_field name) true w
  = (Returned (Some X), w).
Proof.
  intros N P St One. unfold extract_field, word_field. cbn [pat_re seq].
  assert (Nh : lit name ++ lit "=" <> [])
    by (destruct (lit name); discriminate).
  set (head := lit name ++ lit "=") in *.
  assert (M : match_here (Seq (Lit head) (Grp 1 (Plus non_space)))
                         ((head ++ X) ++ post)
              = Some (post, [(1, X)]))
    by (rewrite <- app_assoc; apply match_lit_run; assumption).
  pose proof (search_first_occurrence head _ pre X post _ Nh One M) as S.
  rewrite <- !app_assoc in S. rewrite S. reflexivity.
Qed.

Lemma word_field_is_read_witness :
  extract_field
    (text [lit "pkgname=awscli-local"]
     ++ (lit "pkgver" ++ lit "=") ++ lit "1.0.0"
     ++ lit " # bumped by hand" ++ [NL])
    (word_field "pkgver") true (descriptor [])
  = (Returned (Some (lit "1.0.0")), descriptor []).
Proof.
  apply (word_field_is_read "pkgver" (lit "1.0.0")
           (text [lit "pkgname=awscli-local"])
           (lit " # bumped by hand" ++ [NL]) (descriptor [])).
  - discriminate.
  - reflexivity.
  - right. exists 32%N, (lit "# bumped by hand" ++ [NL]).
    split; reflexivity.
  - reflexivity.
Defined.

(** X16: for [pkgdesc] and [url], [extract_field] returns what stands
    between the double quote of the first [name=] followed by a double
    quote and the next double quote, line feeds included, and prints
    nothing. *)
Theorem quoted_field_is_read (name : string) (X pre post : str) w :
  X <> [] -> forallb (none_of [DQ]) X = true ->
  occurrences (lit name ++ lit "=" ++ [DQ])
              (pre ++ lit name ++ lit "=" ++ [DQ]) = 1 ->
  extract_field (pre ++ (lit name ++ lit "=" ++ [DQ]) ++ X ++ [DQ] ++ post)
                (quoted_field name) true w
  = (Returned (Some X), w).
Proof.
  intros N P One. unfold extract_field, quoted_field. cbn [pat_re seq].
  assert (Nh : lit name ++ lit "=" ++ [DQ] <> [])
    by (destruct (lit name); discriminate).
  set (head := lit name ++ lit "=" ++ [DQ]) in *.
  assert (M : match_here
                (Seq (Lit head) (Seq (Grp 1 (Plus (none_of [DQ]))) (Lit [DQ])))
                ((head ++ X ++ [DQ]) ++ post)
              = Some (post, [(1, X)])).
  { rewrite <- !app_assoc.
    apply (ArrayFacts.match_delimited head [DQ] 1 (none_of [DQ]));
      [exact N|exact P|apply ChecksumFacts.stops_at]. }
  pose proof (search_first_occurrence head _ pre (X ++ [DQ]) post _ Nh One M)
    as S.
  rewrite <- !app_assoc in S. rewrite S. reflexivity.
Qed.

Lemma quoted_field_is_read_witness :
  extract_field
    (text [lit "pkgname=awscli-local"]
     ++ (lit "pkgdesc" ++ lit "=" ++ [DQ])
     ++ (lit "Thin wrapper" ++ [NL] ++ lit "around the aws command")
     ++ [DQ] ++ [NL])
    (quoted_field "pkgdesc") true (descriptor [])
  = (Returned (Some (lit "Thin wrapper" ++ [NL]
                     ++ lit "around the aws command")),
     descriptor []).
Proof.
  apply (quoted_field_is_read "pkgdesc"
           (lit "Thin wrapper" ++ [NL] ++ lit "around the aws command")
           (text [lit "pkgname=awscli-local"]) [NL] (descriptor [])).
  - discriminate.
  - reflexivity.
  - reflexivity.
Defined.

End FieldFacts.
